(** * muz: migration discovery and the Start/Process/End driver protocol

    A shallow embedding of [file.go] (discovery: skip patterns, directory
    ordering, per-directory file lists, version extraction), of [muz.go]
    (the orchestrator [Migrate]) and of the PostgreSQL reference driver,
    followed by the properties stated about them.

    Conventions.
    - A Go [string] is a byte sequence; it is a [string] here, one [ascii]
      per byte.  [strings.Compare] is the bytewise lexicographic order.
    - A Go [int] is a 64-bit signed integer, a [Z] with the range written out
      where the code can leave it ([strconv.Atoi]).
    - A Go [error] is an [option error]: [None] is [nil].
    - [doublestar.Match] belongs to an external library; the discovery code
      is embedded over an arbitrary matcher [Match]. *)

From Stdlib Require Import ZArith Ascii String Lia.
From stdpp Require Import base list strings gmap sorting.

Local Open Scope Z_scope.

(** ** Go strings *)

Module GoStrings.

Definition slash : ascii := "/"%char.

(** [strings.HasPrefix(s, prefix)] *)
Fixpoint HasPrefix (s pre : string) : bool :=
  match pre, s with
  | EmptyString, _ => true
  | String _ _, EmptyString => false
  | String a pre', String b s' => if Ascii.eqb a b then HasPrefix s' pre' else false
  end.

(** [strings.TrimPrefix(s, prefix)] *)
Fixpoint TrimPrefix_go (s pre : string) : option string :=
  match pre, s with
  | EmptyString, _ => Some s
  | String _ _, EmptyString => None
  | String a pre', String b s' => if Ascii.eqb a b then TrimPrefix_go s' pre' else None
  end.

Definition TrimPrefix (s pre : string) : string :=
  match TrimPrefix_go s pre with
  | Some r => r
  | None => s
  end.

(** [strings.HasSuffix(s, suffix)]: the last [len(suffix)] bytes of [s]. *)
Definition HasSuffix (s suf : string) : bool :=
  (String.length suf <=? String.length s)%nat &&
  String.eqb (String.substring (String.length s - String.length suf)
                               (String.length suf) s) suf.

(** [strings.TrimSuffix(s, suffix)] *)
Definition TrimSuffix (s suf : string) : string :=
  if HasSuffix s suf
  then String.substring 0 (String.length s - String.length suf) s
  else s.

(** [strings.Compare(a, b)]: -1, 0 or 1 *)
Definition Compare (a b : string) : Z :=
  match String.compare a b with
  | Lt => -1
  | Eq => 0
  | Gt => 1
  end.

(** [strings.ToLower] on the ASCII letters; bytes outside [A-Z] are kept.
    (Go lower-cases non-ASCII runes by the Unicode tables; no statement
    below depends on what the extension filter lets through.) *)
Definition lower_byte (c : ascii) : ascii :=
  let n := N_of_ascii c in
  if ((65 <=? n) && (n <=? 90))%N then ascii_of_N (n + 32) else c.

Fixpoint ToLower (s : string) : string :=
  match s with
  | EmptyString => EmptyString
  | String c r => String (lower_byte c) (ToLower r)
  end.

(** Does the byte [c] occur in [s]? *)
Fixpoint contains_byte (c : ascii) (s : string) : bool :=
  match s with
  | EmptyString => false
  | String a r => Ascii.eqb a c || contains_byte c r
  end.

End GoStrings.
Import GoStrings.

(** ** [strconv.Atoi] and [extractLeadingNumber] *)

Definition maxInt : Z := 2 ^ 63 - 1.
Definition minInt : Z := - 2 ^ 63.

(** [r >= '0' && r <= '9'] *)
Definition isDigit (c : ascii) : bool :=
  let n := N_of_ascii c in ((48 <=? n) && (n <=? 57))%N.

Definition digitVal (c : ascii) : Z := Z.of_N (N_of_ascii c) - 48.

(** The accumulation loop of [strconv]: [n = n*10 + digit]. *)
Fixpoint accumulate (n : Z) (s : string) : Z :=
  match s with
  | EmptyString => n
  | String c r => accumulate (n * 10 + digitVal c) r
  end.

Fixpoint allDigits (s : string) : bool :=
  match s with
  | EmptyString => true
  | String c r => isDigit c && allDigits r
  end.

(** [strconv.Atoi]: an optional sign, then one or more decimal digits; a
    syntax error or a value outside the [int] range is an error ([None]). *)
Definition Atoi (s : string) : option Z :=
  let '(neg, body) :=
    match s with
    | String "-"%char r => (true, r)
    | String "+"%char r => (false, r)
    | _ => (false, s)
    end in
  match body with
  | EmptyString => None
  | _ =>
      if allDigits body then
        let v := accumulate 0 body in
        let v := if neg then - v else v in
        if (minInt <=? v) && (v <=? maxInt) then Some v else None
      else None
  end.

(** The loop of [extractLeadingNumber]: the digits are collected until the
    first byte that is not one.  (The source ranges over runes; a byte of a
    multi-byte rune is never an ASCII digit, so the loop stops at the same
    place.) *)
Fixpoint leadingDigits (filename : string) : string :=
  match filename with
  | EmptyString => EmptyString
  | String r rest =>
      if isDigit r then String r (leadingDigits rest) else EmptyString
  end.

Definition extractLeadingNumber (filename : string) : Z * string :=
  let numStr := leadingDigits filename in
  match numStr with
  | EmptyString => (0, filename)
  | _ =>
      match Atoi numStr with
      | None => (0, filename)
      | Some num => (num, filename)
      end
  end.

(** The integer a digit string denotes, by position: the specification side
    of [extractLeadingNumber]. *)
Fixpoint run_value (s : string) : Z :=
  match s with
  | EmptyString => 0
  | String c r => digitVal c * 10 ^ Z.of_nat (String.length r) + run_value r
  end.

(** What remains of a name after its leading digit run. *)
Fixpoint afterDigits (filename : string) : string :=
  match filename with
  | EmptyString => EmptyString
  | String r rest => if isDigit r then afterDigits rest else filename
  end.

Definition startsWithDigit (s : string) : bool :=
  match s with
  | EmptyString => false
  | String c _ => isDigit c
  end.

(** ** The file system behind [fs.FS]

    A read-only tree.  [ReadDir] lists the entries of a directory in the
    order of the [children] list (Go sorts them by name); a directory whose
    [rderr] is set cannot be listed, a file whose [content] is an error
    cannot be read.  Entry names are base names. *)

Definition error := string.

Inductive res (A : Type) : Type :=
| Ok (a : A)
| Err (e : error).
Arguments Ok {A} a.
Arguments Err {A} e.

#[warnings="-register-all"]
Inductive Node : Type :=
| File (name : string) (content : res string)
| Dir (name : string) (rderr : option error) (children : list Node).

Definition nodeName (n : Node) : string :=
  match n with
  | File name _ => name
  | Dir name _ _ => name
  end.

Definition IsDir (n : Node) : bool :=
  match n with
  | File _ _ => false
  | Dir _ _ _ => true
  end.

(** The file system handed to discovery ([fs.Sub(m.FS, path)] or
    [os.DirFS(path)]): its root is the path ["."]; [Missing e] is a root
    that cannot be opened. *)
Inductive FS : Type :=
| Missing (e : error)
| Mounted (root : Node).

(** [path.Join(dir, name)] for a clean [dir] and an entry name: under the
    root ["."] the name itself, otherwise [dir/name]. *)
Definition Join (dir name : string) : string :=
  if String.eqb dir "." then name else dir +:+ "/" +:+ name.

(** [strings.Split(s, "/")] *)
Fixpoint segments (s : string) : list string :=
  match s with
  | EmptyString => [EmptyString]
  | String c r =>
      if Ascii.eqb c slash then EmptyString :: segments r
      else match segments r with
           | seg :: rest => String c seg :: rest
           | [] => [String c EmptyString]
           end
  end.

Fixpoint findEntry (name : string) (entries : list Node) : option Node :=
  match entries with
  | [] => None
  | n :: rest => if String.eqb (nodeName n) name then Some n else findEntry name rest
  end.

Fixpoint resolve (segs : list string) (n : Node) : option Node :=
  match segs with
  | [] => Some n
  | seg :: rest =>
      match n with
      | Dir _ _ children =>
          match findEntry seg children with
          | Some c => resolve rest c
          | None => None
          end
      | File _ _ => None
      end
  end.

Definition open (fsys : FS) (path : string) : res Node :=
  match fsys with
  | Missing e => Err e
  | Mounted root =>
      match resolve (if String.eqb path "." then [] else segments path) root with
      | Some n => Ok n
      | None => Err "file does not exist"
      end
  end.

(** [fs.ReadDir(fsys, dir)] *)
Definition ReadDir (fsys : FS) (dir : string) : res (list Node) :=
  match open fsys dir with
  | Err e => Err e
  | Ok (Dir _ None children) => Ok children
  | Ok (Dir _ (Some e) _) => Err e
  | Ok (File _ _) => Err "not a directory"
  end.

(** [fs.ReadFile(fsys, path)] *)
Definition ReadFile_fs (fsys : FS) (path : string) : res string :=
  match open fsys path with
  | Err e => Err e
  | Ok (File _ content) => content
  | Ok (Dir _ _ _) => Err "is a directory"
  end.

(** *** [fs.WalkDir] *)

Inductive WalkErr : Type :=
| SkipDir
| SkipAll
| Other (e : error).

Section WalkDir.
Context {A : Type}.
(** The callback: path, whether the entry is a directory, the error
    [WalkDir] reports, and the state the closure captures. *)
Variable fn : string -> bool -> option error -> A -> A * option WalkErr.

(** [walkDir]: the callback first; a directory is then listed (a listing
    error is reported to the callback by a second call) and its entries
    are walked in order.  [SkipDir] from a directory prunes it; [SkipDir]
    from a file ends the enclosing directory's loop. *)
Fixpoint walkDir (name : string) (d : Node) (acc : A) : A * option WalkErr :=
  match fn name (IsDir d) None acc with
  | (acc1, Some err) =>
      match err, IsDir d with
      | SkipDir, true => (acc1, None)
      | _, _ => (acc1, Some err)
      end
  | (acc1, None) =>
      match d with
      | File _ _ => (acc1, None)
      | Dir _ (Some e) _ =>
          match fn name true (Some e) acc1 with
          | (acc2, Some SkipDir) => (acc2, None)
          | (acc2, Some err) => (acc2, Some err)
          | (acc2, None) => (acc2, None)
          end
      | Dir _ None children =>
          (fix loop (dirs : list Node) (acc : A) : A * option WalkErr :=
             match dirs with
             | [] => (acc, None)
             | d1 :: rest =>
                 match walkDir (Join name (nodeName d1)) d1 acc with
                 | (acc', Some SkipDir) => (acc', None)
                 | (acc', Some err) => (acc', Some err)
                 | (acc', None) => loop rest acc'
                 end
             end) children acc1
      end
  end.

Definition WalkDir (fsys : FS) (acc : A) : A * option error :=
  let '(acc', err) :=
    match fsys with
    | Missing e => fn "." false (Some e) acc
    | Mounted root => walkDir "." root acc
    end in
  match err with
  | Some (Other e) => (acc', Some e)
  | _ => (acc', None)
  end.
End WalkDir.

(** The same callback, with every path it is invoked on recorded. *)
Definition traced {A : Type}
    (fn : string -> bool -> option error -> A -> A * option WalkErr)
    (path : string) (isdir : bool) (err : option error) (st : A * list string)
    : (A * list string) * option WalkErr :=
  let '(acc, r) := fn path isdir err (fst st) in ((acc, snd st ++ [path]), r).

(** ** Discovery ([file.go]) *)

Record FileInfo : Type := mkFileInfo { FPath : string; Version : Z }.

Record Muzo : Type := mkMuzo { MDir : string; Files : list FileInfo; mfs : FS }.

Record Migrate : Type := mkMigrate {
  Path : string;
  Order : list string;
  Skip : list string;
  Extension : string
}.

(** [(d *Muzo) ReadFile(filePath)] *)
Definition ReadFile (d : Muzo) (filePath : string) : res string :=
  ReadFile_fs (mfs d) (Join (MDir d) filePath).

(** [filepath.Base] on a slash-separated path *)
Fixpoint stripSlashes (rev_path : list ascii) : list ascii :=
  match rev_path with
  | c :: r => if Ascii.eqb c slash then stripSlashes r else rev_path
  | [] => []
  end.

Fixpoint lastElement (rev_path : list ascii) : list ascii :=
  match rev_path with
  | c :: r => if Ascii.eqb c slash then [] else c :: lastElement r
  | [] => []
  end.

Definition Base (path : string) : string :=
  match path with
  | EmptyString => "."
  | _ =>
      match stripSlashes (rev (list_ascii_of_string path)) with
      | [] => "/"
      | p => string_of_list_ascii (rev (lastElement p))
      end
  end.

(** [slices.SortFunc]: the insertion sort Go runs on short slices.  Each
    element moves left while it compares below its left neighbour; the
    sorted prefix is kept reversed.  For the comparison functions of this
    file, which are total orders on the values they meet, every correct
    sort returns the same slice ([SortFunc_unique] below). *)
Section SortFunc.
Context {A : Type}.
Variable cmp : A -> A -> Z.

Fixpoint insertBack (x : A) (rev_prefix : list A) : list A :=
  match rev_prefix with
  | [] => [x]
  | y :: r => if cmp x y <? 0 then y :: insertBack x r else x :: rev_prefix
  end.

Definition SortFunc (data : list A) : list A :=
  rev (fold_left (fun acc x => insertBack x acc) data []).

(** [a] does not compare above [b]. *)
Definition cmpLe (a b : A) : Prop := cmp a b <= 0.
End SortFunc.

(** What the iterator yields: [(info, nil)] or [(nil, err)]. *)
Inductive Item : Type :=
| Yield (info : Muzo)
| Fail (e : error).

Section Discovery.
(** [matched, _ := doublestar.Match(pattern, path)] *)
Variable Match : string -> string -> bool.

Section WithMigrate.
Variable m : Migrate.

Definition shouldSkip (path : string) : bool :=
  (fix loop (skips : list string) : bool :=
     match skips with
     | [] => false
     | skip :: rest =>
         let pattern := TrimPrefix skip "/" in
         if Match pattern path then true else loop rest
     end) (Skip m).

Definition shouldSkipDir (path : string) : bool :=
  (fix loop (skips : list string) : bool :=
     match skips with
     | [] => false
     | skip :: rest =>
         let pattern := TrimPrefix skip "/" in
         if String.eqb pattern path then true
         else if HasSuffix pattern "/**" &&
                 (let basePattern := TrimSuffix pattern "/**" in
                  String.eqb path basePattern || HasPrefix path (basePattern +:+ "/"))
              then true
              else loop rest
     end) (Skip m).

(** The callback given to [fs.WalkDir]; the captured slice is [dirs]. *)
Definition dirsCallback (path : string) (isdir : bool) (err : option error)
    (dirs : list string) : list string * option WalkErr :=
  match err with
  | Some e => (dirs, Some (Other e))
  | None =>
      if negb isdir then (dirs, None)
      else if shouldSkipDir path then (dirs, Some SkipDir)
      else if negb (shouldSkip path) then (dirs ++ [path], None)
      else (dirs, None)
  end.

Definition getMigrationDirs (fileSystem : FS) : res (list string) :=
  match WalkDir dirsCallback fileSystem [] with
  | (_, Some e) => Err e
  | (dirs, None) => Ok dirs
  end.

(** The walk of [getMigrationDirs] with its visits recorded: the
    collected directories, the paths the callback ran on, the error. *)
Definition walkTrace (fileSystem : FS) : list string * list string * option error :=
  WalkDir (traced dirsCallback) fileSystem ([], []).

Fixpoint buildOrderMap (i : Z) (order : list string) (orderMap : gmap string Z)
    : gmap string Z :=
  match order with
  | [] => orderMap
  | o :: rest => buildOrderMap (i + 1) rest (<[TrimPrefix o "/" := i]> orderMap)
  end.

(** The comparison of [sortDirs]; [orderMap[a]] is the pair of the value
    and whether the key is present. *)
Definition dirCmp (orderMap : gmap string Z) (a b : string) : Z :=
  match orderMap !! a, orderMap !! b with
  | Some aOrder, Some bOrder => aOrder - bOrder
  | Some _, None => -1
  | None, Some _ => 1
  | None, None => Compare a b
  end.

Definition sortDirs (dirs : list string) : list string :=
  match Order m with
  | [] => SortFunc Compare dirs
  | _ => SortFunc (dirCmp (buildOrderMap 0 (Order m) ∅)) dirs
  end.

(** The comparison of [sortMigrationFiles].  Both numbers lie between 0
    and the largest [int] ([extractLeadingNumber_nonneg]), so the
    difference does not wrap. *)
Definition fileCmp (a b : FileInfo) : Z :=
  let '(aNum, aName) := extractLeadingNumber (Base (FPath a)) in
  let '(bNum, bName) := extractLeadingNumber (Base (FPath b)) in
  if negb (aNum =? bNum) then aNum - bNum else Compare aName bName.

Definition sortMigrationFiles (files : list FileInfo) : list FileInfo :=
  SortFunc fileCmp files.

Fixpoint collectFiles (dir : string) (entries : list Node) (files : list FileInfo)
    : list FileInfo :=
  match entries with
  | [] => files
  | entry :: rest =>
      if IsDir entry then collectFiles dir rest files
      else
        let name := nodeName entry in
        let fullPath := if negb (String.eqb dir ".") then Join dir name else name in
        if shouldSkip fullPath then collectFiles dir rest files
        else if negb (String.eqb (Extension m) EmptyString) &&
                negb (HasSuffix (ToLower name) (ToLower (Extension m)))
             then collectFiles dir rest files
             else
               let '(n, _) := extractLeadingNumber name in
               if 0 <? n
               then collectFiles dir rest (files ++ [mkFileInfo name n])
               else collectFiles dir rest files
  end.

Definition getMigrationFiles (fileSystem : FS) (dir : string) : res (list FileInfo) :=
  match ReadDir fileSystem dir with
  | Err e => Err e
  | Ok entries => Ok (sortMigrationFiles (collectFiles dir entries []))
  end.

(** The whole sequence of [iterMigrationInfo], for a consumer that never
    stops; a consumer that stops has seen a prefix of it. *)
Definition iterMigrationInfo (fileSystem : FS) : list Item :=
  match getMigrationDirs fileSystem with
  | Err e => [Fail e]
  | Ok dirs =>
      map (fun dir =>
             match getMigrationFiles fileSystem dir with
             | Err e => Fail e
             | Ok files => Yield (mkMuzo dir files fileSystem)
             end) (sortDirs dirs)
  end.
End WithMigrate.
End Discovery.

(** ** A glob matcher for the concrete examples

    [doublestar.Match] is an external library and is not part of the
    sources; the general statements below are about an arbitrary [Match].
    The examples need one to compute with. *)

(** Modelled from the spec: [doublestar.Match] inside one path segment.
    ["*"] matches any run of bytes of the segment, ["?"] one byte, every
    other byte itself. *)
Fixpoint segMatch (pat : string) (s : string) : bool :=
  match pat with
  | EmptyString => match s with EmptyString => true | _ => false end
  | String c pat' =>
      if Ascii.eqb c "*" then
        (fix star (s : string) : bool :=
           segMatch pat' s ||
           match s with
           | EmptyString => false
           | String _ s' => star s'
           end) s
      else
        match s with
        | EmptyString => false
        | String c' s' =>
            (Ascii.eqb c "?" || Ascii.eqb c c') && segMatch pat' s'
        end
  end.

(** Modelled from the spec: [doublestar.Match] across segments.  A pattern
    segment ["**"] matches any number of whole path segments, none
    included; every other pattern segment matches one path segment. *)
Fixpoint pathMatch (pats : list string) (segs : list string) : bool :=
  match pats with
  | [] => match segs with [] => true | _ => false end
  | p :: ps =>
      if String.eqb p "**" then
        (fix skip (segs : list string) : bool :=
           pathMatch ps segs ||
           match segs with
           | [] => false
           | _ :: r => skip r
           end) segs
      else
        match segs with
        | [] => false
        | s :: r => segMatch p s && pathMatch ps r
        end
  end.

(** Modelled from the spec: [doublestar.Match(pattern, path)], pattern and
    path split at ["/"]. *)
Definition globMatch (pattern path : string) : bool :=
  pathMatch (segments pattern) (segments path).

(** ** The driver protocol and the orchestrator ([muz.go])

    A [context.Context] is seen through [ctx.Err()]: [ctx t] is its value
    once [t] driver calls of the run have returned ([None]: not cancelled).
    A driver method receives the value at the moment it is called. *)

Definition Context := nat -> option error.

Record Driver (S : Type) : Type := mkDriver {
  Start : option error -> S -> S * option error;
  Process : option error -> Muzo -> S -> S * option error;
  End : option error -> option error -> S -> S * option error
}.
Arguments Start {S} _ _ _.
Arguments Process {S} _ _ _ _.
Arguments End {S} _ _ _ _.

(** The driver calls of a run, in order; [CallEnd] carries the [err]
    argument [End] was given. *)
Inductive Call : Type :=
| CallStart
| CallProcess (info : Muzo)
| CallEnd (err : option error).

Module Orchestrator.
Section WithDriver.
Context {S : Type}.
Variable driver : Driver S.
Variable ctx : Context.

(** The [for info, err := range m.Migrations()] loop; [t] counts the
    driver calls made so far.  The result is the state, what the function
    returns from inside the loop ([None] when the loop runs to its end)
    and the calls made. *)
Fixpoint migrateLoop (t : nat) (items : list Item) (s : S)
    : S * option error * list Call :=
  match items with
  | [] => (s, None, [])
  | Fail err :: _ => (s, Some err, [])
  | Yield info :: rest =>
      match Process driver (ctx t) info s with
      | (s', Some err) => (s', Some err, [CallProcess info])
      | (s', None) =>
          let '(s'', ret, calls) := migrateLoop (Datatypes.S t) rest s' in
          (s'', ret, CallProcess info :: calls)
      end
  end.

(** [Migrate].  The named result [err] is [nil] when the [defer]
    statement runs, and a deferred call takes its arguments when it is
    deferred: that [nil] is what [End] receives at return.  The deferred
    call's own result is dropped. *)
Definition Migrate (items : list Item) (s : S) : S * option error * list Call :=
  let err : option error := None in
  match Start driver (ctx 0%nat) s with
  | (s1, Some e) => (s1, Some e, [CallStart])
  | (s1, None) =>
      let deferred := err in
      let '(s2, ret, calls) := migrateLoop 1 items s1 in
      let '(s3, _) := End driver (ctx (Datatypes.S (length calls))) deferred s2 in
      (s3, ret, CallStart :: calls ++ [CallEnd deferred])
  end.
End WithDriver.
End Orchestrator.

Definition endCalls (calls : list Call) : list (option error) :=
  omap (fun c => match c with CallEnd e => Some e | _ => None end) calls.

Definition processCalls (calls : list Call) : list Muzo :=
  omap (fun c => match c with CallProcess i => Some i | _ => None end) calls.

(** ** The callback-shaped [Migrate] of the earlier revision

    [apply(ctx, status, data)] is called once for the start, once per file
    and once for the end; [ctx.Err()] is consulted before each directory. *)
Module Callback.

Inductive status : Type := StatusStart | StatusProcess | StatusEnd.

(** What [iterMigrationInfo] yielded then: the file paths of a directory,
    or an error. *)
Definition Item := res (list string).

Section Migrate.
Context {S : Type}.
(** [apply]: the value of [ctx.Err()] at the call, the status, the file. *)
Variable apply : option error -> status -> option string -> S -> S * option error.
Variable ctx : Context.

Fixpoint applyFiles (t : nat) (files : list string) (s : S)
    : S * option error * list string :=
  match files with
  | [] => (s, None, [])
  | file :: rest =>
      match apply (ctx t) StatusProcess (Some file) s with
      | (s', Some err) => (s', Some err, [file])
      | (s', None) =>
          let '(s'', r, done) := applyFiles (Datatypes.S t) rest s' in
          (s'', r, file :: done)
      end
  end.

(** The loop; the third component lists the files handed to [apply]. *)
Fixpoint migrateLoop (t : nat) (items : list Item) (s : S)
    : S * option error * list string :=
  match items with
  | [] => (s, None, [])
  | Err err :: _ => (s, Some err, [])
  | Ok files :: rest =>
      match ctx t with
      | Some cerr => (s, Some cerr, [])
      | None =>
          match applyFiles t files s with
          | (s', Some err, done) => (s', Some err, done)
          | (s', None, done) =>
              let '(s'', r, done') := migrateLoop (t + length done) rest s' in
              (s'', r, done ++ done')
          end
      end
  end.

Definition Migrate (items : list Item) (s : S) : S * option error * list string :=
  match apply (ctx 0%nat) StatusStart None s with
  | (s1, Some err) => (s1, Some ("migrate start: " +:+ err), [])
  | (s1, None) =>
      match migrateLoop 1 items s1 with
      | (s2, Some err, done) => (s2, Some err, done)
      | (s2, None, done) =>
          match apply (ctx (Datatypes.S (length done))) StatusEnd None s2 with
          | (s3, Some err) => (s3, Some ("migrate end: " +:+ err), done)
          | (s3, None) => (s3, None, done)
          end
      end
  end.
End Migrate.
End Callback.

(** ** The PostgreSQL driver

    The tracking table is a list of rows with [UNIQUE(version, directory)]
    and a 32-bit [version] column.  The migrations' own SQL acts on the rest
    of the database, a [Store], through [exec].  A transaction works on a
    copy; a failed statement or a cancelled context leaves it [failed]:
    every later statement is refused and [Commit] rolls back and reports
    it.  [applied] logs, outside any transaction, each file whose SQL ran. *)

Record Row : Type := mkRow { version : Z; directory : string; file_name : string }.

Definition maxInt32 : Z := 2 ^ 31 - 1.

(** [SELECT MAX(version) FROM t WHERE directory = $1]; [None] is NULL. *)
Fixpoint maxVersion (rows : list Row) (dir : string) : option Z :=
  match rows with
  | [] => None
  | r :: rest =>
      if String.eqb (directory r) dir then
        match maxVersion rest dir with
        | Some v => Some (Z.max (version r) v)
        | None => Some (version r)
        end
      else maxVersion rest dir
  end.

(** The high-water mark [Process] starts from: [version := 0], replaced by
    the maximum when there is one. *)
Definition highWater (rows : list Row) (dir : string) : Z :=
  match maxVersion rows dir with
  | Some v => v
  | None => 0
  end.

(** [INSERT INTO t (version, directory, file_name) VALUES ...] *)
Definition insertRow (r : Row) (rows : list Row) : res (list Row) :=
  if negb ((- 2 ^ 31 <=? version r) && (version r <=? maxInt32))
  then Err "integer out of range"
  else if existsb (fun r' => (version r' =? version r) &&
                             String.eqb (directory r') (directory r)) rows
       then Err "duplicate key value violates unique constraint"
       else Ok (rows ++ [r]).

Section Postgres.
Variable Store : Type.
(** Running a migration's SQL text against the database. *)
Variable exec : string -> Store -> res Store.

Record Tx : Type := mkTx { rows : list Row; data : Store; failed : bool }.

Record Pg : Type := mkPg {
  dbRows : list Row;
  dbData : Store;
  tx : option Tx;
  applied : list (string * string)
}.

Definition failTx (t : Tx) : Tx := mkTx (rows t) (data t) true.

(** [Start]: [BeginTx], then [CREATE TABLE IF NOT EXISTS], which leaves an
    existing table as it is (a missing one is the empty list). *)
Definition pgStart (cerr : option error) (p : Pg) : Pg * option error :=
  match cerr with
  | Some e => (mkPg (dbRows p) (dbData p) None (applied p), Some e)
  | None =>
      (mkPg (dbRows p) (dbData p) (Some (mkTx (dbRows p) (dbData p) false)) (applied p),
       None)
  end.

(** The loop of [Process] over [data.Files]; [version] is the in-memory
    high-water mark. *)
Fixpoint pgApply (info : Muzo) (files : list FileInfo) (version : Z)
    (t : Tx) (log : list (string * string))
    : Tx * list (string * string) * option error :=
  match files with
  | [] => (t, log, None)
  | file :: rest =>
      if Version file <=? version then pgApply info rest version t log
      else
        match ReadFile info (FPath file) with
        | Err e => (t, log, Some e)
        | Ok content =>
            match exec content (data t) with
            | Err e =>
                (failTx t, log, Some ("applying migration " +:+ FPath file +:+ ": " +:+ e))
            | Ok data' =>
                let log' := log ++ [(MDir info, FPath file)] in
                match insertRow (mkRow (Version file) (MDir info) (FPath file)) (rows t) with
                | Err e => (mkTx (rows t) data' true, log', Some e)
                | Ok rows' =>
                    pgApply info rest (Version file) (mkTx rows' data' false) log'
                end
            end
        end
  end.

(** [Process].  Calling it without a transaction dereferences a nil
    pointer in Go; [Migrate] never does, and the model reports an error. *)
Definition pgProcess (cerr : option error) (info : Muzo) (p : Pg) : Pg * option error :=
  match tx p with
  | None => (p, Some "nil transaction")
  | Some t =>
      match cerr with
      | Some e => (mkPg (dbRows p) (dbData p) (Some (failTx t)) (applied p), Some e)
      | None =>
          if failed t then (p, Some "current transaction is aborted")
          else
            let version := highWater (rows t) (MDir info) in
            let '(t', log, err) := pgApply info (Files info) version t (applied p) in
            (mkPg (dbRows p) (dbData p) (Some t') log, err)
      end
  end.

(** [End]: roll back on an error, commit otherwise.  [Rollback] is taken
    to succeed. *)
Definition pgEnd (cerr : option error) (err : option error) (p : Pg) : Pg * option error :=
  match tx p with
  | None => (p, None)
  | Some t =>
      match err with
      | Some _ => (mkPg (dbRows p) (dbData p) (Some (failTx t)) (applied p), None)
      | None =>
          match cerr with
          | Some e => (mkPg (dbRows p) (dbData p) (Some (failTx t)) (applied p), Some e)
          | None =>
              if failed t
              then (p, Some "commit unexpectedly resulted in rollback")
              else (mkPg (rows t) (data t) (Some (failTx t)) (applied p), None)
          end
      end
  end.

Definition PostgresDriver : Driver Pg := mkDriver Pg pgStart pgProcess pgEnd.

(** The files the loop of [Process] applies when nothing fails. *)
Fixpoint selected (version : Z) (files : list FileInfo) : list FileInfo :=
  match files with
  | [] => []
  | file :: rest =>
      if Version file <=? version then selected version rest
      else file :: selected (Version file) rest
  end.
End Postgres.

Arguments Tx Store : clear implicits.
Arguments Pg Store : clear implicits.
Arguments mkTx {Store} _ _ _.
Arguments rows {Store} _.
Arguments data {Store} _.
Arguments failed {Store} _.
Arguments mkPg {Store} _ _ _ _.
Arguments dbRows {Store} _.
Arguments dbData {Store} _.
Arguments tx {Store} _.
Arguments applied {Store} _.
Arguments failTx {Store} _.
Arguments pgStart {Store} _ _.
Arguments pgApply {Store} _ _ _ _ _ _.
Arguments pgProcess {Store} _ _ _ _.
Arguments pgEnd {Store} _ _ _.
Arguments PostgresDriver {Store} _.

(** The row and the log entry [Process] writes for a file. *)
Definition rowOf (info : Muzo) (f : FileInfo) : Row :=
  mkRow (Version f) (MDir info) (FPath f).

Definition logOf (info : Muzo) (f : FileInfo) : string * string :=
  (MDir info, FPath f).

(** ** Well-formed trees and positions in them

    Entry names are base names: not empty, not ["."], without a separator.
    [located root p q x] says that the entry [x] sits at path [q] in the
    subtree of [root], [root] itself being at path [p]. *)

Definition validName (name : string) : bool :=
  negb (String.eqb name EmptyString) && negb (String.eqb name ".") &&
  negb (contains_byte slash name).

Fixpoint wfNode (n : Node) : Prop :=
  match n with
  | File _ _ => True
  | Dir _ _ children =>
      (fix each (l : list Node) : Prop :=
         match l with
         | [] => True
         | c :: r => validName (nodeName c) = true /\ wfNode c /\ each r
         end) children
  end.

Inductive located (root : Node) (p : string) : string -> Node -> Prop :=
| located_here : located root p p root
| located_child (q name : string) (e : option error) (children : list Node) (c : Node) :
    located root p q (Dir name e children) ->
    In c children ->
    located root p (Join q (nodeName c)) c.

(** Sibling entries have different names. *)
Fixpoint distinctNames (n : Node) : Prop :=
  match n with
  | File _ _ => True
  | Dir _ _ children =>
      NoDup (map nodeName children) /\
      (fix each (l : list Node) : Prop :=
         match l with
         | [] => True
         | c :: r => distinctNames c /\ each r
         end) children
  end.

(** [q] is [p] or a path below [p]. *)
Definition under (p q : string) : Prop := q = p \/ exists r, q = p +:+ "/" +:+ r.

(** The paths of all the entries of the subtree of [n], [n] being at [p]. *)
Fixpoint allPaths (p : string) (n : Node) : list string :=
  p :: match n with
       | File _ _ => []
       | Dir _ _ children =>
           (fix each (l : list Node) : list string :=
              match l with
              | [] => []
              | c :: r => allPaths (Join p (nodeName c)) c ++ each r
              end) children
       end.

(** The loop of [walkDir] over the entries of a directory. *)
Fixpoint walkList {A : Type} (fn : string -> bool -> option error -> A -> A * option WalkErr)
    (name : string) (dirs : list Node) (acc : A) : A * option WalkErr :=
  match dirs with
  | [] => (acc, None)
  | d1 :: rest =>
      match walkDir fn (Join name (nodeName d1)) d1 acc with
      | (acc', Some SkipDir) => (acc', None)
      | (acc', Some err) => (acc', Some err)
      | (acc', None) => walkList fn name rest acc'
      end
  end.

(** [childOf d p]: [p] is [d/seg] for a segment [seg] without separator. *)
Definition childOf (d p : string) : bool :=
  match TrimPrefix_go p (d +:+ "/") with
  | Some seg => negb (contains_byte slash seg)
  | None => false
  end.

(** [q] is not a path below [d]. *)
Definition notStrict (d q : string) : Prop := forall r, q <> d +:+ "/" +:+ r.

(** What one pattern contributes to [shouldSkipDir]. *)
Definition hardSkip (path skip : string) : bool :=
  let pattern := TrimPrefix skip "/" in
  String.eqb pattern path ||
  (HasSuffix pattern "/**" &&
   (String.eqb path (TrimSuffix pattern "/**") ||
    HasPrefix path (TrimSuffix pattern "/**" +:+ "/"))).

(** The configuration [m] without its skip pattern number [i]. *)
Definition withoutSkip (m : Migrate) (i : nat) : Migrate :=
  mkMigrate (Path m) (Order m) (take i (Skip m) ++ drop (Datatypes.S i) (Skip m)) (Extension m).

(** A pattern byte sequence without glob metacharacters. *)
Definition plain (s : string) : Prop :=
  contains_byte "*" s = false /\ contains_byte "?" s = false.

(** [strings.Join(segs, "/")] *)
Fixpoint joinSegs (segs : list string) : string :=
  match segs with
  | [] => EmptyString
  | [s] => s
  | s :: rest => s +:+ "/" +:+ joinSegs rest
  end.

(** The directory names [sortDirs] looks up: [Order] with the leading
    ["/"] of each entry stripped. *)
Definition orderKeys (m : Migrate) : list string :=
  map (fun o => TrimPrefix o "/") (Order m).

(** What [getMigrationFiles] makes of an entry it keeps: the base name, and
    as version the positive number that name starts with. *)
Definition fileOk (f : FileInfo) : Prop :=
  validName (FPath f) = true /\
  Version f = fst (extractLeadingNumber (FPath f)) /\
  0 < Version f.

(** A list without the earlier occurrences of its repeated elements. *)
Fixpoint dedupLast `{EqDecision A} (l : list A) : list A :=
  match l with
  | [] => []
  | x :: rest => if decide (x ∈ rest) then dedupLast rest else x :: dedupLast rest
  end.

(** [a] comes no later than [b] in a file list: by version, then by name. *)
Definition fileLe (a b : FileInfo) : Prop :=
  Version a < Version b \/ (Version a = Version b /\ Compare (FPath a) (FPath b) <= 0).

(** ** Concrete inputs for the examples

    A database whose [Store] is the list of the SQL texts run so far and
    which rejects the text ["bad"]; contexts; a driver that ignores its
    context and logs the directories it is given; two migration trees. *)

Definition sqlExec (sql : string) (st : list string) : res (list string) :=
  if String.eqb sql "bad" then Err "syntax error" else Ok (st ++ [sql]).

Definition emptyPg : Pg (list string) := mkPg [] [] None [].

Definition liveCtx : Context := fun _ => None.

Definition cancelledFrom (n : nat) : Context :=
  fun t => if (n <=? t)%nat then Some "context canceled" else None.

Definition logDriver : Driver (list string) :=
  mkDriver (list string)
    (fun _ s => (s ++ ["start"], None))
    (fun _ info s => (s ++ [MDir info], None))
    (fun _ _ s => (s ++ ["end"], None)).

Definition plainMigrate : Migrate := mkMigrate EmptyString [] [] EmptyString.

Definition usersPosts : FS :=
  Mounted (Dir EmptyString None
    [File "1_create_users.sql" (Ok "create users");
     File "2_create_posts.sql" (Ok "create posts");
     Dir "schema" None [File "1_tables.sql" (Ok "create tables")]]).

Definition brokenSchema : FS :=
  Mounted (Dir EmptyString None
    [File "1_create_users.sql" (Ok "create users");
     Dir "schema" None [File "1_tables.sql" (Ok "bad"); File "2_indexes.sql" (Ok "create indexes")]]).

(** The same tree with a first schema file that cannot be read. *)
Definition unreadableSchema : FS :=
  Mounted (Dir EmptyString None
    [File "1_create_users.sql" (Ok "create users");
     Dir "schema" None [File "1_tables.sql" (Err "permission denied");
                        File "2_indexes.sql" (Ok "create indexes")]]).

(** The tree of the skip-pattern tests: [test/{001_test.sql, child/...}]
    next to [keep]. *)
Definition grandchildDir : Node :=
  Dir "grandchild" None [File "001_grandchild.sql" (Ok "g")].

Definition childDir : Node :=
  Dir "child" None [File "001_child.sql" (Ok "c"); grandchildDir].

Definition testDir : Node :=
  Dir "test" None [File "001_test.sql" (Ok "t"); childDir].

Definition testRoot : Node :=
  Dir EmptyString None [Dir "keep" None [File "001_keep.sql" (Ok "k")]; testDir].

(** A root with a file and a directory of its own. *)
Definition smallRoot : Node :=
  Dir EmptyString None [File "1_a.sql" (Ok "a"); Dir "sub" None []].

(** A directory [test] that holds a directory literally named ["*"]. *)
Definition starRoot : Node :=
  Dir EmptyString None [Dir "test" None [Dir "*" None [Dir "x" None []]]].

(** A directory with three files of version 1. *)
Definition sameVersion : FS :=
  Mounted (Dir EmptyString None
    [Dir "migrations" None
       [File "001_alpha.sql" (Ok "alpha"); File "001_beta.sql" (Ok "beta");
        File "001_zebra.sql" (Ok "zebra"); File "2_next.sql" (Ok "next")]]).

(** What discovery yields, as directory names with file names. *)
Definition summary (items : list Item) : list (string * list string) :=
  map (fun i => match i with
                | Yield info => (MDir info, map FPath (Files info))
                | Fail e => (e, [])
                end) items.

(** The MigrationSet discovery yields for [migrations] in [sameVersion], and
    a database in which a transaction has just been opened. *)
Definition sameVersionSet : Muzo :=
  mkMuzo "migrations"
    [mkFileInfo "001_alpha.sql" 1; mkFileInfo "001_beta.sql" 1;
     mkFileInfo "001_zebra.sql" 1; mkFileInfo "2_next.sql" 2] sameVersion.

Definition emptyTx : Tx (list string) := mkTx [] [] false.

Definition startedPg : Pg (list string) := mkPg [] [] (Some emptyTx) [].

(** ** Machine integers in the comparison of files *)

(** A Go [int] result: the value modulo 2^64, in the signed range. *)
Definition wrapInt (z : Z) : Z := (z + 2 ^ 63) mod 2 ^ 64 - 2 ^ 63.

(** The comparison of [sortMigrationFiles] with [aNum - bNum] computed on
    machine integers. *)
Definition fileCmpInt (a b : FileInfo) : Z :=
  let '(aNum, aName) := extractLeadingNumber (Base (FPath a)) in
  let '(bNum, bName) := extractLeadingNumber (Base (FPath b)) in
  if negb (aNum =? bNum) then wrapInt (aNum - bNum) else Compare aName bName.

(** ** What the walk reaches

    The entries the walk of [getMigrationDirs] reaches from the entry
    [root] at path [p]: [root] itself, and every entry of a reached
    directory that can be listed and is not pruned. *)

Inductive reached (m : Migrate) (root : Node) (p : string) : string -> Node -> Prop :=
| reached_here : reached m root p p root
| reached_child (q name : string) (children : list Node) (c : Node) :
    reached m root p q (Dir name None children) ->
    shouldSkipDir m q = false ->
    In c children ->
    reached m root p (Join q (nodeName c)) c.

(** A reached directory that neither kind of skip applies to. *)
Definition collectable (Match : string -> string -> bool) (m : Migrate)
    (root : Node) (p q : string) : Prop :=
  exists x, reached m root p q x /\ IsDir x = true /\
            shouldSkipDir m q = false /\ shouldSkip Match m q = false.

(** ** The yielded sequence *)

(** [(d *Muzo) Open(filePath)]: the entry behind the handle. *)
Definition Open (d : Muzo) (filePath : string) : res Node :=
  open (mfs d) (Join (MDir d) filePath).

(** The directories of the sets an iteration yields. *)
Definition yieldedDirs (items : list Item) : list string :=
  omap (fun i => match i with Yield info => Some (MDir info) | Fail _ => None end) items.

(** The sets an iteration yields before its first error. *)
Fixpoint setsBeforeError (items : list Item) : list Muzo :=
  match items with
  | Yield info :: rest => info :: setsBeforeError rest
  | _ => []
  end.

(** The rows and the log entries [Process] writes for a set when the mark
    of its directory is [mark]. *)
Definition recorded (mark : Z) (info : Muzo) : list Row :=
  map (rowOf info) (selected mark (Files info)).

Definition logged (mark : Z) (info : Muzo) : list (string * string) :=
  map (logOf info) (selected mark (Files info)).

(** ** The earlier revision of discovery

    [getMigrationDirs] left the root out and pruned by path prefix;
    [getMigrationFiles] knew no skip patterns. *)

Module Legacy.
Section WithMigrate.
Variable m : Migrate.

(** The callback given to [fs.WalkDir]; the loop over [m.Skip] returns
    [fs.SkipDir] at the first entry the path equals or lies under. *)
Definition dirsCallback (path : string) (isdir : bool) (err : option error)
    (dirs : list string) : list string * option WalkErr :=
  match err with
  | Some e => (dirs, Some (Other e))
  | None =>
      if negb isdir then (dirs, None)
      else if String.eqb path "." then (dirs, None)
      else if (fix loop (skips : list string) : bool :=
                 match skips with
                 | [] => false
                 | skip :: rest =>
                     let skipPath := TrimPrefix skip "/" in
                     if String.eqb path skipPath || HasPrefix path (skipPath +:+ "/")
                     then true
                     else loop rest
                 end) (Skip m)
           then (dirs, Some SkipDir)
           else (dirs ++ [path], None)
  end.

Definition getMigrationDirs (fileSystem : FS) : res (list string) :=
  match WalkDir dirsCallback fileSystem [] with
  | (_, Some e) => Err e
  | (dirs, None) => Ok dirs
  end.

Fixpoint collectFiles (entries : list Node) (files : list FileInfo) : list FileInfo :=
  match entries with
  | [] => files
  | entry :: rest =>
      if IsDir entry then collectFiles rest files
      else
        let name := nodeName entry in
        if negb (String.eqb (Extension m) EmptyString) &&
           negb (HasSuffix (ToLower name) (ToLower (Extension m)))
        then collectFiles rest files
        else
          let '(n, _) := extractLeadingNumber name in
          if 0 <? n
          then collectFiles rest (files ++ [mkFileInfo name n])
          else collectFiles rest files
  end.

Definition getMigrationFiles (fileSystem : FS) (dir : string) : res (list FileInfo) :=
  match ReadDir fileSystem dir with
  | Err e => Err e
  | Ok entries => Ok (sortMigrationFiles (collectFiles entries []))
  end.

End WithMigrate.
End Legacy.

(** A skip entry the two revisions read alike: once the leading ["/"] is
    stripped it is not the root, does not end in ["/**"], and the matcher
    accepts no path but the entry itself. *)
Definition literalSkip (Match : string -> string -> bool) (skip : string) : Prop :=
  let pattern := TrimPrefix skip "/" in
  pattern <> "." /\ HasSuffix pattern "/**" = false /\
  forall path, Match pattern path = true -> path = pattern.

(** The skip loop of the earlier callback, as one test over [m.Skip]. *)
Definition legacySkipped (m : Migrate) (path : string) : bool :=
  existsb (fun skip => String.eqb path (TrimPrefix skip "/") ||
                       HasPrefix path (TrimPrefix skip "/" +:+ "/")) (Skip m).

(** All the files of the sets of the callback-shaped iteration, in order. *)
Definition allFiles (items : list Callback.Item) : list string :=
  concat (map (fun i => match i with Ok files => files | Err _ => [] end) items).

(** ** Further concrete inputs *)

(** The set discovery yields for the root of [usersPosts]. *)
Definition rootSet : Muzo :=
  mkMuzo "." [mkFileInfo "1_create_users.sql" 1; mkFileInfo "2_create_posts.sql" 2] usersPosts.

(** A set whose only file is numbered by a timestamp. *)
Definition timestampSet : Muzo :=
  mkMuzo "." [mkFileInfo "20240101120000_init.sql" 20240101120000]
    (Mounted (Dir EmptyString None [File "20240101120000_init.sql" (Ok "create t")])).

(** An [apply] callback that logs the file it is given and never fails. *)
Definition logApply (_ : option error) (_ : Callback.status) (f : option string)
    (s : list string) : list string * option error :=
  (s ++ [default EmptyString f], None).

(** * Properties *)

(** ** Strings *)

Lemma append_cons (c : ascii) (a b : string) : String c a +:+ b = String c (a +:+ b).
Proof. reflexivity. Qed.

Lemma append_empty_l (a : string) : EmptyString +:+ a = a.
Proof. reflexivity. Qed.

Lemma append_empty_r (a : string) : a +:+ EmptyString = a.
Proof. induction a as [|c a IH]; [reflexivity|]. now rewrite append_cons, IH. Qed.

Lemma append_assoc (a b c : string) : (a +:+ b) +:+ c = a +:+ (b +:+ c).
Proof. induction a as [|x a IH]; [reflexivity|]. now rewrite !append_cons, IH. Qed.

(** ** More on strings: prefixes, suffixes, separators *)

Section StringFacts.

Lemma length_append (a b : string) :
  String.length (a +:+ b) = (String.length a + String.length b)%nat.
Proof. induction a as [|c a IH]; [reflexivity|]. rewrite append_cons. simpl. now rewrite IH. Qed.

Lemma TrimPrefix_go_Some (s pre r : string) :
  TrimPrefix_go s pre = Some r <-> s = pre +:+ r.
Proof.
  revert s. induction pre as [|a pre IH]; intros s.
  - rewrite append_empty_l. destruct s; simpl; split; congruence.
  - rewrite append_cons. destruct s as [|b s]; simpl; [split; congruence|].
    destruct (Ascii.eqb_spec a b) as [->|Hne].
    + rewrite IH. split; congruence.
    + split; congruence.
Qed.

Lemma HasPrefix_TrimPrefix_go (s pre : string) :
  HasPrefix s pre = match TrimPrefix_go s pre with Some _ => true | None => false end.
Proof.
  revert s. induction pre as [|a pre IH]; intros s.
  - now destruct s.
  - destruct s as [|b s]; simpl; [reflexivity|].
    destruct (Ascii.eqb a b); [apply IH | reflexivity].
Qed.

Lemma HasPrefix_true (s pre : string) :
  HasPrefix s pre = true <-> exists r, s = pre +:+ r.
Proof.
  rewrite HasPrefix_TrimPrefix_go. split.
  - destruct (TrimPrefix_go s pre) as [r|] eqn:E; [|discriminate].
    intros _. exists r. now apply TrimPrefix_go_Some.
  - intros [r Hr]. apply TrimPrefix_go_Some in Hr. now rewrite Hr.
Qed.

Lemma TrimPrefix_app (pre r : string) : TrimPrefix (pre +:+ r) pre = r.
Proof.
  unfold TrimPrefix.
  assert (H : TrimPrefix_go (pre +:+ r) pre = Some r) by now apply TrimPrefix_go_Some.
  now rewrite H.
Qed.

Lemma contains_byte_app (c : ascii) (a b : string) :
  contains_byte c (a +:+ b) = contains_byte c a || contains_byte c b.
Proof.
  induction a as [|x a IH]; [reflexivity|].
  rewrite append_cons. simpl. rewrite IH. now rewrite orb_assoc.
Qed.

Lemma substring_0_app (a b : string) :
  String.substring 0 (String.length a) (a +:+ b) = a.
Proof.
  induction a as [|c a IH].
  - rewrite append_empty_l. simpl. now destruct b.
  - rewrite append_cons. simpl. now rewrite IH.
Qed.

Lemma substring_all (b : string) : String.substring 0 (String.length b) b = b.
Proof. induction b as [|c b IH]; [reflexivity|]. simpl. now rewrite IH. Qed.

Lemma substring_skip_app (a b : string) (n : nat) :
  String.substring (String.length a) n (a +:+ b) = String.substring 0 n b.
Proof.
  induction a as [|c a IH]; [reflexivity|]. rewrite append_cons. simpl. exact IH.
Qed.

Lemma substring_split (s : string) (n : nat) :
  (n <= String.length s)%nat ->
  s = String.substring 0 n s +:+ String.substring n (String.length s - n) s.
Proof.
  revert n. induction s as [|c s IH]; intros n Hn.
  - simpl in Hn. assert (n = 0%nat) as -> by lia. reflexivity.
  - destruct n as [|n].
    + rewrite Nat.sub_0_r. cbn [String.substring]. rewrite append_empty_l.
      change (String c s = String.substring 0 (String.length (String c s)) (String c s)).
      now rewrite substring_all.
    + simpl in Hn. cbn [String.substring String.length Nat.sub].
      rewrite append_cons. f_equal. apply IH. lia.
Qed.

Lemma HasSuffix_app (a suf : string) : HasSuffix (a +:+ suf) suf = true.
Proof.
  unfold HasSuffix. rewrite length_append.
  replace (String.length a + String.length suf - String.length suf)%nat
    with (String.length a) by lia.
  rewrite substring_skip_app, substring_all, String.eqb_refl.
  apply andb_true_iff. split; [|reflexivity]. apply Nat.leb_le. lia.
Qed.

Lemma TrimSuffix_app (a suf : string) : TrimSuffix (a +:+ suf) suf = a.
Proof.
  unfold TrimSuffix. rewrite HasSuffix_app, length_append.
  replace (String.length a + String.length suf - String.length suf)%nat
    with (String.length a) by lia.
  apply substring_0_app.
Qed.

Lemma HasSuffix_true (s suf : string) :
  HasSuffix s suf = true -> exists a, s = a +:+ suf.
Proof.
  unfold HasSuffix. intros H. apply andb_true_iff in H as [Hlen Heq].
  apply Nat.leb_le in Hlen. apply String.eqb_eq in Heq.
  exists (String.substring 0 (String.length s - String.length suf) s).
  pose proof (substring_split s (String.length s - String.length suf)) as H.
  replace (String.length s - (String.length s - String.length suf))%nat
    with (String.length suf) in H by lia.
  rewrite Heq in H. apply H. lia.
Qed.

Lemma append_inj_r (x y u v : string) :
  String.length u = String.length v -> x +:+ u = y +:+ v -> x = y /\ u = v.
Proof.
  intros Hlen. revert y. induction x as [|a x IH]; intros y H.
  - destruct y as [|b y]; [now split|].
    exfalso. apply (f_equal String.length) in H.
    rewrite append_empty_l, append_cons in H. simpl in H.
    rewrite length_append in H. lia.
  - destruct y as [|b y].
    + exfalso. apply (f_equal String.length) in H.
      rewrite append_empty_l, append_cons in H. simpl in H.
      rewrite length_append in H. lia.
    + rewrite !append_cons in H. injection H as -> H.
      destruct (IH _ H) as [-> ->]. now split.
Qed.

(** A pattern [dir/*] never ends in [/**]. *)
Lemma HasSuffix_star (d : string) : HasSuffix (d +:+ "/*") "/**" = false.
Proof.
  destruct (HasSuffix (d +:+ "/*") "/**") eqn:E; [|reflexivity].
  apply HasSuffix_true in E as [a Ha].
  change "/**" with ("/" +:+ "**") in Ha. rewrite <- append_assoc in Ha.
  apply append_inj_r in Ha as [_ Ha]; [discriminate | reflexivity].
Qed.

(** Paths are joined with one separator and names hold none: if [p/c] is
    [d/r] and [c] has no separator, [d] is [p] or a proper ancestor of
    it. *)
Lemma split_last_slash (p c d r : string) :
  p +:+ "/" +:+ c = d +:+ "/" +:+ r ->
  contains_byte slash c = false ->
  d = p \/ exists r', p = d +:+ "/" +:+ r'.
Proof.
  intros H Hc. revert d H. induction p as [|y p IH]; intros d H.
  - destruct d as [|x d]; [now left|].
    rewrite append_empty_l, !append_cons, append_empty_l in H.
    injection H as <- H. rewrite H, contains_byte_app in Hc.
    simpl in Hc. rewrite orb_true_r in Hc. discriminate.
  - destruct d as [|x d].
    + rewrite append_empty_l, !append_cons, append_empty_l in H.
      injection H as <- H. right. exists p. reflexivity.
    + rewrite !append_cons in H. injection H as <- H.
      destruct (IH _ H) as [->|[r' ->]]; [now left|].
      right. exists r'. now rewrite append_cons.
Qed.

Lemma no_slash_not_under (c d r : string) :
  contains_byte slash c = false -> c <> d +:+ "/" +:+ r.
Proof.
  intros Hc ->. rewrite contains_byte_app, append_cons in Hc. simpl in Hc.
  rewrite orb_true_r in Hc. discriminate.
Qed.

End StringFacts.

(** ** Version extraction *)

Section VersionExtractor.

Lemma accumulate_run_value (s : string) (n : Z) :
  accumulate n s = n * 10 ^ Z.of_nat (String.length s) + run_value s.
Proof.
  revert n. induction s as [|c r IH]; intros n; simpl String.length.
  - simpl. lia.
  - cbn [accumulate run_value]. rewrite IH.
    replace (Z.of_nat (Datatypes.S (String.length r)))
      with (Z.succ (Z.of_nat (String.length r))) by lia.
    rewrite Z.pow_succ_r by lia. lia.
Qed.

Lemma digitVal_range (c : ascii) : isDigit c = true -> 0 <= digitVal c <= 9.
Proof.
  unfold isDigit, digitVal. intros H.
  apply andb_true_iff in H as [H1 H2].
  apply N.leb_le in H1. apply N.leb_le in H2. lia.
Qed.

Lemma run_value_nonneg (s : string) : allDigits s = true -> 0 <= run_value s.
Proof.
  induction s as [|c r IH]; simpl; [lia|].
  intros H. apply andb_true_iff in H as [Hc Hr].
  pose proof (digitVal_range c Hc). specialize (IH Hr).
  assert (0 <= 10 ^ Z.of_nat (String.length r)) by (apply Z.pow_nonneg; lia).
  nia.
Qed.

Lemma leadingDigits_allDigits (filename : string) :
  allDigits (leadingDigits filename) = true.
Proof.
  induction filename as [|c r IH]; simpl; [reflexivity|].
  destruct (isDigit c) eqn:E; simpl; [rewrite E; exact IH | reflexivity].
Qed.

Lemma leadingDigits_afterDigits (filename : string) :
  filename = leadingDigits filename +:+ afterDigits filename.
Proof.
  induction filename as [|c r IH]; simpl; [reflexivity|].
  destruct (isDigit c); [rewrite append_cons; congruence | reflexivity].
Qed.

Lemma afterDigits_stops (filename : string) :
  startsWithDigit (afterDigits filename) = false.
Proof.
  induction filename as [|c r IH]; simpl; [reflexivity|].
  destruct (isDigit c) eqn:E; simpl; [exact IH | exact E].
Qed.

(** The collected run is the maximal one: any split of the name into
    digits followed by something that does not start with a digit is the
    split the loop makes. *)
Lemma leadingDigits_maximal (run rest : string) :
  allDigits run = true -> startsWithDigit rest = false ->
  leadingDigits (run +:+ rest) = run.
Proof.
  intros Hrun Hrest. induction run as [|c r IH].
  - rewrite append_empty_l.
    destruct rest as [|c r]; simpl in *; [reflexivity|]. now rewrite Hrest.
  - rewrite append_cons. simpl in *.
    apply andb_true_iff in Hrun as [Hc Hr]. rewrite Hc. f_equal. now apply IH.
Qed.

Lemma Atoi_digits (s : string) :
  s <> EmptyString -> allDigits s = true ->
  Atoi s = if run_value s <=? maxInt then Some (run_value s) else None.
Proof.
  intros Hne Hd. pose proof (run_value_nonneg s Hd) as Hnn.
  destruct s as [|c r]; [congruence|].
  assert (Hsign : c <> "-"%char /\ c <> "+"%char).
  { simpl in Hd. apply andb_true_iff in Hd as [Hc _].
    split; intros ->; vm_compute in Hc; discriminate. }
  destruct Hsign as [Hm Hp].
  assert (Hbody : Atoi (String c r) =
            if allDigits (String c r) then
              let v := accumulate 0 (String c r) in
              if (minInt <=? v) && (v <=? maxInt) then Some v else None
            else None).
  { unfold Atoi.
    destruct c as [[] [] [] [] [] [] [] []]; try reflexivity; congruence. }
  rewrite Hbody, Hd. cbv zeta. rewrite accumulate_run_value.
  replace (0 * 10 ^ Z.of_nat (String.length (String c r)) + run_value (String c r))
    with (run_value (String c r)) by lia.
  assert (Hmin : (minInt <=? run_value (String c r)) = true).
  { apply Z.leb_le. unfold minInt. lia. }
  rewrite Hmin. reflexivity.
Qed.

Lemma extractLeadingNumber_fst (filename : string) :
  fst (extractLeadingNumber filename) =
  if run_value (leadingDigits filename) <=? maxInt
  then run_value (leadingDigits filename) else 0.
Proof.
  unfold extractLeadingNumber.
  pose proof (leadingDigits_allDigits filename) as Hd.
  destruct (leadingDigits filename) as [|c r] eqn:E.
  - reflexivity.
  - rewrite Atoi_digits by (congruence || exact Hd).
    destruct (run_value (String c r) <=? maxInt); reflexivity.
Qed.

Lemma extractLeadingNumber_snd (filename : string) :
  snd (extractLeadingNumber filename) = filename.
Proof.
  unfold extractLeadingNumber.
  destruct (leadingDigits filename); [reflexivity|].
  destruct (Atoi _); reflexivity.
Qed.

Lemma extractLeadingNumber_nonneg (filename : string) :
  0 <= fst (extractLeadingNumber filename) <= maxInt.
Proof.
  rewrite extractLeadingNumber_fst.
  pose proof (run_value_nonneg _ (leadingDigits_allDigits filename)).
  destruct (run_value (leadingDigits filename) <=? maxInt) eqn:E.
  - apply Z.leb_le in E. lia.
  - unfold maxInt. lia.
Qed.

(** C9, as the code has it.  The version of a name is the integer its
    maximal leading digit run denotes whenever that integer fits a Go
    [int] (at most 2^63-1), and 0 otherwise; in particular it is 0 for a
    name with no leading digit.  The run is maximal (the name is the run
    followed by a rest that does not start with a digit), and a leading
    zero never changes the version. *)
Theorem extractLeadingNumber_version (filename : string) :
  let run := leadingDigits filename in
  filename = run +:+ afterDigits filename /\
  allDigits run = true /\
  startsWithDigit (afterDigits filename) = false /\
  fst (extractLeadingNumber filename) =
    (if run_value run <=? maxInt then run_value run else 0) /\
  (run = EmptyString -> fst (extractLeadingNumber filename) = 0) /\
  fst (extractLeadingNumber (String "0" filename)) = fst (extractLeadingNumber filename).
Proof.
  cbv zeta. split; [apply leadingDigits_afterDigits|].
  split; [apply leadingDigits_allDigits|].
  split; [apply afterDigits_stops|].
  split; [apply extractLeadingNumber_fst|].
  split.
  - intros E. rewrite extractLeadingNumber_fst, E. reflexivity.
  - rewrite !extractLeadingNumber_fst.
    change (leadingDigits (String "0" filename))
      with (String "0"%char (leadingDigits filename)).
    cbn [run_value]. change (digitVal "0") with 0.
    rewrite Z.mul_0_l, Z.add_0_l. reflexivity.
Qed.

(** C9 as stated fails: a digit run beyond the [int] range makes
    [strconv.Atoi] fail and the version is 0, not the run's value. *)
Lemma extractLeadingNumber_overflow :
  leadingDigits "9223372036854775808_x" = "9223372036854775808" /\
  run_value (leadingDigits "9223372036854775808_x") = 2 ^ 63 /\
  fst (extractLeadingNumber "9223372036854775808_x") = 0 /\
  fst (extractLeadingNumber "9223372036854775808_x")
    <> run_value (leadingDigits "9223372036854775808_x").
Proof. vm_compute. repeat split; congruence. Qed.

Example extractLeadingNumber_001 :
  extractLeadingNumber "001_x" = (1, "001_x") /\
  extractLeadingNumber "1_x" = (1, "1_x") /\
  extractLeadingNumber "readme.txt" = (0, "readme.txt").
Proof. repeat split. Qed.

End VersionExtractor.

(** ** The orchestrator *)

Section OrchestratorFacts.
Context {S : Type}.
Variable driver : Driver S.
Variable ctx : Context.

Lemma endCalls_app (a b : list Call) : endCalls (a ++ b) = endCalls a ++ endCalls b.
Proof. unfold endCalls. apply omap_app. Qed.

Lemma migrateLoop_no_End (items : list Item) (t : nat) (s : S) :
  endCalls (snd (Orchestrator.migrateLoop driver ctx t items s)) = [].
Proof.
  revert t s. induction items as [|[info|e] rest IH]; intros t s; simpl; try reflexivity.
  destruct (Process driver (ctx t) info s) as [s' [e|]]; [reflexivity|].
  specialize (IH (Datatypes.S t) s').
  destruct (Orchestrator.migrateLoop driver ctx (Datatypes.S t) rest s') as [[s'' r] calls].
  exact IH.
Qed.

(** Once [Start] has succeeded, [End] is called exactly once, and whatever
    happens in between it is given [nil]. *)
Lemma Migrate_End_once (items : list Item) (s s1 : S) :
  Start driver (ctx 0%nat) s = (s1, None) ->
  endCalls (snd (Orchestrator.Migrate driver ctx items s)) = [None].
Proof.
  intros HS. unfold Orchestrator.Migrate. rewrite HS.
  pose proof (migrateLoop_no_End items 1 s1) as HL.
  destruct (Orchestrator.migrateLoop driver ctx 1 items s1) as [[s2 ret] calls].
  destruct (End driver _ None s2) as [s3 ?]. simpl in *.
  change (CallStart :: calls ++ [CallEnd None]) with ([CallStart] ++ calls ++ [CallEnd None]).
  rewrite !endCalls_app, HL. reflexivity.
Qed.

(** What [Migrate] returns is decided by [Start] and the loop alone: the
    result of [End] never reaches the caller. *)
Lemma Migrate_result (items : list Item) (s s1 : S) :
  Start driver (ctx 0%nat) s = (s1, None) ->
  snd (fst (Orchestrator.Migrate driver ctx items s)) =
  snd (fst (Orchestrator.migrateLoop driver ctx 1 items s1)).
Proof.
  intros HS. unfold Orchestrator.Migrate. rewrite HS.
  destruct (Orchestrator.migrateLoop driver ctx 1 items s1) as [[s2 ret] calls].
  destruct (End driver _ None s2) as [s3 ?]. reflexivity.
Qed.
End OrchestratorFacts.

(** C1, at a failing input.  [schema/1_tables.sql] cannot be read: the run
    starts, applies the root directory, and [Process] fails on [schema].
    [Migrate] returns that error and [End] is called once, but with [nil],
    not with the error: the driver commits, and the row of the root
    directory stays recorded after the failed run. *)
Theorem Migrate_End_not_given_error :
  let '(p, ret, calls) :=
    Orchestrator.Migrate (PostgresDriver sqlExec) liveCtx
      (iterMigrationInfo globMatch plainMigrate unreadableSchema) emptyPg in
  ret = Some "permission denied" /\
  endCalls calls = [None] /\
  endCalls calls <> [ret] /\
  dbRows p = [mkRow 1 "." "1_create_users.sql"].
Proof. vm_compute. repeat split; congruence. Qed.

(** The same with a migration whose SQL is rejected. *)
Example Migrate_End_nil_on_bad_sql :
  let '(p, ret, calls) :=
    Orchestrator.Migrate (PostgresDriver sqlExec) liveCtx
      (iterMigrationInfo globMatch plainMigrate brokenSchema) emptyPg in
  ret = Some "applying migration 1_tables.sql: syntax error" /\
  endCalls calls = [None].
Proof. vm_compute. repeat split. Qed.

(** C3, at a failing input.  Every [Process] call succeeds and the context
    is cancelled before the commit: [End] is called with [nil] and reports
    the failed commit, nothing is committed, and [Migrate] returns [nil]. *)
Theorem Migrate_drops_End_result :
  let ctx := cancelledFrom 3 in
  let items := iterMigrationInfo globMatch plainMigrate usersPosts in
  let '(p1, _) := pgStart (ctx 0%nat) emptyPg in
  let '(p2, r, calls) := Orchestrator.migrateLoop (PostgresDriver sqlExec) ctx 1 items p1 in
  let '(p, ret, _) := Orchestrator.Migrate (PostgresDriver sqlExec) ctx items emptyPg in
  r = None /\
  length (processCalls calls) = 2%nat /\
  snd (pgEnd (ctx 3%nat) None p2) = Some "context canceled" /\
  ret = None /\
  dbRows p = [].
Proof. vm_compute. repeat split. Qed.

(** C4, at a failing input.  The context is cancelled while the first
    directory is processed; the driver does not look at it.  [Migrate] hands
    the second directory to [Process] all the same and returns [nil]. *)
Theorem Migrate_ignores_cancellation :
  let ctx := cancelledFrom 2 in
  let items := iterMigrationInfo globMatch plainMigrate usersPosts in
  let '(s, ret, calls) := Orchestrator.Migrate logDriver ctx items [] in
  ctx 2%nat = Some "context canceled" /\
  map MDir (processCalls calls) = ["."; "schema"] /\
  s = ["start"; "."; "schema"; "end"] /\
  ret = None.
Proof. vm_compute. repeat split. Qed.

(** The earlier, callback-shaped [Migrate] does check: a directory that is
    reached with the context cancelled is not begun, and the context's
    error is returned. *)
Lemma Callback_migrateLoop_cancelled {S : Type}
    (apply : option error -> Callback.status -> option string -> S -> S * option error)
    (ctx : Context) (t : nat) (files : list string) (rest : list Callback.Item)
    (s : S) (e : error) :
  ctx t = Some e ->
  Callback.migrateLoop apply ctx t (Ok files :: rest) s = (s, Some e, []).
Proof. intros H. simpl. now rewrite H. Qed.

Example Callback_Migrate_stops :
  let apply := fun (_ : option error) (st : Callback.status) (f : option string)
                   (s : list string) =>
                 (s ++ [default EmptyString f], @None error) in
  Callback.Migrate apply (cancelledFrom 2)
    [Ok ["1_create_users.sql"]; Ok ["schema/1_tables.sql"]] [] =
  ([EmptyString; "1_create_users.sql"], Some "context canceled", ["1_create_users.sql"]).
Proof. reflexivity. Qed.

(** ** Walking the tree *)

Lemma Node_induction (P : Node -> Prop) :
  (forall name content, P (File name content)) ->
  (forall name e children, Forall P children -> P (Dir name e children)) ->
  forall n, P n.
Proof.
  intros HF HD. fix IH 1. intros [name content|name e children].
  - apply HF.
  - apply HD. induction children as [|c r IHr]; constructor; [apply IH | exact IHr].
Qed.

Lemma wfNode_Dir (name : string) (e : option error) (children : list Node) :
  wfNode (Dir name e children) <->
  Forall (fun c => validName (nodeName c) = true /\ wfNode c) children.
Proof.
  simpl. induction children as [|c r IH].
  - split; [constructor | trivial].
  - split.
    + intros (Hv & Hc & Hr). constructor; [now split | now apply IH].
    + intros H. inversion H as [|? ? [Hv Hc] Hr]; subst. repeat split; try assumption.
      now apply IH.
Qed.

Lemma validName_no_slash (name : string) :
  validName name = true -> contains_byte slash name = false.
Proof.
  unfold validName. intros H. apply andb_true_iff in H as [_ H].
  now apply negb_true_iff in H.
Qed.

Lemma allPaths_child (p name : string) (e : option error) (children : list Node) (c : Node) :
  In c children ->
  incl (allPaths (Join p (nodeName c)) c) (allPaths p (Dir name e children)).
Proof.
  intros Hin q Hq. cbn [allPaths]. right.
  induction children as [|c' rest IH]; [contradiction|].
  apply in_or_app. destruct Hin as [->|Hin]; [now left | right; now apply IH].
Qed.

Lemma located_allPaths (root x : Node) (p q : string) :
  located root p q x -> incl (allPaths q x) (allPaths p root).
Proof.
  induction 1 as [|q name e children c Hloc IH Hin]; [apply incl_refl|].
  eapply incl_tran; [|exact IH]. now apply allPaths_child.
Qed.

Lemma located_In_allPaths (root x : Node) (p q : string) :
  located root p q x -> In q (allPaths p root).
Proof.
  intros H. apply (located_allPaths root x p q H). destruct x; now left.
Qed.

Section WalkFacts.
Context {A : Type}.
Variable fn : string -> bool -> option error -> A -> A * option WalkErr.

Lemma walkDir_Dir (name dname : string) (children : list Node) (acc : A) :
  walkDir fn name (Dir dname None children) acc =
  match fn name true None acc with
  | (acc1, Some SkipDir) => (acc1, None)
  | (acc1, Some err) => (acc1, Some err)
  | (acc1, None) => walkList fn name children acc1
  end.
Proof.
  cbn [walkDir IsDir]. destruct (fn name true None acc) as [acc1 [[| |e]|]]; try reflexivity.
  revert acc1. induction children as [|d1 rest IH]; intros acc1; [reflexivity|].
  cbn [walkList].
  destruct (walkDir fn (Join name (nodeName d1)) d1 acc1) as [acc' [[| |e]|]]; try reflexivity.
  apply IH.
Qed.

End WalkFacts.

Section TracedFacts.
Context {A : Type}.
Variable fn : string -> bool -> option error -> A -> A * option WalkErr.

Lemma traced_eq (path : string) (isdir : bool) (err : option error)
    (acc : A) (tr : list string) :
  traced fn path isdir err (acc, tr) =
  ((fst (fn path isdir err acc), tr ++ [path]), snd (fn path isdir err acc)).
Proof. unfold traced. cbn [fst snd]. now destruct (fn path isdir err acc). Qed.

(** Recording the visits does not change what the walk computes. *)
Lemma walkDir_traced (n : Node) :
  forall (name : string) (acc : A) (tr : list string),
    fst (fst (walkDir (traced fn) name n (acc, tr))) = fst (walkDir fn name n acc) /\
    snd (walkDir (traced fn) name n (acc, tr)) = snd (walkDir fn name n acc).
Proof.
  induction n as [fname content|dname e children IH] using Node_induction;
    intros name acc tr.
  - cbn [walkDir IsDir]. rewrite !traced_eq.
    destruct (fn name false None acc) as [acc1 [[| |e]|]]; now split.
  - destruct e as [e|].
    + cbn [walkDir IsDir]. rewrite !traced_eq.
      destruct (fn name true None acc) as [acc1 [[| |e1]|]]; try now split.
      cbn [fst snd].
      destruct (fn name true (Some e) acc1) as [acc2 [[| |e2]|]]; now split.
    + rewrite !walkDir_Dir. rewrite !traced_eq.
      destruct (fn name true None acc) as [acc1 [[| |e1]|]]; try now split.
      cbn [fst snd].
      generalize (tr ++ [name]). clear tr acc. revert acc1.
      induction IH as [|d1 rest Hd1 _ IHrest]; intros acc1 tr; [now split|].
      cbn [walkList].
      destruct (Hd1 (Join name (nodeName d1)) acc1 tr) as [H1 H2].
      destruct (walkDir (traced fn) (Join name (nodeName d1)) d1 (acc1, tr))
        as [[acc' tr'] r'].
      destruct (walkDir fn (Join name (nodeName d1)) d1 acc1) as [acc'' r''].
      cbn [fst snd] in H1, H2. subst acc'' r''.
      destruct r' as [[| |e1]|]; try now split.
      apply IHrest.
Qed.
End TracedFacts.

(** ** The path filter *)

Section PathFilterFacts.
Variable Match : string -> string -> bool.
Variable m : Migrate.

Lemma shouldSkipDir_exact (skip d : string) :
  In skip (Skip m) -> TrimPrefix skip "/" = d -> shouldSkipDir m d = true.
Proof.
  unfold shouldSkipDir. generalize (Skip m) as l.
  induction l as [|s l IH]; intros Hin Hpat; [contradiction|].
  destruct (String.eqb (TrimPrefix s "/") d) eqn:E; [reflexivity|].
  destruct Hin as [->|Hin].
  - rewrite Hpat, String.eqb_refl in E. discriminate.
  - destruct (HasSuffix _ _ && _); [reflexivity | now apply IH].
Qed.

Lemma shouldSkipDir_glob (skip d : string) :
  In skip (Skip m) -> TrimPrefix skip "/" = d +:+ "/**" -> shouldSkipDir m d = true.
Proof.
  unfold shouldSkipDir. generalize (Skip m) as l.
  induction l as [|s l IH]; intros Hin Hpat; [contradiction|].
  destruct (String.eqb (TrimPrefix s "/") d) eqn:E; [reflexivity|].
  destruct Hin as [->|Hin].
  - rewrite Hpat, HasSuffix_app, TrimSuffix_app, String.eqb_refl. reflexivity.
  - destruct (HasSuffix _ _ && _); [reflexivity | now apply IH].
Qed.

Lemma Join_notStrict (d p c : string) :
  validName c = true -> p <> d -> notStrict d p -> notStrict d (Join p c).
Proof.
  intros Hc Hpd Hp r. apply validName_no_slash in Hc. unfold Join.
  destruct (String.eqb p ".").
  - now apply no_slash_not_under.
  - intros H. apply split_last_slash in H as [->|[r' ->]]; [congruence | | exact Hc].
    now apply (Hp r').
Qed.

Lemma dot_notStrict (d : string) : notStrict d ".".
Proof. intros r. now apply no_slash_not_under. Qed.

(** A walk that starts outside the subtree of a pruned directory [d]
    collects no path at or below [d] and visits no path below [d]. *)
Lemma walk_pruned (d : string) (n : Node) :
  shouldSkipDir m d = true ->
  forall (p : string) (dirs tr : list string),
    wfNode n -> notStrict d p ->
    exists new newtr,
      fst (walkDir (traced (dirsCallback Match m)) p n (dirs, tr))
        = (dirs ++ new, tr ++ newtr) /\
      Forall (fun q => q <> d /\ notStrict d q) new /\
      Forall (notStrict d) newtr.
Proof.
  intros Hd.
  induction n as [fname content|dname e children IH] using Node_induction;
    intros p dirs tr Hwf Hp.
  - exists [], [p]. cbn [walkDir IsDir]. rewrite traced_eq. cbn.
    rewrite app_nil_r. repeat split; auto.
  - assert (Hfirst : dirsCallback Match m p true None dirs =
              if shouldSkipDir m p then (dirs, Some SkipDir)
              else if negb (shouldSkip Match m p) then (dirs ++ [p], None)
                   else (dirs, None)) by reflexivity.
    destruct (shouldSkipDir m p) eqn:Hskip.
    { exists [], [p].
      assert (Hw : walkDir (traced (dirsCallback Match m)) p (Dir dname e children) (dirs, tr)
                   = ((dirs, tr ++ [p]), None)).
      { destruct e; [cbn [walkDir IsDir] | rewrite walkDir_Dir];
          rewrite traced_eq, Hfirst; reflexivity. }
      rewrite Hw. cbn. rewrite app_nil_r. repeat split; auto. }
    assert (Hpd : p <> d) by (intros ->; congruence).
    set (acc1 := if negb (shouldSkip Match m p) then dirs ++ [p] else dirs).
    assert (Hacc1 : exists new1, acc1 = dirs ++ new1 /\
                      Forall (fun q => q <> d /\ notStrict d q) new1).
    { subst acc1. destruct (negb (shouldSkip Match m p)).
      - exists [p]. split; [reflexivity|]. repeat constructor; assumption.
      - exists []. split; [now rewrite app_nil_r | constructor]. }
    assert (Hcb : dirsCallback Match m p true None dirs = (acc1, None)).
    { rewrite Hfirst. subst acc1. now destruct (negb (shouldSkip Match m p)). }
    destruct Hacc1 as (new1 & Hnew1 & Hall1).
    destruct e as [e|].
    + exists new1, [p; p]. cbn [walkDir IsDir].
      rewrite traced_eq, Hcb. cbn [fst snd]. rewrite traced_eq. cbn.
      rewrite Hnew1, <- app_assoc. repeat split; auto.
    + rewrite walkDir_Dir, traced_eq, Hcb. cbn [fst snd].
      apply wfNode_Dir in Hwf.
      assert (Hloop : forall acc tr0,
                exists new newtr,
                  fst (walkList (traced (dirsCallback Match m)) p children (acc, tr0))
                    = (acc ++ new, tr0 ++ newtr) /\
                  Forall (fun q => q <> d /\ notStrict d q) new /\
                  Forall (notStrict d) newtr).
      { clear Hcb Hnew1 Hfirst. induction children as [|c rest IHrest]; intros acc tr0.
        - exists [], []. cbn. rewrite !app_nil_r. repeat split; constructor.
        - inversion IH as [|? ? IHc IHr]; subst.
          inversion Hwf as [|? ? [Hvc Hwc] Hwr]; subst.
          specialize (IHrest IHr Hwr).
          destruct (IHc (Join p (nodeName c)) acc tr0 Hwc
                      (Join_notStrict d p _ Hvc Hpd Hp)) as (n1 & t1 & E1 & F1 & G1).
          cbn [walkList].
          destruct (walkDir (traced (dirsCallback Match m)) (Join p (nodeName c)) c (acc, tr0))
            as [[acc' tr'] r']. cbn [fst] in E1. injection E1 as -> ->.
          destruct r' as [[| |e1]|];
            try (exists n1, t1; cbn; repeat split; assumption).
          destruct (IHrest (acc ++ n1) (tr0 ++ t1)) as (n2 & t2 & E2 & F2 & G2).
          exists (n1 ++ n2), (t1 ++ t2). rewrite E2, !app_assoc.
          repeat split; try apply Forall_app; auto. }
      destruct (Hloop acc1 (tr ++ [p])) as (n2 & t2 & E2 & F2 & G2).
      exists (new1 ++ n2), ([p] ++ t2). rewrite E2, Hnew1, !app_assoc.
      repeat split; try apply Forall_app; auto.
Qed.
End PathFilterFacts.

(** ** [slices.SortFunc] *)

Section SortFacts.
Context {A : Type}.
Variable cmp : A -> A -> Z.

Lemma insertBack_Permutation (x : A) (l : list A) : insertBack cmp x l ≡ₚ x :: l.
Proof.
  induction l as [|y r IH]; simpl; [reflexivity|].
  destruct (cmp x y <? 0); [|reflexivity].
  rewrite IH. apply perm_swap.
Qed.

Lemma fold_insertBack_Permutation (l acc : list A) :
  fold_left (fun acc x => insertBack cmp x acc) l acc ≡ₚ l ++ acc.
Proof.
  revert acc. induction l as [|x l IH]; intros acc; simpl; [reflexivity|].
  rewrite IH, insertBack_Permutation. symmetry. apply Permutation_middle.
Qed.

(** Sorting loses nothing and adds nothing. *)
Lemma SortFunc_Permutation (l : list A) : SortFunc cmp l ≡ₚ l.
Proof.
  unfold SortFunc. rewrite <- Permutation_rev, fold_insertBack_Permutation.
  now rewrite app_nil_r.
Qed.

Lemma SortFunc_In (l : list A) (x : A) : In x (SortFunc cmp l) <-> In x l.
Proof.
  split; apply Permutation_in; [apply SortFunc_Permutation|].
  symmetry. apply SortFunc_Permutation.
Qed.

Lemma SortFunc_elem_of (l : list A) (x : A) : x ∈ SortFunc cmp l <-> x ∈ l.
Proof. now rewrite SortFunc_Permutation. Qed.

Lemma StronglySorted_rev (R : relation A) (l : list A) :
  StronglySorted (flip R) l -> StronglySorted R (rev l).
Proof.
  induction 1 as [|x l Hl IH Hx]; simpl; [constructor|].
  apply StronglySorted_app_2; [|exact IH|repeat constructor].
  intros x1 x2 H1 H2. apply list_elem_of_In in H1. apply in_rev in H1.
  apply list_elem_of_singleton in H2 as ->.
  rewrite Forall_forall in Hx. apply Hx. now apply list_elem_of_In.
Qed.

Section Ordered.
Hypothesis cmp_flip : forall a b, 0 <= cmp a b -> cmp b a <= 0.
Hypothesis cmp_trans : forall a b c, cmp a b <= 0 -> cmp b c <= 0 -> cmp a c <= 0.

Lemma insertBack_sorted (x : A) (l : list A) :
  StronglySorted (flip (cmpLe cmp)) l -> StronglySorted (flip (cmpLe cmp)) (insertBack cmp x l).
Proof.
  induction 1 as [|y r Hr IH Hy]; simpl; [repeat constructor|].
  destruct (cmp x y <? 0) eqn:E.
  - apply Z.ltb_lt in E. constructor; [exact IH|].
    rewrite insertBack_Permutation. constructor; [|exact Hy].
    unfold flip, cmpLe. lia.
  - apply Z.ltb_ge in E. constructor; [now constructor|].
    assert (Hyx : cmp y x <= 0) by now apply cmp_flip.
    constructor; [exact Hyx|].
    rewrite Forall_forall in Hy |- *. intros z Hz.
    unfold flip, cmpLe in *. eapply cmp_trans; [apply Hy, Hz | exact Hyx].
Qed.

Lemma fold_insertBack_sorted (l acc : list A) :
  StronglySorted (flip (cmpLe cmp)) acc ->
  StronglySorted (flip (cmpLe cmp)) (fold_left (fun acc x => insertBack cmp x acc) l acc).
Proof.
  revert acc. induction l as [|x l IH]; intros acc Hacc; simpl; [exact Hacc|].
  apply IH, insertBack_sorted, Hacc.
Qed.

(** The result is sorted: no element compares above a later one. *)
Lemma SortFunc_sorted (l : list A) : StronglySorted (cmpLe cmp) (SortFunc cmp l).
Proof. apply StronglySorted_rev, fold_insertBack_sorted. constructor. Qed.

(** Where [cmp] tells the elements of [l] apart, the sorted slice is
    determined by [l] and [cmp]: whatever algorithm [slices.SortFunc]
    runs, it returns [SortFunc cmp l]. *)
Lemma SortFunc_unique (l l' : list A) :
  (forall a b, In a l -> In b l -> cmp a b <= 0 -> cmp b a <= 0 -> a = b) ->
  l' ≡ₚ l -> StronglySorted (cmpLe cmp) l' -> l' = SortFunc cmp l.
Proof.
  intros Hanti Hperm Hsorted.
  apply (StronglySorted_unique_strong (cmpLe cmp)); [|exact Hsorted|apply SortFunc_sorted|].
  - intros a b Ha Hb. apply Hanti.
    + apply list_elem_of_In. now rewrite <- Hperm.
    + apply SortFunc_In, list_elem_of_In, Hb.
  - now rewrite SortFunc_Permutation.
Qed.
End Ordered.
End SortFacts.

(** ** [strings.Compare] *)

Lemma Compare_le (a b : string) : Compare a b <= 0 <-> String.le a b.
Proof.
  unfold Compare, String.le, String.leb.
  destruct (String.compare a b); simpl; split; intros H; try lia; try exact I; contradiction.
Qed.

Lemma Compare_flip (a b : string) : 0 <= Compare a b -> Compare b a <= 0.
Proof.
  unfold Compare. rewrite (String.compare_antisym b a).
  destruct (String.compare a b); simpl; lia.
Qed.

Lemma Compare_trans (a b c : string) :
  Compare a b <= 0 -> Compare b c <= 0 -> Compare a c <= 0.
Proof. rewrite !Compare_le. apply (@transitivity _ String.le _). Qed.

Lemma Compare_antisym (a b : string) : Compare a b <= 0 -> Compare b a <= 0 -> a = b.
Proof. rewrite !Compare_le. apply (anti_symm String.le). Qed.

Lemma Compare_refl (a : string) : Compare a a = 0.
Proof.
  unfold Compare. pose proof (String.compare_antisym a a) as H.
  destruct (String.compare a a); simpl in H; try discriminate; reflexivity.
Qed.

(** ** Discovery: pruned subtrees *)

Section PruneFacts.
Variable Match : string -> string -> bool.
Variable m : Migrate.

Lemma sortDirs_Permutation (dirs : list string) : sortDirs m dirs ≡ₚ dirs.
Proof. unfold sortDirs. destruct (Order m); apply SortFunc_Permutation. Qed.

Lemma sortDirs_In (dirs : list string) (x : string) : In x (sortDirs m dirs) <-> In x dirs.
Proof.
  split; apply Permutation_in; [apply sortDirs_Permutation|].
  symmetry. apply sortDirs_Permutation.
Qed.

(** [getMigrationDirs] returns the directories the traced walk collects. *)
Lemma getMigrationDirs_walkTrace (fileSystem : FS) :
  getMigrationDirs Match m fileSystem =
  match walkTrace Match m fileSystem with
  | (dirs, _, None) => Ok dirs
  | (_, _, Some e) => Err e
  end.
Proof.
  unfold getMigrationDirs, walkTrace, WalkDir. destruct fileSystem as [e|root].
  - rewrite traced_eq. reflexivity.
  - destruct (walkDir_traced (dirsCallback Match m) root "." [] []) as [H1 H2].
    destruct (walkDir (traced (dirsCallback Match m)) "." root ([], [])) as [[dirs tr] r].
    destruct (walkDir (dirsCallback Match m) "." root []) as [dirs' r'].
    cbn [fst snd] in H1, H2. subst dirs' r'.
    destruct r as [[| |e]|]; reflexivity.
Qed.

(** Every yielded set stands for a directory that [getMigrationDirs]
    returned. *)
Lemma iterMigrationInfo_Yield (fileSystem : FS) (info : Muzo) :
  In (Yield info) (iterMigrationInfo Match m fileSystem) ->
  exists dirs,
    getMigrationDirs Match m fileSystem = Ok dirs /\ In (MDir info) dirs /\
    getMigrationFiles Match m fileSystem (MDir info) = Ok (Files info).
Proof.
  unfold iterMigrationInfo.
  destruct (getMigrationDirs Match m fileSystem) as [dirs|e]; simpl.
  - intros H. apply in_map_iff in H as (dir & Hdir & Hin).
    exists dirs. apply (proj1 (sortDirs_In _ _)) in Hin.
    destruct (getMigrationFiles Match m fileSystem dir) as [files|e] eqn:E; [|discriminate].
    injection Hdir as <-. simpl. rewrite E. auto.
  - intros [H|[]]. discriminate.
Qed.

Lemma located_under (D x : Node) (d q : string) :
  d <> "." -> located D d q x -> q = d \/ exists r, q = d +:+ "/" +:+ r.
Proof.
  intros Hd. induction 1 as [|q name e children c Hloc IH Hin]; [now left|].
  right. assert (Hq : String.eqb q "." = false).
  { apply String.eqb_neq. destruct IH as [->|[r ->]]; [exact Hd|].
    intros H. symmetry in H. revert H. now apply no_slash_not_under. }
  unfold Join. rewrite Hq.
  destruct IH as [->|[r ->]]; [now exists (nodeName c)|].
  exists (r +:+ "/" +:+ nodeName c). now rewrite !append_assoc.
Qed.

Lemma walkTrace_root_pruned (root : Node) :
  shouldSkipDir m "." = true ->
  fst (walkTrace Match m (Mounted root)) = ([], ["."]).
Proof.
  intros H. unfold walkTrace, WalkDir.
  assert (Hw : walkDir (traced (dirsCallback Match m)) "." root ([], [])
               = (([], ["."]), None)).
  { destruct root as [name content|name [e|] children].
    - cbn [walkDir IsDir]. rewrite traced_eq. reflexivity.
    - cbn [walkDir IsDir]. rewrite traced_eq. unfold dirsCallback. cbn [negb].
      rewrite H. reflexivity.
    - rewrite walkDir_Dir, traced_eq. unfold dirsCallback. cbn [negb].
      rewrite H. reflexivity. }
  rewrite Hw. reflexivity.
Qed.

(** C5.  Let [skip] be a skip pattern that, once its optional leading
    ["/"] is stripped, is the path [d] of a directory or [d/**].  Then for
    every entry [x] (file or directory) at a path [q] in the subtree of
    [d], [d] itself included: [q] is not among the directories discovery
    collects, no yielded MigrationSet has [q] as its directory, and, unless
    [q] is [d] itself, the walker never visits [q]. *)
Theorem subtree_skip_prunes (root D x : Node) (d q skip : string) :
  wfNode root ->
  located root "." d D ->
  In skip (Skip m) ->
  TrimPrefix skip "/" = d \/ TrimPrefix skip "/" = d +:+ "/**" ->
  located D d q x ->
  ~ In q (fst (fst (walkTrace Match m (Mounted root)))) /\
  (q <> d -> ~ In q (snd (fst (walkTrace Match m (Mounted root))))) /\
  (forall dirs, getMigrationDirs Match m (Mounted root) = Ok dirs -> ~ In q dirs) /\
  (forall info, In (Yield info) (iterMigrationInfo Match m (Mounted root)) ->
                MDir info <> q).
Proof.
  intros Hwf _ Hin Hpat Hloc.
  assert (Hskip : shouldSkipDir m d = true).
  { destruct Hpat; [eapply shouldSkipDir_exact | eapply shouldSkipDir_glob]; eassumption. }
  assert (Hcore : ~ In q (fst (fst (walkTrace Match m (Mounted root)))) /\
                  (q <> d -> ~ In q (snd (fst (walkTrace Match m (Mounted root)))))).
  { destruct (String.eqb_spec d ".") as [->|Hd].
    - rewrite walkTrace_root_pruned by exact Hskip. cbn [fst snd]. split; [tauto|].
      intros Hq [H|[]]. congruence.
    - destruct (walk_pruned Match m d root Hskip "." [] [] Hwf (dot_notStrict d))
        as (new & newtr & E & Hnew & Htr).
      unfold walkTrace, WalkDir.
      destruct (walkDir (traced (dirsCallback Match m)) "." root ([], [])) as [[dirs tr] r].
      cbn [fst] in E. injection E as -> ->.
      assert (Hfst : forall (o : option WalkErr),
                fst (let '(acc', err) := ((new, newtr), o) in
                     match err with
                     | Some (Other e) => (acc', Some e)
                     | _ => (acc', @None error)
                     end) = (new, newtr)).
      { intros [[| |e]|]; reflexivity. }
      cbn [app] in *. rewrite Hfst. cbn [fst snd].
      rewrite Forall_forall in Hnew, Htr.
      destruct (located_under D x d q Hd Hloc) as [->|[r0 ->]].
      + split; [|tauto]. intros H. apply list_elem_of_In, Hnew in H. tauto.
      + split.
        * intros H. apply list_elem_of_In, Hnew in H. destruct H as [_ H]. now apply (H r0).
        * intros _ H. apply list_elem_of_In, Htr in H. now apply (H r0). }
  destruct Hcore as [Hdirs Hvisited].
  assert (Hget : forall dirs, getMigrationDirs Match m (Mounted root) = Ok dirs -> ~ In q dirs).
  { intros dirs. rewrite getMigrationDirs_walkTrace.
    destruct (walkTrace Match m (Mounted root)) as [[ds tr] [e|]]; [discriminate|].
    intros [= <-]. exact Hdirs. }
  repeat split; try assumption.
  intros info Hy <-. apply iterMigrationInfo_Yield in Hy as (dirs & Hd & Hi & _).
  exact (Hget dirs Hd Hi).
Qed.
End PruneFacts.

(** ** Discovery: a pattern [dir/*] *)

Section SkipLoops.
Variable Match : string -> string -> bool.

Lemma shouldSkip_existsb (m : Migrate) (path : string) :
  shouldSkip Match m path =
  existsb (fun skip => Match (TrimPrefix skip "/") path) (Skip m).
Proof.
  unfold shouldSkip. induction (Skip m) as [|s l IH]; [reflexivity|].
  simpl. destruct (Match (TrimPrefix s "/") path); [reflexivity | exact IH].
Qed.

Lemma shouldSkipDir_existsb (m : Migrate) (path : string) :
  shouldSkipDir m path = existsb (hardSkip path) (Skip m).
Proof.
  unfold shouldSkipDir. induction (Skip m) as [|s l IH]; [reflexivity|].
  simpl. unfold hardSkip at 1. cbv zeta.
  destruct (String.eqb (TrimPrefix s "/") path); [reflexivity|].
  destruct (HasSuffix _ _ && _); [reflexivity | exact IH].
Qed.

Lemma Skip_split (m : Migrate) (i : nat) (skip : string) :
  Skip m !! i = Some skip ->
  Skip m = take i (Skip m) ++ skip :: drop (Datatypes.S i) (Skip m).
Proof. intros H. symmetry. now apply take_drop_middle. Qed.

(** Without pattern [i], the soft skip loses exactly what that pattern
    matches. *)
Lemma shouldSkip_withoutSkip (m : Migrate) (i : nat) (skip path : string) :
  Skip m !! i = Some skip ->
  shouldSkip Match m path =
  Match (TrimPrefix skip "/") path || shouldSkip Match (withoutSkip m i) path.
Proof.
  intros H. rewrite !shouldSkip_existsb. unfold withoutSkip. cbn [Skip].
  rewrite (Skip_split m i skip H) at 1. rewrite !existsb_app. cbn [existsb].
  destruct (existsb _ (take i (Skip m))), (Match (TrimPrefix skip "/") path),
    (existsb _ (drop (Datatypes.S i) (Skip m))); reflexivity.
Qed.

(** A pattern [d/*] prunes nothing but a directory that is literally at
    the path [d/*]. *)
Lemma shouldSkipDir_withoutSkip (m : Migrate) (i : nat) (skip d path : string) :
  Skip m !! i = Some skip ->
  TrimPrefix skip "/" = d +:+ "/*" ->
  path <> d +:+ "/*" ->
  shouldSkipDir m path = shouldSkipDir (withoutSkip m i) path.
Proof.
  intros H Hpat Hne. rewrite !shouldSkipDir_existsb. unfold withoutSkip. cbn [Skip].
  rewrite (Skip_split m i skip H) at 1. rewrite !existsb_app. cbn [existsb].
  assert (Hs : hardSkip path skip = false).
  { unfold hardSkip. cbv zeta. rewrite Hpat, HasSuffix_star.
    assert (E : String.eqb (d +:+ "/*") path = false) by (apply String.eqb_neq; congruence).
    now rewrite E. }
  now rewrite Hs.
Qed.

Lemma childOf_true (d p : string) :
  childOf d p = true <-> exists seg, p = d +:+ "/" +:+ seg /\ contains_byte slash seg = false.
Proof.
  unfold childOf. split.
  - destruct (TrimPrefix_go p (d +:+ "/")) as [seg|] eqn:E; [|discriminate].
    intros H. exists seg. apply TrimPrefix_go_Some in E.
    rewrite append_assoc in E. split; [exact E | now apply negb_true_iff].
  - intros (seg & -> & Hseg).
    assert (E : TrimPrefix_go (d +:+ "/" +:+ seg) (d +:+ "/") = Some seg)
      by (apply TrimPrefix_go_Some; now rewrite append_assoc).
    rewrite E. now apply negb_true_iff.
Qed.

Lemma childOf_self (d : string) : childOf d d = false.
Proof.
  destruct (childOf d d) eqn:E; [|reflexivity].
  apply childOf_true in E as (seg & H & _).
  apply (f_equal String.length) in H. rewrite !length_append in H. simpl in H. lia.
Qed.

Lemma childOf_deeper (d c g : string) : childOf d (d +:+ "/" +:+ c +:+ "/" +:+ g) = false.
Proof.
  destruct (childOf d _) eqn:E; [|reflexivity].
  apply childOf_true in E as (seg & H & Hseg).
  apply String.app_inj in H. rewrite !append_cons, !append_empty_l in H.
  injection H as H. rewrite <- H in Hseg.
  rewrite contains_byte_app in Hseg. simpl in Hseg.
  rewrite orb_true_r in Hseg. discriminate.
Qed.

Lemma childOf_name (d name : string) :
  contains_byte slash name = false -> childOf d name = false.
Proof.
  intros Hn. destruct (childOf d name) eqn:E; [|reflexivity].
  apply childOf_true in E as (seg & H & _). exfalso. revert H.
  now apply no_slash_not_under.
Qed.

Lemma childOf_Join (d q name : string) :
  contains_byte slash name = false ->
  childOf d (q +:+ "/" +:+ name) = true -> q = d.
Proof.
  intros Hn E. apply childOf_true in E as (seg & H & Hseg).
  destruct (split_last_slash q name d seg H Hn) as [->|[r' ->]]; [reflexivity|].
  exfalso. rewrite append_assoc in H. apply String.app_inj in H.
  rewrite !append_cons, !append_empty_l in H.
  injection H as H. rewrite <- H, contains_byte_app in Hseg.
  simpl in Hseg. rewrite orb_true_r in Hseg. discriminate.
Qed.
End SkipLoops.

Section StarFacts.
Variable Match : string -> string -> bool.
Variable m : Migrate.
Variable i : nat.
Variables skip d : string.
Variable root : Node.

Hypothesis skip_at_i : Skip m !! i = Some skip.
Hypothesis skip_is_star : TrimPrefix skip "/" = d +:+ "/*".
Hypothesis Match_star : forall p, Match (d +:+ "/*") p = childOf d p.

Lemma shouldSkip_star (path : string) :
  shouldSkip Match m path = childOf d path || shouldSkip Match (withoutSkip m i) path.
Proof.
  rewrite (shouldSkip_withoutSkip Match m i skip path skip_at_i).
  now rewrite skip_is_star, Match_star.
Qed.

Section Walk.
Hypothesis no_star_entry : forall x, ~ located root "." (d +:+ "/*") x.

(** Step by step, the walk under [m] collects what the walk without the
    pattern collects, minus the direct children of [d]. *)
Lemma walk_star (n : Node) :
  forall (p : string) (dirs dirs' : list string),
    located root "." p n ->
    exists new' r,
      walkDir (dirsCallback Match (withoutSkip m i)) p n dirs' = (dirs' ++ new', r) /\
      walkDir (dirsCallback Match m) p n dirs
        = (dirs ++ filter (fun q => childOf d q = false) new', r).
Proof.
  induction n as [fname content|dname e children IH] using Node_induction;
    intros p dirs dirs' Hloc.
  - exists [], None. cbn. now rewrite !app_nil_r.
  - assert (Hp : p <> d +:+ "/*") by (intros ->; exact (no_star_entry _ Hloc)).
    pose proof (shouldSkipDir_withoutSkip m i skip d p skip_at_i skip_is_star Hp) as Hhard.
    pose proof (shouldSkip_star p) as Hsoft.
    assert (Hcb' : dirsCallback Match (withoutSkip m i) p true None dirs' =
              if shouldSkipDir (withoutSkip m i) p then (dirs', Some SkipDir)
              else if negb (shouldSkip Match (withoutSkip m i) p)
                   then (dirs' ++ [p], None) else (dirs', None)) by reflexivity.
    assert (Hcb : dirsCallback Match m p true None dirs =
              if shouldSkipDir m p then (dirs, Some SkipDir)
              else if negb (shouldSkip Match m p)
                   then (dirs ++ [p], None) else (dirs, None)) by reflexivity.
    rewrite Hhard, Hsoft in Hcb.
    destruct (shouldSkipDir (withoutSkip m i) p).
    { exists [], None. rewrite !app_nil_r.
      destruct e; [cbn [walkDir IsDir] | rewrite !walkDir_Dir]; now rewrite Hcb, Hcb'. }
    set (new1 := if negb (shouldSkip Match (withoutSkip m i) p) then [p] else []).
    assert (Hcb1' : dirsCallback Match (withoutSkip m i) p true None dirs'
                    = (dirs' ++ new1, None)).
    { rewrite Hcb'. subst new1.
      destruct (shouldSkip Match (withoutSkip m i) p); cbn; now rewrite ?app_nil_r. }
    assert (Hcb1 : dirsCallback Match m p true None dirs
                   = (dirs ++ filter (fun q => childOf d q = false) new1, None)).
    { rewrite Hcb. subst new1.
      destruct (shouldSkip Match (withoutSkip m i) p);
        [rewrite orb_true_r; cbn; now rewrite app_nil_r|].
      rewrite orb_false_r. cbn [negb].
      destruct (childOf d p) eqn:E; cbn [negb].
      - rewrite filter_cons_False by congruence. cbn. now rewrite app_nil_r.
      - rewrite filter_cons_True by exact E. reflexivity. }
    destruct e as [e|].
    + exists new1, (Some (Other e)). cbn [walkDir IsDir]. now rewrite Hcb1, Hcb1'.
    + rewrite !walkDir_Dir, Hcb1, Hcb1'.
      assert (Hch : forall c, In c children -> located root "." (Join p (nodeName c)) c).
      { intros c Hc. eapply located_child; eassumption. }
      assert (Hloop : forall acc acc',
                exists new' r,
                  walkList (dirsCallback Match (withoutSkip m i)) p children acc'
                    = (acc' ++ new', r) /\
                  walkList (dirsCallback Match m) p children acc
                    = (acc ++ filter (fun q => childOf d q = false) new', r)).
      { clear Hcb Hcb' Hcb1 Hcb1' Hloc.
        induction children as [|c rest IHrest]; intros acc acc'.
        - exists [], None. cbn. now rewrite !app_nil_r.
        - inversion IH as [|? ? IHc IHr]; subst.
          destruct (IHc (Join p (nodeName c)) acc acc' (Hch c (or_introl eq_refl)))
            as (n1 & r1 & E1' & E1).
          cbn [walkList]. rewrite E1, E1'.
          destruct r1 as [[| |e1]|]; try (exists n1; eexists; split; reflexivity).
          destruct (IHrest IHr (fun c Hc => Hch c (or_intror Hc))
                      (acc ++ filter (fun q => childOf d q = false) n1) (acc' ++ n1))
            as (n2 & r2 & E2' & E2).
          exists (n1 ++ n2), r2. rewrite E2, E2', filter_app, !app_assoc. now split. }
      destruct (Hloop (dirs ++ filter (fun q => childOf d q = false) new1) (dirs' ++ new1))
        as (n2 & r2 & E2' & E2).
      exists (new1 ++ n2), r2. rewrite E2, E2', filter_app, !app_assoc. now split.
Qed.

Lemma getMigrationDirs_star :
  getMigrationDirs Match m (Mounted root) =
  match getMigrationDirs Match (withoutSkip m i) (Mounted root) with
  | Ok dirs' => Ok (filter (fun q => childOf d q = false) dirs')
  | Err e => Err e
  end.
Proof.
  unfold getMigrationDirs, WalkDir.
  destruct (walk_star root "." [] [] (located_here root ".")) as (new' & r & E' & E).
  rewrite E, E'. cbn [app]. destruct r as [[| |e]|]; reflexivity.
Qed.
End Walk.
End StarFacts.

(** ** Listing a directory *)

Lemma findEntry_In (name : string) (entries : list Node) (c : Node) :
  findEntry name entries = Some c -> In c entries.
Proof.
  induction entries as [|n rest IH]; simpl; [discriminate|].
  destruct (String.eqb (nodeName n) name); [intros [= ->]; now left | right; auto].
Qed.

Lemma resolve_wf (segs : list string) :
  forall n x, wfNode n -> resolve segs n = Some x -> wfNode x.
Proof.
  induction segs as [|seg rest IH]; intros n x Hwf H; simpl in H.
  - now injection H as <-.
  - destruct n as [|name e children]; [discriminate|].
    destruct (findEntry seg children) as [c|] eqn:E; [|discriminate].
    apply findEntry_In in E. apply wfNode_Dir in Hwf.
    rewrite Forall_forall in Hwf. apply list_elem_of_In, Hwf in E.
    apply (IH c x); tauto.
Qed.

(** The entries [ReadDir] returns carry base names. *)
Lemma ReadDir_valid (root : Node) (dir : string) (entries : list Node) :
  wfNode root -> ReadDir (Mounted root) dir = Ok entries ->
  Forall (fun c => validName (nodeName c) = true) entries.
Proof.
  intros Hwf. unfold ReadDir, open.
  destruct (resolve _ root) as [n|] eqn:E; [|discriminate].
  apply resolve_wf in E; [|exact Hwf].
  destruct n as [|name [e|] children]; try discriminate.
  intros [= <-]. apply wfNode_Dir in E. eapply Forall_impl; [exact E|].
  intros c [Hc _]. exact Hc.
Qed.

Section StarFiles.
Variable Match : string -> string -> bool.
Variable m : Migrate.
Variable i : nat.
Variables skip d : string.

Hypothesis skip_at_i : Skip m !! i = Some skip.
Hypothesis skip_is_star : TrimPrefix skip "/" = d +:+ "/*".
Hypothesis Match_star : forall p, Match (d +:+ "/*") p = childOf d p.

(** No file directly under [d] is kept. *)
Lemma collectFiles_star_dir (entries : list Node) (files : list FileInfo) :
  d <> "." ->
  Forall (fun c => validName (nodeName c) = true) entries ->
  collectFiles Match m d entries files = files.
Proof.
  intros Hd Hv. assert (Hdot : String.eqb d "." = false) by now apply String.eqb_neq.
  revert files. induction Hv as [|c rest Hc _ IH]; intros files; [reflexivity|].
  cbn [collectFiles]. destruct (IsDir c); [apply IH|].
  rewrite Hdot. cbn [negb]. unfold Join. rewrite Hdot.
  rewrite (shouldSkip_star Match m i skip d skip_at_i skip_is_star Match_star).
  assert (E : childOf d (d +:+ "/" +:+ nodeName c) = true).
  { apply childOf_true. exists (nodeName c). split; [reflexivity|].
    now apply validName_no_slash. }
  rewrite E. apply IH.
Qed.

(** In every other directory the pattern changes nothing. *)
Lemma collectFiles_star_other (q : string) (entries : list Node) (files : list FileInfo) :
  q <> d ->
  Forall (fun c => validName (nodeName c) = true) entries ->
  collectFiles Match m q entries files =
  collectFiles Match (withoutSkip m i) q entries files.
Proof.
  intros Hq Hv. revert files. induction Hv as [|c rest Hc _ IH]; intros files; [reflexivity|].
  cbn [collectFiles]. destruct (IsDir c); [apply IH|].
  apply validName_no_slash in Hc.
  set (fullPath := if negb (String.eqb q ".") then Join q (nodeName c) else nodeName c).
  assert (E : childOf d fullPath = false).
  { subst fullPath. unfold Join. destruct (String.eqb q "."); cbn [negb].
    - now apply childOf_name.
    - destruct (childOf d (q +:+ "/" +:+ nodeName c)) eqn:E; [|reflexivity].
      apply childOf_Join in E; [congruence | exact Hc]. }
  rewrite (shouldSkip_star Match m i skip d skip_at_i skip_is_star Match_star), E.
  cbn [orb Extension withoutSkip].
  destruct (shouldSkip Match (withoutSkip m i) fullPath); [apply IH|].
  destruct (negb _ && negb _); [apply IH|].
  destruct (extractLeadingNumber (nodeName c)) as [n ?].
  destruct (0 <? n); apply IH.
Qed.
End StarFiles.

(** C6, as the code has it.  Let pattern number [i] of the skip list be
    [d/*] (after the optional leading ["/"] is stripped) for a directory
    [d] other than the root ["."], let the matcher take [d/*] for what it
    says (exactly the paths [d/seg] with one more segment), and let no
    entry of the tree be literally named ["*"] under [d] (no entry has the
    path [d/*]).  Compared with the same
    configuration without that pattern: discovery collects the same
    directories, in the same order, except the direct children of [d]; the
    file list of [d] is empty; the file list of every other directory is
    unchanged.  [d] itself is not a direct child of [d], nor is any path two
    levels below it, so they stay. *)
Theorem star_skip_children (Match : string -> string -> bool) (m : Migrate)
    (i : nat) (skip d : string) (root : Node) :
  wfNode root ->
  d <> "." ->
  Skip m !! i = Some skip ->
  TrimPrefix skip "/" = d +:+ "/*" ->
  (forall p, Match (d +:+ "/*") p = childOf d p) ->
  ~ In (d +:+ "/*") (allPaths "." root) ->
  getMigrationDirs Match m (Mounted root) =
    match getMigrationDirs Match (withoutSkip m i) (Mounted root) with
    | Ok dirs' => Ok (filter (fun q => childOf d q = false) dirs')
    | Err e => Err e
    end /\
  (forall files, getMigrationFiles Match m (Mounted root) d = Ok files -> files = []) /\
  (forall q, q <> d ->
     getMigrationFiles Match m (Mounted root) q =
     getMigrationFiles Match (withoutSkip m i) (Mounted root) q) /\
  (forall info, In (Yield info) (iterMigrationInfo Match m (Mounted root)) ->
     childOf d (MDir info) = false /\ (MDir info = d -> Files info = [])) /\
  childOf d d = false /\
  (forall c g, childOf d (d +:+ "/" +:+ c +:+ "/" +:+ g) = false).
Proof.
  intros Hwf Hd Hi Hpat HM Hstar.
  assert (Hnone : forall x, ~ located root "." (d +:+ "/*") x).
  { intros x Hx. apply Hstar. exact (located_In_allPaths root x _ _ Hx). }
  pose proof (getMigrationDirs_star Match m i skip d root Hi Hpat HM Hnone) as Hdirs.
  assert (Hfiles : forall files,
            getMigrationFiles Match m (Mounted root) d = Ok files -> files = []).
  { intros files. unfold getMigrationFiles.
    destruct (ReadDir (Mounted root) d) as [entries|e] eqn:E; [|discriminate].
    rewrite (collectFiles_star_dir Match m i skip d Hi Hpat HM entries [] Hd
               (ReadDir_valid root d entries Hwf E)).
    now intros [= <-]. }
  split; [exact Hdirs|]. split; [exact Hfiles|]. split; [|split; [|split]].
  - intros q Hq. unfold getMigrationFiles.
    destruct (ReadDir (Mounted root) q) as [entries|e] eqn:E; [|reflexivity].
    now rewrite (collectFiles_star_other Match m i skip d Hi Hpat HM q entries [] Hq
                   (ReadDir_valid root q entries Hwf E)).
  - intros info Hy. apply iterMigrationInfo_Yield in Hy as (dirs & Hget & Hin & Hf).
    split; [|intros E; rewrite E in Hf; now apply Hfiles].
    rewrite Hdirs in Hget.
    destruct (getMigrationDirs Match (withoutSkip m i) (Mounted root)) as [dirs'|e];
      [|discriminate].
    injection Hget as <-. apply list_elem_of_In, list_elem_of_filter in Hin. tauto.
  - apply childOf_self.
  - apply childOf_deeper.
Qed.

(** ** The glob matcher on a pattern [dir/*] *)

Section GlobFacts.

Lemma segMatch_plain (pat s : string) : plain pat -> segMatch pat s = String.eqb pat s.
Proof.
  unfold plain. revert s. induction pat as [|c pat IH]; intros s [H1 H2].
  - now destruct s.
  - simpl in H1, H2. apply orb_false_iff in H1 as [Hc1 H1].
    apply orb_false_iff in H2 as [Hc2 H2].
    cbn [segMatch]. rewrite Hc1. destruct s as [|c' s]; [reflexivity|].
    rewrite Hc2. cbn [orb String.eqb]. now rewrite IH.
Qed.

Lemma segMatch_star (s : string) : segMatch "*" s = true.
Proof.
  cbn [segMatch]. change (Ascii.eqb "*" "*") with true. cbv iota.
  induction s as [|c s IH]; [reflexivity|]. exact IH.
Qed.

Lemma segments_nonempty (s : string) : segments s <> [].
Proof.
  destruct s as [|c s]; simpl; [discriminate|].
  destruct (Ascii.eqb c slash); [discriminate|]. now destruct (segments s).
Qed.

Lemma segments_app (a b : string) :
  segments (a +:+ "/" +:+ b) = segments a ++ segments b.
Proof.
  induction a as [|c a IH].
  - reflexivity.
  - rewrite append_cons. cbn [segments]. rewrite IH.
    destruct (Ascii.eqb c slash); [reflexivity|].
    pose proof (segments_nonempty a). now destruct (segments a).
Qed.

Lemma segments_plain (s : string) : contains_byte slash s = false -> segments s = [s].
Proof.
  induction s as [|c s IH]; [reflexivity|]. simpl. intros H.
  apply orb_false_iff in H as [Hc Hs]. rewrite Hc, (IH Hs). reflexivity.
Qed.

(** A byte that does not occur in a path occurs in none of its segments. *)
Lemma segments_without (x : ascii) (s : string) :
  contains_byte x s = false -> Forall (fun seg => contains_byte x seg = false) (segments s).
Proof.
  induction s as [|c s IH]; simpl; intros H; [now repeat constructor|].
  apply orb_false_iff in H as [Hc Hs]. specialize (IH Hs).
  destruct (Ascii.eqb c slash); [now constructor|].
  destruct (segments s) as [|seg rest].
  { constructor; [simpl; now rewrite Hc | constructor]. }
  inversion IH; subst. constructor; [|assumption]. simpl. now rewrite Hc.
Qed.

Lemma segments_no_slash (s : string) :
  Forall (fun seg => contains_byte slash seg = false) (segments s).
Proof.
  induction s as [|c s IH]; simpl; [now repeat constructor|].
  destruct (Ascii.eqb c slash) eqn:E; [now constructor|].
  destruct (segments s) as [|seg rest].
  { constructor; [simpl; now rewrite E | constructor]. }
  inversion IH; subst. constructor; [|assumption]. simpl. now rewrite E.
Qed.

Lemma joinSegs_segments (s : string) : joinSegs (segments s) = s.
Proof.
  induction s as [|c s IH]; [reflexivity|]. simpl.
  pose proof (segments_nonempty s) as Hne.
  destruct (Ascii.eqb_spec c slash) as [->|Hc].
  - destruct (segments s) as [|seg rest]; [congruence|].
    change (joinSegs (EmptyString :: seg :: rest))
      with (EmptyString +:+ "/" +:+ joinSegs (seg :: rest)).
    now rewrite IH.
  - destruct (segments s) as [|seg rest]; [congruence|].
    destruct rest as [|seg' rest].
    + simpl in *. now rewrite IH.
    + change (joinSegs (String c seg :: seg' :: rest))
        with (String c seg +:+ "/" +:+ joinSegs (seg' :: rest)).
      change (joinSegs (seg :: seg' :: rest))
        with (seg +:+ "/" +:+ joinSegs (seg' :: rest)) in IH.
      now rewrite append_cons, IH.
Qed.

Lemma joinSegs_snoc (l : list string) (s : string) :
  l <> [] -> joinSegs (l ++ [s]) = joinSegs l +:+ "/" +:+ s.
Proof.
  induction l as [|a l IH]; [congruence|]. intros _.
  destruct l as [|b l]; [reflexivity|].
  change (joinSegs ((a :: b :: l) ++ [s])) with (a +:+ "/" +:+ joinSegs ((b :: l) ++ [s])).
  rewrite IH by discriminate.
  change (joinSegs (a :: b :: l)) with (a +:+ "/" +:+ joinSegs (b :: l)).
  now rewrite !append_assoc.
Qed.

Lemma plain_not_doublestar (s : string) : plain s -> String.eqb s "**" = false.
Proof. intros [H _]. apply String.eqb_neq. intros ->. discriminate. Qed.

Lemma pathMatch_plain_star (lits segs : list string) :
  Forall plain lits ->
  pathMatch (lits ++ ["*"]) segs = true <-> exists s, segs = lits ++ [s].
Proof.
  intros Hl. revert segs. induction Hl as [|l ls Hlp _ IH]; intros segs.
  - cbn [app pathMatch]. change (String.eqb "*" "**") with false. cbv iota.
    destruct segs as [|s [|s' r]].
    + split; [discriminate | intros [s H]; discriminate].
    + rewrite segMatch_star. split; [eauto | reflexivity].
    + rewrite andb_false_r. split; [discriminate | intros [s0 H]; discriminate].
  - cbn [app pathMatch]. rewrite (plain_not_doublestar l Hlp).
    destruct segs as [|s r].
    + split; [discriminate | intros [s H]; discriminate].
    + rewrite (segMatch_plain l s Hlp), andb_true_iff, String.eqb_eq, IH. split.
      * intros [-> [s0 ->]]. now exists s0.
      * intros [s0 [= -> ->]]. eauto.
Qed.

(** On a pattern [d/*] with [d] free of metacharacters the matcher
    accepts exactly the paths one segment below [d]. *)
Lemma globMatch_star (d : string) : plain d -> forall p, globMatch (d +:+ "/*") p = childOf d p.
Proof.
  intros [Hs Hq] p. apply eq_true_iff_eq.
  unfold globMatch. change (d +:+ "/*") with (d +:+ "/" +:+ "*").
  rewrite segments_app. change (segments "*") with ["*"].
  rewrite pathMatch_plain_star, childOf_true.
  - split.
    + intros [s Hp]. exists s. rewrite <- (joinSegs_segments p), Hp.
      rewrite joinSegs_snoc by apply segments_nonempty.
      rewrite joinSegs_segments. split; [reflexivity|].
      pose proof (segments_no_slash p) as H. rewrite Hp in H.
      apply Forall_app in H as [_ H]. now inversion H.
    + intros (seg & -> & Hseg). exists seg.
      now rewrite segments_app, (segments_plain seg Hseg).
  - pose proof (segments_without "*" d Hs) as H1.
    pose proof (segments_without "?" d Hq) as H2.
    rewrite Forall_forall in H1, H2. apply Forall_forall. intros x Hx. split; auto.
Qed.
End GlobFacts.

(** ** Ordering the directories *)

Section SortedLists.
Context {A : Type}.
Variable R : relation A.

Lemma StronglySorted_lookup (l : list A) :
  (forall j1 j2 a b, (j1 < j2)%nat -> l !! j1 = Some a -> l !! j2 = Some b -> R a b) ->
  StronglySorted R l.
Proof.
  induction l as [|x l IH]; intros H; constructor.
  - apply IH. intros j1 j2 a b Hj H1 H2.
    apply (H (Datatypes.S j1) (Datatypes.S j2)); [lia | exact H1 | exact H2].
  - apply Forall_forall. intros y Hy. apply list_elem_of_lookup in Hy as [j Hj].
    apply (H 0%nat (Datatypes.S j)); [lia | reflexivity | exact Hj].
Qed.

Lemma StronglySorted_filter (P : A -> Prop) `{forall x, Decision (P x)} (l : list A) :
  StronglySorted R l -> StronglySorted R (filter P l).
Proof.
  induction 1 as [|x l Hl IH Hx]; [constructor|].
  rewrite filter_cons. destruct (decide (P x)); [|exact IH].
  constructor; [exact IH|]. rewrite Forall_forall in Hx |- *.
  intros y Hy. apply list_elem_of_filter in Hy as [_ Hy]. now apply Hx.
Qed.

Lemma StronglySorted_impl_elem (R' : relation A) (l : list A) :
  (forall a b, a ∈ l -> b ∈ l -> R a b -> R' a b) ->
  StronglySorted R l -> StronglySorted R' l.
Proof.
  intros HR. induction 1 as [|x l Hl IH Hx]; [constructor|].
  constructor.
  - apply IH. intros a b Ha Hb. apply HR; now right.
  - rewrite Forall_forall in Hx |- *. intros y Hy.
    apply HR; [now left | now right | now apply Hx].
Qed.
End SortedLists.

Section DedupLast.
Context `{EqDecision A}.

Lemma dedupLast_elem_of (l : list A) (x : A) : x ∈ dedupLast l <-> x ∈ l.
Proof.
  induction l as [|y l IH]; [reflexivity|]. cbn [dedupLast].
  destruct (decide (y ∈ l)) as [Hin|Hn].
  - rewrite IH, elem_of_cons. split; [tauto|]. intros [->|H]; tauto.
  - now rewrite !elem_of_cons, IH.
Qed.

Lemma dedupLast_NoDup (l : list A) : NoDup (dedupLast l).
Proof.
  induction l as [|y l IH]; [constructor|]. cbn [dedupLast].
  destruct (decide (y ∈ l)) as [Hin|Hn]; [exact IH|].
  constructor; [now rewrite dedupLast_elem_of | exact IH].
Qed.

Lemma dedupLast_NoDup_id (l : list A) : NoDup l -> dedupLast l = l.
Proof.
  induction 1 as [|y l Hn Hl IH]; [reflexivity|]. cbn [dedupLast].
  destruct (decide (y ∈ l)); [contradiction | now rewrite IH].
Qed.
End DedupLast.

Section OrderFacts.
Variable m : Migrate.

Lemma buildOrderMap_notin (order : list string) (i : Z) (om : gmap string Z) (a : string) :
  a ∉ map (fun o => TrimPrefix o "/") order ->
  buildOrderMap i order om !! a = om !! a.
Proof.
  revert i om. induction order as [|o rest IH]; intros i om Hn; [reflexivity|].
  cbn [buildOrderMap]. cbn [map] in Hn. apply not_elem_of_cons in Hn as [Hne Hn].
  rewrite IH by exact Hn. now rewrite lookup_insert_ne.
Qed.

(** Every name of [order] is given a position from [i] on, and the names
    that remain once earlier repetitions are dropped are in increasing
    position. *)
Lemma buildOrderMap_sorted (order : list string) (i : Z) (om : gmap string Z) :
  let om' := buildOrderMap i order om in
  (forall a, a ∈ map (fun o => TrimPrefix o "/") order ->
             exists k, om' !! a = Some k /\ i <= k) /\
  StronglySorted (cmpLe (dirCmp om')) (dedupLast (map (fun o => TrimPrefix o "/") order)).
Proof.
  cbv zeta. revert i om. induction order as [|o rest IH]; intros i om.
  - split; [intros a Ha; inversion Ha | constructor].
  - cbn [buildOrderMap map dedupLast].
    destruct (IH (i + 1) (<[TrimPrefix o "/" := i]> om)) as [Hk Hs].
    set (om' := buildOrderMap (i + 1) rest (<[TrimPrefix o "/" := i]> om)) in *.
    assert (Hhead : forall a, a ∈ TrimPrefix o "/" :: map (fun o => TrimPrefix o "/") rest ->
                              exists k, om' !! a = Some k /\ i <= k).
    { intros a Ha.
      destruct (decide (a ∈ map (fun o => TrimPrefix o "/") rest)) as [Hin|Hn].
      - destruct (Hk a Hin) as (k & Hka & Hle). exists k. split; [exact Hka | lia].
      - apply elem_of_cons in Ha as [->|Ha]; [|contradiction].
        exists i. subst om'. rewrite buildOrderMap_notin by exact Hn.
        rewrite lookup_insert_eq. split; [reflexivity | lia]. }
    split; [exact Hhead|].
    destruct (decide (TrimPrefix o "/" ∈ map (fun o => TrimPrefix o "/") rest)) as [Hin|Hn];
      [exact Hs|].
    constructor; [exact Hs|]. apply Forall_forall. intros b Hb.
    apply (proj1 (dedupLast_elem_of _ _)) in Hb. destruct (Hk b Hb) as (k & Hkb & Hle).
    unfold cmpLe, dirCmp. rewrite Hkb. subst om'.
    rewrite buildOrderMap_notin by exact Hn. rewrite lookup_insert_eq. lia.
Qed.

(** Distinct names get distinct positions. *)
Lemma buildOrderMap_inj (order : list string) (i : Z) (om : gmap string Z) :
  (forall a k, om !! a = Some k -> k < i) ->
  (forall a b k, om !! a = Some k -> om !! b = Some k -> a = b) ->
  forall a b k,
    buildOrderMap i order om !! a = Some k ->
    buildOrderMap i order om !! b = Some k -> a = b.
Proof.
  revert i om. induction order as [|o rest IH]; intros i om Hlt Hinj; [exact Hinj|].
  cbn [buildOrderMap]. apply IH.
  - intros a k. rewrite lookup_insert. destruct (decide (TrimPrefix o "/" = a)).
    + intros [= <-]. lia.
    + intros H. apply Hlt in H. lia.
  - intros a b k. rewrite !lookup_insert.
    destruct (decide (TrimPrefix o "/" = a)), (decide (TrimPrefix o "/" = b)).
    + congruence.
    + intros [= <-] H. apply Hlt in H. lia.
    + intros H [= <-]. apply Hlt in H. lia.
    + apply Hinj.
Qed.

Lemma dirCmp_flip (om : gmap string Z) (a b : string) :
  0 <= dirCmp om a b -> dirCmp om b a <= 0.
Proof.
  unfold dirCmp. destruct (om !! a), (om !! b); try lia. apply Compare_flip.
Qed.

Lemma dirCmp_trans (om : gmap string Z) (a b c : string) :
  dirCmp om a b <= 0 -> dirCmp om b c <= 0 -> dirCmp om a c <= 0.
Proof.
  unfold dirCmp. destruct (om !! a), (om !! b), (om !! c); try lia. apply Compare_trans.
Qed.

Lemma orderMap_other (a : string) :
  a ∉ orderKeys m -> buildOrderMap 0 (Order m) ∅ !! a = None.
Proof. intros H. now rewrite buildOrderMap_notin. Qed.

Lemma dirCmp_antisym (a b : string) :
  dirCmp (buildOrderMap 0 (Order m) ∅) a b <= 0 ->
  dirCmp (buildOrderMap 0 (Order m) ∅) b a <= 0 -> a = b.
Proof.
  unfold dirCmp.
  destruct (buildOrderMap 0 (Order m) ∅ !! a) as [ka|] eqn:Ea,
           (buildOrderMap 0 (Order m) ∅ !! b) as [kb|] eqn:Eb; try lia.
  - intros H1 H2. assert (ka = kb) as -> by lia.
    eapply (buildOrderMap_inj (Order m) 0 ∅); [| |exact Ea|exact Eb].
    + intros x k. now rewrite lookup_empty.
    + intros x y k. now rewrite lookup_empty.
  - apply Compare_antisym.
Qed.

Lemma sortDirs_priority_eq (dirs : list string) :
  Order m <> [] -> NoDup dirs ->
  sortDirs m dirs =
  filter (fun o => o ∈ dirs) (dedupLast (orderKeys m)) ++
  SortFunc Compare (filter (fun x => x ∉ orderKeys m) dirs).
Proof.
  intros Hne Hnd.
  assert (Hs : sortDirs m dirs = SortFunc (dirCmp (buildOrderMap 0 (Order m) ∅)) dirs).
  { unfold sortDirs. destruct (Order m); [congruence | reflexivity]. }
  destruct (buildOrderMap_sorted (Order m) 0 ∅) as [Hkeys Hsorted].
  rewrite Hs. symmetry. apply SortFunc_unique.
  - apply dirCmp_flip.
  - apply dirCmp_trans.
  - intros a b _ _. apply dirCmp_antisym.
  - rewrite SortFunc_Permutation.
    transitivity (filter (fun x => x ∈ orderKeys m) dirs ++
                  filter (fun x => x ∉ orderKeys m) dirs);
      [|apply (filter_app_complement (fun x => x ∈ orderKeys m) dirs)].
    apply Permutation_app_tail, NoDup_Permutation.
    + apply NoDup_filter, dedupLast_NoDup.
    + now apply NoDup_filter.
    + intros x. rewrite !list_elem_of_filter, dedupLast_elem_of. tauto.
  - apply StronglySorted_app_2.
    + intros a b Ha Hb. apply list_elem_of_filter in Ha as [_ Ha].
      apply (proj1 (SortFunc_elem_of Compare _ _)) in Hb.
      apply list_elem_of_filter in Hb as [Hb _].
      apply (proj1 (dedupLast_elem_of _ _)) in Ha. destruct (Hkeys a Ha) as (k & Hk & _).
      unfold cmpLe, dirCmp. rewrite Hk, (orderMap_other b Hb). lia.
    + apply StronglySorted_filter, Hsorted.
    + eapply StronglySorted_impl_elem;
        [|apply (SortFunc_sorted Compare Compare_flip Compare_trans)].
      intros a b Ha Hb.
      apply (proj1 (SortFunc_elem_of Compare _ _)) in Ha.
      apply (proj1 (SortFunc_elem_of Compare _ _)) in Hb.
      apply list_elem_of_filter in Ha as [Ha _]. apply list_elem_of_filter in Hb as [Hb _].
      unfold cmpLe, dirCmp. now rewrite (orderMap_other a Ha), (orderMap_other b Hb).
Qed.
End OrderFacts.

(** C7.  With a non-empty [Order] and the distinct directories [dirs] found
    by the walk, [sortDirs] returns first the names of [Order] that are
    among [dirs], in the sequence [Order] gives them (a name that [Order]
    repeats counts where it stands last; without repetition the sequence is
    [Order] itself, leading ["/"] stripped), then every other directory of
    [dirs], in ascending lexical order.  The result is a permutation of
    [dirs]: a directory that [Order] does not name is kept, only placed
    later. *)
Theorem sortDirs_priority (m : Migrate) (dirs : list string) :
  Order m <> [] ->
  NoDup dirs ->
  let rest := SortFunc Compare (filter (fun x => x ∉ orderKeys m) dirs) in
  sortDirs m dirs = filter (fun o => o ∈ dirs) (dedupLast (orderKeys m)) ++ rest /\
  (NoDup (orderKeys m) -> dedupLast (orderKeys m) = orderKeys m) /\
  rest ≡ₚ filter (fun x => x ∉ orderKeys m) dirs /\
  StronglySorted (fun a b => Compare a b <= 0) rest /\
  sortDirs m dirs ≡ₚ dirs.
Proof.
  intros Hne Hd. cbv zeta. split; [now apply sortDirs_priority_eq|].
  split; [apply dedupLast_NoDup_id|].
  split; [apply SortFunc_Permutation|].
  split; [apply (SortFunc_sorted Compare Compare_flip Compare_trans)|].
  apply sortDirs_Permutation.
Qed.

Example sortDirs_schema_data :
  sortDirs (mkMigrate EmptyString ["schema"; "data"] [] EmptyString) ["."; "data"; "other"; "schema"]
  = ["schema"; "data"; "."; "other"].
Proof. vm_compute. reflexivity. Qed.

(** ** Ordering the files of a directory *)

Section FileOrder.

Lemma no_slash_chars (s : string) :
  contains_byte slash s = false ->
  Forall (fun c => Ascii.eqb c slash = false) (list_ascii_of_string s).
Proof.
  induction s as [|c s IH]; simpl; intros H; [constructor|].
  apply orb_false_iff in H as [Hc Hs]. constructor; auto.
Qed.

Lemma lastElement_id (l : list ascii) :
  Forall (fun c => Ascii.eqb c slash = false) l -> lastElement l = l.
Proof. induction 1 as [|c l Hc _ IH]; simpl; [reflexivity|]. now rewrite Hc, IH. Qed.

(** A base name is its own [filepath.Base]. *)
Lemma Base_valid (name : string) : validName name = true -> Base name = name.
Proof.
  intros Hv. pose proof (validName_no_slash name Hv) as Hs.
  apply no_slash_chars in Hs. apply Forall_rev in Hs.
  unfold validName in Hv. apply andb_true_iff in Hv as [Hv _].
  apply andb_true_iff in Hv as [Hne _]. apply negb_true_iff, String.eqb_neq in Hne.
  unfold Base. destruct name as [|c name]; [congruence|].
  destruct (rev (list_ascii_of_string (String c name))) as [|y r] eqn:E.
  { apply (f_equal (@length ascii)) in E. rewrite length_rev in E. discriminate. }
  inversion Hs as [|? ? Hy Hr]; subst. cbn [stripSlashes]. rewrite Hy.
  rewrite (lastElement_id (y :: r)) by (constructor; assumption).
  rewrite <- E, rev_involutive. apply string_of_list_ascii_of_string.
Qed.

Lemma fileCmp_eq (a b : FileInfo) :
  fileCmp a b =
  if negb (fst (extractLeadingNumber (Base (FPath a))) =?
           fst (extractLeadingNumber (Base (FPath b))))
  then fst (extractLeadingNumber (Base (FPath a))) -
       fst (extractLeadingNumber (Base (FPath b)))
  else Compare (Base (FPath a)) (Base (FPath b)).
Proof.
  unfold fileCmp.
  pose proof (extractLeadingNumber_snd (Base (FPath a))) as Ha.
  pose proof (extractLeadingNumber_snd (Base (FPath b))) as Hb.
  destruct (extractLeadingNumber (Base (FPath a))) as [na sa].
  destruct (extractLeadingNumber (Base (FPath b))) as [nb sb].
  simpl in *. now subst.
Qed.

Lemma fileCmp_flip (a b : FileInfo) : 0 <= fileCmp a b -> fileCmp b a <= 0.
Proof.
  rewrite !fileCmp_eq.
  set (na := fst (extractLeadingNumber (Base (FPath a)))).
  set (nb := fst (extractLeadingNumber (Base (FPath b)))).
  destruct (Z.eqb_spec na nb) as [E|E]; destruct (Z.eqb_spec nb na) as [E'|E'];
    cbn [negb]; try lia. apply Compare_flip.
Qed.

Lemma fileCmp_trans (a b c : FileInfo) :
  fileCmp a b <= 0 -> fileCmp b c <= 0 -> fileCmp a c <= 0.
Proof.
  rewrite !fileCmp_eq.
  set (na := fst (extractLeadingNumber (Base (FPath a)))).
  set (nb := fst (extractLeadingNumber (Base (FPath b)))).
  set (nc := fst (extractLeadingNumber (Base (FPath c)))).
  destruct (Z.eqb_spec na nb), (Z.eqb_spec nb nc), (Z.eqb_spec na nc);
    cbn [negb]; try lia. apply Compare_trans.
Qed.

(** [sortMigrationFiles] sorts by the comparison it is given. *)
Lemma sortMigrationFiles_sorted (files : list FileInfo) :
  StronglySorted (cmpLe fileCmp) (sortMigrationFiles files).
Proof. apply (SortFunc_sorted fileCmp fileCmp_flip fileCmp_trans). Qed.

(** On files whose [Version] is the number of their base name, that
    comparison is the order by version, then by name. *)
Lemma fileCmp_fileLe (a b : FileInfo) :
  validName (FPath a) = true -> validName (FPath b) = true ->
  Version a = fst (extractLeadingNumber (FPath a)) ->
  Version b = fst (extractLeadingNumber (FPath b)) ->
  fileCmp a b <= 0 -> fileLe a b.
Proof.
  intros Ha Hb Va Vb. rewrite fileCmp_eq, (Base_valid _ Ha), (Base_valid _ Hb), <- Va, <- Vb.
  unfold fileLe. destruct (Z.eqb_spec (Version a) (Version b)); cbn [negb]; intros H.
  - right. now split.
  - left. lia.
Qed.

Variable Match : string -> string -> bool.
Variable m : Migrate.

Lemma collectFiles_ok (dir : string) (entries : list Node) (files : list FileInfo) :
  Forall (fun c => validName (nodeName c) = true) entries ->
  Forall fileOk files ->
  Forall fileOk (collectFiles Match m dir entries files).
Proof.
  intros Hv. revert files. induction Hv as [|c rest Hc _ IH]; intros files Hf; [exact Hf|].
  cbn [collectFiles]. destruct (IsDir c); [now apply IH|].
  destruct (shouldSkip Match m _); [now apply IH|].
  destruct (negb _ && negb _); [now apply IH|].
  destruct (extractLeadingNumber (nodeName c)) as [n s] eqn:E.
  destruct (Z.ltb_spec 0 n); [|now apply IH].
  apply IH, Forall_app. split; [exact Hf|]. repeat constructor; simpl; try assumption.
  now rewrite E.
Qed.

Lemma getMigrationFiles_sorted (root : Node) (dir : string) (files : list FileInfo) :
  wfNode root ->
  getMigrationFiles Match m (Mounted root) dir = Ok files ->
  StronglySorted fileLe files /\ Forall fileOk files.
Proof.
  intros Hwf. unfold getMigrationFiles.
  destruct (ReadDir (Mounted root) dir) as [entries|e] eqn:E; [|discriminate].
  intros [= <-].
  pose proof (collectFiles_ok dir entries [] (ReadDir_valid root dir entries Hwf E)
                ltac:(constructor)) as Hok.
  assert (Hok' : Forall fileOk (sortMigrationFiles (collectFiles Match m dir entries []))).
  { rewrite Forall_forall in Hok |- *. intros f Hf. apply Hok.
    now apply (proj1 (SortFunc_elem_of fileCmp _ _)) in Hf. }
  split; [|exact Hok'].
  eapply StronglySorted_impl_elem; [|apply sortMigrationFiles_sorted].
  rewrite Forall_forall in Hok'. intros a b Ha Hb.
  destruct (Hok' a Ha) as (Hva & Hna & _). destruct (Hok' b Hb) as (Hvb & Hnb & _).
  now apply fileCmp_fileLe.
Qed.

(** C8.  In every yielded MigrationSet the files are in ascending order of
    the pair (version, file name): of two files, the one listed first has
    the smaller version, or the same version and a name that is not
    lexically greater.  Each file carries the version of its name, which
    is positive. *)
Theorem files_sorted_by_version_then_name (root : Node) (info : Muzo) :
  wfNode root ->
  In (Yield info) (iterMigrationInfo Match m (Mounted root)) ->
  StronglySorted fileLe (Files info) /\
  Forall (fun f => Version f = fst (extractLeadingNumber (FPath f)) /\ 0 < Version f)
         (Files info).
Proof.
  intros Hwf Hy. apply iterMigrationInfo_Yield in Hy as (dirs & _ & _ & Hf).
  destruct (getMigrationFiles_sorted root (MDir info) (Files info) Hwf Hf) as [Hs Hok].
  split; [exact Hs|]. eapply Forall_impl; [exact Hok|]. intros f (_ & H1 & H2). now split.
Qed.
End FileOrder.

(** ** The PostgreSQL driver *)

Lemma maxVersion_snoc (rows : list Row) (r : Row) (dir : string) :
  maxVersion (rows ++ [r]) dir =
  if String.eqb (directory r) dir
  then Some (match maxVersion rows dir with
             | Some v => Z.max v (version r)
             | None => version r
             end)
  else maxVersion rows dir.
Proof.
  induction rows as [|x rows IH]; simpl.
  - destruct (String.eqb (directory r) dir); reflexivity.
  - rewrite IH. destruct (String.eqb (directory x) dir), (String.eqb (directory r) dir);
      try reflexivity.
    destruct (maxVersion rows dir); f_equal; lia.
Qed.

(** Recording a version above the high-water mark of its directory makes it
    the new mark and leaves the other directories alone. *)
Lemma highWater_snoc (rows : list Row) (v : Z) (dir name d' : string) :
  highWater rows dir < v ->
  highWater (rows ++ [mkRow v dir name]) d' =
  if String.eqb dir d' then v else highWater rows d'.
Proof.
  unfold highWater. intros H. rewrite maxVersion_snoc. simpl.
  destruct (String.eqb_spec dir d') as [<-|Hne]; [|reflexivity].
  destruct (maxVersion rows dir); lia.
Qed.

Section PostgresFacts.
Variable Store : Type.
Variable exec : string -> Store -> res Store.

Lemma selected_above (mark : Z) (files : list FileInfo) :
  Forall (fun f => mark < Version f) (selected mark files).
Proof.
  revert mark. induction files as [|f rest IH]; intros mark; simpl; [constructor|].
  destruct (Z.leb_spec (Version f) mark); [apply IH|].
  constructor; [lia|]. eapply Forall_impl; [apply IH|]. simpl. intros; lia.
Qed.

Lemma selected_none (mark : Z) (files : list FileInfo) :
  Forall (fun f => Version f <= mark) files -> selected mark files = [].
Proof.
  induction 1 as [|f rest Hf _ IH]; simpl; [reflexivity|].
  destruct (Z.leb_spec (Version f) mark); [exact IH | lia].
Qed.

(** A successful [Process] loop ran and recorded exactly the [selected]
    files, in order, and ends with every file at or below the mark. *)
Lemma pgApply_ok (info : Muzo) (files : list FileInfo) :
  forall (mark : Z) (t t' : Tx Store) (log log' : list (string * string)),
    pgApply exec info files mark t log = (t', log', None) ->
    mark = highWater (rows t) (MDir info) ->
    rows t' = rows t ++ map (rowOf info) (selected mark files) /\
    log' = log ++ map (logOf info) (selected mark files) /\
    (failed t = false -> failed t' = false) /\
    Forall (fun f => Version f <= highWater (rows t') (MDir info)) files /\
    (forall d', highWater (rows t) d' <= highWater (rows t') d').
Proof.
  induction files as [|file rest IH]; intros mark t t' log log' H Hv.
  - injection H as <- <-. simpl. rewrite !app_nil_r. repeat split; auto. intros; lia.
  - cbn [pgApply selected] in *. destruct (Z.leb_spec (Version file) mark) as [Hle|Hgt].
    + destruct (IH mark t t' log log' H Hv) as (Hr & Hl & Hf & Hall & Hmono).
      repeat split; auto. constructor; [|exact Hall]. specialize (Hmono (MDir info)). lia.
    + destruct (ReadFile info (FPath file)) as [content|e]; [|discriminate].
      destruct (exec content (data t)) as [data'|e]; [|discriminate].
      unfold insertRow in H. cbn [version directory] in H.
      destruct (negb _); [discriminate|].
      destruct (existsb _ (rows t)); [discriminate|].
      set (t1 := mkTx (rows t ++ [mkRow (Version file) (MDir info) (FPath file)])
                   data' false) in *.
      assert (Hhw : forall d', highWater (rows t1) d' =
                      if String.eqb (MDir info) d' then Version file
                      else highWater (rows t) d').
      { intros d'. subst t1. cbn [rows]. apply highWater_snoc. lia. }
      assert (Hv1 : Version file = highWater (rows t1) (MDir info)).
      { now rewrite Hhw, String.eqb_refl. }
      destruct (IH (Version file) t1 t' _ log' H Hv1) as (Hr & Hl & Hf & Hall & Hmono).
      subst t1. cbn [rows failed] in *.
      split; [|split; [|split; [|split]]].
      * rewrite Hr. cbn [map]. now rewrite <- app_assoc.
      * rewrite Hl. cbn [map]. now rewrite <- app_assoc.
      * auto.
      * constructor; [|exact Hall]. specialize (Hmono (MDir info)). lia.
      * intros d'. specialize (Hmono d'). specialize (Hhw d'). revert Hhw.
        destruct (String.eqb_spec (MDir info) d') as [E|E]; intros Hhw; [subst d'|]; lia.
Qed.

(** With every file at or below the mark the loop does nothing. *)
Lemma pgApply_skip (info : Muzo) (files : list FileInfo) (mark : Z)
    (t : Tx Store) (log : list (string * string)) :
  Forall (fun f => Version f <= mark) files ->
  pgApply exec info files mark t log = (t, log, None).
Proof.
  induction 1 as [|f rest Hf _ IH]; [reflexivity|]. cbn [pgApply].
  destruct (Z.leb_spec (Version f) mark); [exact IH | lia].
Qed.
End PostgresFacts.

Section ProcessFacts.
Variable Store : Type.
Variable exec : string -> Store -> res Store.

Lemma selected_below (l1 rest : list FileInfo) (v : Z) :
  forall mark, mark < v -> Forall (fun g => Version g < v) l1 ->
  exists mark1, mark1 < v /\ selected mark (l1 ++ rest) = selected mark l1 ++ selected mark1 rest.
Proof.
  induction l1 as [|g l1 IH]; intros mark Hm Hl.
  - exists mark. now split.
  - inversion Hl as [|? ? Hg Hl1]; subst. cbn [app selected].
    destruct (Z.leb_spec (Version g) mark).
    + apply IH; assumption.
    + destruct (IH (Version g) Hg Hl1) as (mark1 & H1 & E). exists mark1.
      split; [exact H1|]. now rewrite E.
Qed.

Lemma selected_skip_prefix (l rest : list FileInfo) (mark : Z) :
  Forall (fun g => Version g <= mark) l -> selected mark (l ++ rest) = selected mark rest.
Proof.
  induction 1 as [|g l Hg _ IH]; [reflexivity|]. cbn [app selected].
  destruct (Z.leb_spec (Version g) mark); [exact IH | lia].
Qed.

Lemma fileLe_Version (a b : FileInfo) : fileLe a b -> Version a <= Version b.
Proof. unfold fileLe. lia. Qed.

(** What a successful [Process] call did. *)
Lemma pgProcess_ok (cerr : option error) (info : Muzo) (p p' : Pg Store) (t : Tx Store) :
  tx p = Some t ->
  pgProcess exec cerr info p = (p', None) ->
  cerr = None /\ failed t = false /\ dbRows p' = dbRows p /\ dbData p' = dbData p /\
  exists t', tx p' = Some t' /\
    pgApply exec info (Files info) (highWater (rows t) (MDir info)) t (applied p)
      = (t', applied p', None).
Proof.
  intros Ht. unfold pgProcess. rewrite Ht.
  destruct cerr as [e|]; [discriminate|].
  destruct (failed t); [discriminate|].
  destruct (pgApply exec info (Files info) _ t (applied p)) as [[t' log] err] eqn:E.
  intros [= <- ->]. cbn. repeat split; eauto.
Qed.

(** C10.  Let [Process] succeed on a MigrationSet whose files are in the
    order discovery gives them, and let [f1] and [f2] be two of them with
    the same version, above the high-water mark recorded for the
    directory, [f1] the first file of that version and [f2] a later one.
    Then the files run and recorded are some of those before [f1], then
    [f1], then some of those after [f2]: [f1] is applied, and neither [f2]
    nor any file between the two is.  [f1] is the lexically first of the
    two. *)
Theorem same_version_only_first (info : Muzo) (p p' : Pg Store) (t : Tx Store)
    (l1 l2 l3 : list FileInfo) (f1 f2 : FileInfo) :
  tx p = Some t ->
  pgProcess exec None info p = (p', None) ->
  Files info = l1 ++ f1 :: l2 ++ f2 :: l3 ->
  StronglySorted fileLe (Files info) ->
  Version f1 = Version f2 ->
  highWater (rows t) (MDir info) < Version f1 ->
  Forall (fun g => Version g < Version f1) l1 ->
  let ran := selected (highWater (rows t) (MDir info)) l1 ++
             f1 :: selected (Version f1) l3 in
  exists t', tx p' = Some t' /\
    rows t' = rows t ++ map (rowOf info) ran /\
    applied p' = applied p ++ map (logOf info) ran /\
    Forall (fun g => Version f2 < Version g) (selected (Version f1) l3) /\
    Compare (FPath f1) (FPath f2) <= 0.
Proof.
  intros Ht Hp Hfiles Hsorted Hv Hmark Hl1. cbv zeta.
  destruct (pgProcess_ok None info p p' t Ht Hp) as (_ & _ & _ & _ & t' & Ht' & Happ).
  destruct (pgApply_ok Store exec info (Files info) _ t t' _ _ Happ eq_refl)
    as (Hrows & Hlog & _).
  rewrite Hfiles in Hsorted.
  apply StronglySorted_app in Hsorted as (_ & _ & Hs).
  apply StronglySorted_cons in Hs as [Hf1 Hs]. rewrite Forall_forall in Hf1.
  apply StronglySorted_app in Hs as (Hcross & _ & _).
  assert (Hl2 : Forall (fun g => Version g <= Version f1) (l2 ++ [f2])).
  { apply Forall_forall. intros g Hg. apply elem_of_app in Hg as [Hg|Hg].
    - assert (Hg1 : fileLe f1 g) by (apply Hf1, elem_of_app; now left).
      assert (Hg2 : fileLe g f2) by (apply Hcross; [exact Hg | now left]).
      apply fileLe_Version in Hg2. lia.
    - apply list_elem_of_singleton in Hg as ->. lia. }
  assert (Hran : selected (highWater (rows t) (MDir info)) (Files info) =
                 selected (highWater (rows t) (MDir info)) l1 ++
                 f1 :: selected (Version f1) l3).
  { rewrite Hfiles.
    destruct (selected_below l1 (f1 :: l2 ++ f2 :: l3) (Version f1) _ Hmark Hl1)
      as (mark1 & Hm1 & E).
    rewrite E. f_equal. cbn [selected].
    destruct (Z.leb_spec (Version f1) mark1); [lia|]. f_equal.
    change (l2 ++ f2 :: l3) with (l2 ++ [f2] ++ l3). rewrite app_assoc.
    now apply selected_skip_prefix. }
  exists t'. rewrite Hrows, Hlog, Hran. repeat split; try reflexivity; try assumption.
  - eapply Forall_impl; [apply selected_above|]. simpl. intros; lia.
  - assert (H12 : fileLe f1 f2).
    { apply Hf1, elem_of_app. right. now left. }
    unfold fileLe in H12. lia.
Qed.
End ProcessFacts.

Section RunTwice.
Variable Store : Type.
Variable exec : string -> Store -> res Store.

(** A loop that runs to its end: every item was a MigrationSet, each
    [Process] call succeeded, and afterwards every file of every set is at
    or below the mark of its directory. *)
Lemma migrateLoop_ok (ctx : Context) (items : list Item) :
  forall (n : nat) (p p' : Pg Store) (t : Tx Store) (calls : list Call),
    Orchestrator.migrateLoop (PostgresDriver exec) ctx n items p = (p', None, calls) ->
    tx p = Some t ->
    dbRows p' = dbRows p /\ dbData p' = dbData p /\
    (forall e, ~ In (Fail e) items) /\
    exists t', tx p' = Some t' /\
      (failed t = false -> failed t' = false) /\
      (forall d, highWater (rows t) d <= highWater (rows t') d) /\
      (forall info, In (Yield info) items ->
         Forall (fun f => Version f <= highWater (rows t') (MDir info)) (Files info)).
Proof.
  induction items as [|[info|e] rest IH]; intros n p p' t calls H Ht.
  - injection H as <- <-. repeat split; auto. exists t.
    split; [exact Ht|]. split; [auto|]. split; [intros; lia|]. intros info [].
  - cbn [Orchestrator.migrateLoop] in H.
    change (Process (PostgresDriver exec)) with (@pgProcess Store exec) in H.
    destruct (pgProcess exec (ctx n) info p) as [p1 [e|]] eqn:Ep; [discriminate|].
    destruct (pgProcess_ok Store exec _ info p p1 t Ht Ep)
      as (_ & _ & Hr1 & Hd1 & t1 & Ht1 & Happ).
    destruct (pgApply_ok Store exec info (Files info) _ t t1 _ _ Happ eq_refl)
      as (_ & _ & Hf1 & Hall1 & Hmono1).
    destruct (Orchestrator.migrateLoop (PostgresDriver exec) ctx (Datatypes.S n) rest p1)
      as [[p2 r2] calls2] eqn:El.
    injection H as -> -> <-.
    destruct (IH _ _ _ t1 _ El Ht1) as (Hr2 & Hd2 & Hnf & t2 & Ht2 & Hf2 & Hmono2 & Hall2).
    split; [congruence|]. split; [congruence|]. split.
    { intros e [H|H]; [discriminate | exact (Hnf e H)]. }
    exists t2. split; [exact Ht2|]. split; [auto|]. split.
    { intros d. specialize (Hmono1 d). specialize (Hmono2 d). lia. }
    intros info' [[= <-]|Hin]; [|now apply Hall2].
    eapply Forall_impl; [exact Hall1|]. simpl. intros f Hf.
    specialize (Hmono2 (MDir info)). lia.
  - discriminate.
Qed.

(** A loop over sets whose files are all at or below their marks changes
    neither the rows nor the data nor the log. *)
Lemma migrateLoop_idle (ctx : Context) (items : list Item) :
  forall (n : nat) (p : Pg Store) (t : Tx Store),
    tx p = Some t ->
    (forall e, ~ In (Fail e) items) ->
    (forall info, In (Yield info) items ->
       Forall (fun f => Version f <= highWater (rows t) (MDir info)) (Files info)) ->
    let '(p', ret, _) := Orchestrator.migrateLoop (PostgresDriver exec) ctx n items p in
    dbRows p' = dbRows p /\ dbData p' = dbData p /\ applied p' = applied p /\
    exists t', tx p' = Some t' /\ rows t' = rows t /\ data t' = data t /\
      ((forall k, ctx k = None) -> failed t = false -> ret = None /\ failed t' = false).
Proof.
  induction items as [|[info|e] rest IH]; intros n p t Ht Hnf Hall.
  - cbn. split_and!; try reflexivity. exists t. split_and!; auto.
  - cbn [Orchestrator.migrateLoop].
    change (Process (PostgresDriver exec)) with (@pgProcess Store exec).
    unfold pgProcess. rewrite Ht.
    destruct (ctx n) as [e|] eqn:Ec.
    { cbn. split_and!; try reflexivity. exists (failTx t). split_and!; try reflexivity.
      intros Hlive. rewrite Hlive in Ec. discriminate. }
    destruct (failed t) eqn:Ef.
    { cbn. split_and!; try reflexivity. exists t. split_and!; try reflexivity; try assumption.
      intros _ H. discriminate. }
    rewrite (pgApply_skip Store exec info (Files info) _ t (applied p)
               (Hall info (or_introl eq_refl))).
    set (p1 := mkPg (dbRows p) (dbData p) (Some t) (applied p)).
    specialize (IH (Datatypes.S n) p1 t eq_refl
                  (fun e H => Hnf e (or_intror H))
                  (fun i H => Hall i (or_intror H))).
    destruct (Orchestrator.migrateLoop (PostgresDriver exec) ctx (Datatypes.S n) rest p1)
      as [[p2 r2] calls2].
    destruct IH as (Hr & Hd & Ha & t' & Ht' & Hrows & Hdata & Hlive).
    subst p1. cbn in Hr, Hd, Ha. split_and!; try assumption.
    exists t'. split_and!; try assumption. intros Hl _. now apply Hlive.
  - exfalso. apply (Hnf e). now left.
Qed.

(** C2.  Let a first run of [Migrate] with the PostgreSQL driver, under a
    context that is never cancelled, return [nil].  Then every file of
    every MigrationSet has a version at or below the high-water mark the
    table now records for its directory, and a second run over the same
    sequence of sets, under any context, leaves the table, the data and
    the log of applied files as the first run left them: it applies and
    records no file.  Under a context that is not cancelled the second run
    returns [nil] too. *)
Theorem second_run_applies_nothing (ctx1 ctx2 : Context) (items : list Item)
    (p p1 p2 : Pg Store) (calls1 calls2 : list Call) (ret2 : option error) :
  (forall k, ctx1 k = None) ->
  Orchestrator.Migrate (PostgresDriver exec) ctx1 items p = (p1, None, calls1) ->
  Orchestrator.Migrate (PostgresDriver exec) ctx2 items p1 = (p2, ret2, calls2) ->
  (forall info, In (Yield info) items ->
     Forall (fun f => Version f <= highWater (dbRows p1) (MDir info)) (Files info)) /\
  dbRows p2 = dbRows p1 /\ dbData p2 = dbData p1 /\ applied p2 = applied p1 /\
  ((forall k, ctx2 k = None) -> ret2 = None).
Proof.
  intros Hlive1 H1 H2.
  (* the first run *)
  unfold Orchestrator.Migrate in H1.
  change (Start (PostgresDriver exec)) with (@pgStart Store) in H1.
  change (End (PostgresDriver exec)) with (@pgEnd Store) in H1.
  unfold pgStart in H1. rewrite !Hlive1 in H1.
  set (t0 := mkTx (dbRows p) (dbData p) false) in H1.
  set (ps := mkPg (dbRows p) (dbData p) (Some t0) (applied p)) in H1.
  destruct (Orchestrator.migrateLoop (PostgresDriver exec) ctx1 1 items ps)
    as [[pl r1] cl] eqn:El.
  rewrite Hlive1 in H1.
  destruct (pgEnd None None pl) as [pe re] eqn:Ee.
  injection H1 as -> -> <-.
  destruct (migrateLoop_ok ctx1 items 1 ps pl t0 cl El eq_refl)
    as (_ & _ & Hnf & t1 & Ht1 & Hf1 & _ & Hall).
  specialize (Hf1 eq_refl).
  unfold pgEnd in Ee. rewrite Ht1, Hf1 in Ee. injection Ee as <- <-.
  cbn [dbRows dbData applied].
  split; [exact Hall|].
  (* the second run *)
  unfold Orchestrator.Migrate in H2.
  change (Start (PostgresDriver exec)) with (@pgStart Store) in H2.
  change (End (PostgresDriver exec)) with (@pgEnd Store) in H2.
  unfold pgStart in H2. cbn [dbRows dbData applied] in H2.
  destruct (ctx2 0%nat) as [e|] eqn:E0.
  { injection H2 as <- <- <-. cbn. split_and!; try reflexivity.
    intros Hl. rewrite Hl in E0. discriminate. }
  set (u0 := mkTx (rows t1) (data t1) false) in H2.
  set (qs := mkPg (rows t1) (data t1) (Some u0) (applied pl)) in H2.
  pose proof (migrateLoop_idle ctx2 items 1 qs u0 eq_refl Hnf Hall) as Hidle.
  destruct (Orchestrator.migrateLoop (PostgresDriver exec) ctx2 1 items qs)
    as [[ql r2] cl2].
  destruct Hidle as (Hr & Hd & Ha & u1 & Hu1 & Hrows & Hdata & Hlive2).
  subst qs u0. cbn [dbRows dbData applied rows data failed] in *.
  destruct (pgEnd (ctx2 (Datatypes.S (length cl2))) None ql) as [qe rq] eqn:Ee.
  injection H2 as <- <- <-.
  unfold pgEnd in Ee. rewrite Hu1 in Ee.
  assert (Hret : (forall k, ctx2 k = None) -> r2 = None).
  { intros Hl. now apply Hlive2. }
  destruct (ctx2 (Datatypes.S (length cl2))).
  { injection Ee as <- <-. cbn. split_and!; assumption. }
  destruct (failed u1).
  { injection Ee as <- <-. split_and!; assumption. }
  injection Ee as <- <-. cbn. split_and!; assumption.
Qed.
End RunTwice.

(** ** The claims at concrete inputs *)

Ltac solve_fileLe :=
  unfold fileLe; cbn [Version FPath];
  first [ left; vm_compute; reflexivity
        | right; split; [reflexivity | vm_compute; discriminate] ].

Ltac solve_sorted :=
  repeat first [ apply SSorted_nil | apply SSorted_cons
               | apply List.Forall_nil | apply List.Forall_cons
               | solve_fileLe ].

Ltac solve_wf := cbn; repeat split.

(** C5 at [Skip = ["/test/**"]]: [test/child] is neither collected, nor
    visited, nor yielded. *)
Lemma subtree_skip_prunes_witness :
  let m := mkMigrate EmptyString [] ["/test/**"] EmptyString in
  ~ In "test/child" (fst (fst (walkTrace globMatch m (Mounted testRoot)))) /\
  ("test/child" <> "test" ->
   ~ In "test/child" (snd (fst (walkTrace globMatch m (Mounted testRoot))))) /\
  (forall dirs, getMigrationDirs globMatch m (Mounted testRoot) = Ok dirs ->
                ~ In "test/child" dirs) /\
  (forall info, In (Yield info) (iterMigrationInfo globMatch m (Mounted testRoot)) ->
                MDir info <> "test/child").
Proof.
  cbv zeta.
  apply (subtree_skip_prunes globMatch (mkMigrate EmptyString [] ["/test/**"] EmptyString)
           testRoot testDir childDir "test" "test/child" "/test/**").
  - solve_wf.
  - refine (located_child testRoot "." "." EmptyString None _ testDir (located_here _ _) _).
    right. now left.
  - now left.
  - right. reflexivity.
  - refine (located_child testDir "test" "test" "test" None _ childDir (located_here _ _) _).
    right. now left.
Defined.

(** C6 as stated fails for the root directory and for a directory that
    holds an entry named ["*"].  Under [Skip = ["./*"]] the root keeps its
    file and its child directory is yielded; under [Skip = ["/*"]], the
    other way to write the root's children, the root itself is not
    yielded.  Under [Skip = ["/test/*"]] the directory [test/*] is pruned,
    so [test/*/x], two levels below [test], is never visited, while without
    the pattern it is yielded. *)
Lemma star_skip_counterexample :
  TrimPrefix "./*" "/" = "." +:+ "/*" /\
  summary (iterMigrationInfo globMatch (mkMigrate EmptyString [] ["./*"] EmptyString) (Mounted smallRoot))
    = [(".", ["1_a.sql"]); ("sub", [])] /\
  summary (iterMigrationInfo globMatch (mkMigrate EmptyString [] ["/*"] EmptyString)
             (Mounted smallRoot))
    = [] /\
  TrimPrefix "/test/*" "/" = "test" +:+ "/*" /\
  snd (fst (walkTrace globMatch (mkMigrate EmptyString [] ["/test/*"] EmptyString) (Mounted starRoot)))
    = ["."; "test"; "test/*"] /\
  summary (iterMigrationInfo globMatch (mkMigrate EmptyString [] [] EmptyString) (Mounted starRoot))
    = [(".", []); ("test", []); ("test/*", []); ("test/*/x", [])].
Proof. vm_compute. repeat split. Qed.

(** C6 at [Skip = ["/test/*"]]. *)
Lemma star_skip_children_witness :
  let m := mkMigrate EmptyString [] ["/test/*"] EmptyString in
  getMigrationDirs globMatch m (Mounted testRoot) =
    match getMigrationDirs globMatch (withoutSkip m 0) (Mounted testRoot) with
    | Ok dirs' => Ok (filter (fun q => childOf "test" q = false) dirs')
    | Err e => Err e
    end /\
  (forall files, getMigrationFiles globMatch m (Mounted testRoot) "test" = Ok files ->
                 files = []) /\
  (forall q, q <> "test" ->
     getMigrationFiles globMatch m (Mounted testRoot) q =
     getMigrationFiles globMatch (withoutSkip m 0) (Mounted testRoot) q) /\
  (forall info, In (Yield info) (iterMigrationInfo globMatch m (Mounted testRoot)) ->
     childOf "test" (MDir info) = false /\ (MDir info = "test" -> Files info = [])) /\
  childOf "test" "test" = false /\
  (forall c g, childOf "test" ("test" +:+ "/" +:+ c +:+ "/" +:+ g) = false).
Proof.
  cbv zeta.
  apply (star_skip_children globMatch (mkMigrate EmptyString [] ["/test/*"] EmptyString) 0 "/test/*" "test"
           testRoot).
  - solve_wf.
  - discriminate.
  - reflexivity.
  - reflexivity.
  - apply globMatch_star. split; reflexivity.
  - vm_compute. intuition discriminate.
Defined.

Example star_skip_test :
  summary (iterMigrationInfo globMatch (mkMigrate EmptyString [] ["/test/*"] EmptyString) (Mounted testRoot))
  = [(".", []); ("keep", ["001_keep.sql"]); ("test", []);
     ("test/child/grandchild", ["001_grandchild.sql"])].
Proof. vm_compute. reflexivity. Qed.

(** C7 at [Order = ["schema"; "data"]]. *)
Lemma sortDirs_priority_witness :
  let m := mkMigrate EmptyString ["schema"; "data"] [] EmptyString in
  let dirs := ["."; "data"; "other"; "schema"] in
  let rest := SortFunc Compare (filter (fun x => x ∉ orderKeys m) dirs) in
  sortDirs m dirs = filter (fun o => o ∈ dirs) (dedupLast (orderKeys m)) ++ rest /\
  (NoDup (orderKeys m) -> dedupLast (orderKeys m) = orderKeys m) /\
  rest ≡ₚ filter (fun x => x ∉ orderKeys m) dirs /\
  StronglySorted (fun a b => Compare a b <= 0) rest /\
  sortDirs m dirs ≡ₚ dirs.
Proof.
  apply (sortDirs_priority (mkMigrate EmptyString ["schema"; "data"] [] EmptyString)
           ["."; "data"; "other"; "schema"]).
  - discriminate.
  - apply (bool_decide_unpack (NoDup ["."; "data"; "other"; "schema"])).
    vm_compute. exact I.
Defined.

(** C8 at the directory with three files of version 1. *)
Lemma files_sorted_witness :
  let info := mkMuzo "migrations"
                [mkFileInfo "001_alpha.sql" 1; mkFileInfo "001_beta.sql" 1;
                 mkFileInfo "001_zebra.sql" 1; mkFileInfo "2_next.sql" 2] sameVersion in
  StronglySorted fileLe (Files info) /\
  Forall (fun f => Version f = fst (extractLeadingNumber (FPath f)) /\ 0 < Version f)
         (Files info).
Proof.
  cbv zeta.
  apply (files_sorted_by_version_then_name globMatch plainMigrate
           (Dir EmptyString None
              [Dir "migrations" None
                 [File "001_alpha.sql" (Ok "alpha"); File "001_beta.sql" (Ok "beta");
                  File "001_zebra.sql" (Ok "zebra"); File "2_next.sql" (Ok "next")]])).
  - solve_wf.
  - vm_compute. right. left. reflexivity.
Defined.

(** C10 at the directory with three files of version 1: only
    [001_alpha.sql] of them runs, then [2_next.sql]. *)
Lemma same_version_only_first_witness :
  let f1 := mkFileInfo "001_alpha.sql" 1 in
  let f2 := mkFileInfo "001_beta.sql" 1 in
  let l3 := [mkFileInfo "001_zebra.sql" 1; mkFileInfo "2_next.sql" 2] in
  let p' := fst (pgProcess sqlExec None sameVersionSet startedPg) in
  let ran := selected (highWater (rows emptyTx) "migrations") [] ++
             f1 :: selected (Version f1) l3 in
  exists t', tx p' = Some t' /\
    rows t' = rows emptyTx ++ map (rowOf sameVersionSet) ran /\
    applied p' = applied startedPg ++ map (logOf sameVersionSet) ran /\
    Forall (fun g => Version f2 < Version g) (selected (Version f1) l3) /\
    Compare (FPath f1) (FPath f2) <= 0.
Proof.
  cbv zeta.
  apply (same_version_only_first (list string) sqlExec sameVersionSet startedPg
           (fst (pgProcess sqlExec None sameVersionSet startedPg)) emptyTx
           [] [] [mkFileInfo "001_zebra.sql" 1; mkFileInfo "2_next.sql" 2]
           (mkFileInfo "001_alpha.sql" 1) (mkFileInfo "001_beta.sql" 1)).
  - reflexivity.
  - vm_compute. reflexivity.
  - reflexivity.
  - solve_sorted.
  - reflexivity.
  - vm_compute. reflexivity.
  - constructor.
Defined.

Example same_version_rows :
  map file_name (dbRows (fst (fst (Orchestrator.Migrate (PostgresDriver sqlExec) liveCtx
                                     (iterMigrationInfo globMatch plainMigrate sameVersion)
                                     emptyPg))))
  = ["001_alpha.sql"; "2_next.sql"].
Proof. vm_compute. reflexivity. Qed.

(** C2 at the tree [usersPosts]: the second run changes nothing. *)
Lemma second_run_applies_nothing_witness :
  let items := iterMigrationInfo globMatch plainMigrate usersPosts in
  let run1 := Orchestrator.Migrate (PostgresDriver sqlExec) liveCtx items emptyPg in
  let p1 := fst (fst run1) in
  let run2 := Orchestrator.Migrate (PostgresDriver sqlExec) liveCtx items p1 in
  let p2 := fst (fst run2) in
  (forall info, In (Yield info) items ->
     Forall (fun f => Version f <= highWater (dbRows p1) (MDir info)) (Files info)) /\
  dbRows p2 = dbRows p1 /\ dbData p2 = dbData p1 /\ applied p2 = applied p1 /\
  ((forall k, liveCtx k = None) -> snd (fst run2) = None).
Proof.
  cbv zeta.
  apply (second_run_applies_nothing (list string) sqlExec liveCtx liveCtx
           (iterMigrationInfo globMatch plainMigrate usersPosts) emptyPg _ _
           (snd (Orchestrator.Migrate (PostgresDriver sqlExec) liveCtx
                   (iterMigrationInfo globMatch plainMigrate usersPosts) emptyPg))
           (snd (Orchestrator.Migrate (PostgresDriver sqlExec) liveCtx
                   (iterMigrationInfo globMatch plainMigrate usersPosts)
                   (fst (fst (Orchestrator.Migrate (PostgresDriver sqlExec) liveCtx
                                (iterMigrationInfo globMatch plainMigrate usersPosts)
                                emptyPg)))))).
  - intros k. reflexivity.
  - vm_compute. reflexivity.
  - vm_compute. reflexivity.
Defined.

(** The scenario of the specification: two runs over [usersPosts]; the
    first records three entries, the second leaves them at three. *)
Example run_twice_counts :
  let items := iterMigrationInfo globMatch plainMigrate usersPosts in
  let '(p1, ret1, _) := Orchestrator.Migrate (PostgresDriver sqlExec) liveCtx items emptyPg in
  let '(p2, ret2, _) := Orchestrator.Migrate (PostgresDriver sqlExec) liveCtx items p1 in
  ret1 = None /\ length (dbRows p1) = 3%nat /\
  ret2 = None /\ length (dbRows p2) = 3%nat /\ applied p2 = applied p1.
Proof. vm_compute. repeat split. Qed.

(** ** The directories of a walk are distinct *)

Section DistinctDirs.
Variable Match : string -> string -> bool.
Variable m : Migrate.

Lemma distinctNames_Dir (name : string) (e : option error) (children : list Node) :
  distinctNames (Dir name e children) <->
  NoDup (map nodeName children) /\ Forall distinctNames children.
Proof.
  simpl. apply and_iff_compat_l. induction children as [|c r IH].
  - split; [constructor | trivial].
  - split.
    + intros [Hc Hr]. constructor; [exact Hc | now apply IH].
    + intros H. inversion H; subst. split; [assumption | now apply IH].
Qed.

Lemma first_segment (a b r r' : string) :
  contains_byte slash a = false -> contains_byte slash b = false ->
  a +:+ "/" +:+ r = b +:+ "/" +:+ r' -> a = b.
Proof.
  revert b. induction a as [|x a IH]; intros b Ha Hb H.
  - destruct b as [|y b]; [reflexivity|].
    rewrite append_empty_l, !append_cons, append_empty_l in H. injection H as <- _.
    simpl in Hb. discriminate.
  - destruct b as [|y b].
    + rewrite append_empty_l, !append_cons, append_empty_l in H. injection H as -> _.
      simpl in Ha. discriminate.
    + rewrite !append_cons in H. injection H as <- H.
      simpl in Ha, Hb. apply orb_false_iff in Ha as [_ Ha]. apply orb_false_iff in Hb as [_ Hb].
      f_equal. now apply IH.
Qed.

Lemma validName_not_dot (c : string) : validName c = true -> c <> ".".
Proof.
  unfold validName. intros H. apply andb_true_iff in H as [H _].
  apply andb_true_iff in H as [_ H]. now apply negb_true_iff, String.eqb_neq in H.
Qed.

Lemma append_neq_self (p r : string) : p +:+ "/" +:+ r <> p.
Proof.
  intros H. apply (f_equal String.length) in H. rewrite !length_append in H.
  simpl in H. lia.
Qed.

Lemma under_Join_parent (p c q : string) :
  validName c = true -> under (Join p c) q -> q <> p.
Proof.
  intros Hc Hq ->. pose proof (validName_no_slash c Hc) as Hs.
  pose proof (validName_not_dot c Hc) as Hd. unfold Join in Hq.
  destruct (String.eqb_spec p ".") as [->|Hp].
  - destruct Hq as [H|[r H]]; [congruence|]. revert H. now apply no_slash_not_under.
  - destruct Hq as [H|[r H]].
    + symmetry in H. revert H. apply append_neq_self.
    + rewrite append_assoc in H. symmetry in H. revert H.
      change ("/" +:+ c +:+ "/" +:+ r) with ("/" +:+ (c +:+ "/" +:+ r)).
      apply append_neq_self.
Qed.

Lemma under_Join_under (p c q : string) :
  p <> "." -> under (Join p c) q -> under p q.
Proof.
  intros Hp. unfold Join. apply String.eqb_neq in Hp. rewrite Hp.
  intros [->|[r ->]]; right; [now exists c|].
  exists (c +:+ "/" +:+ r). now rewrite !append_assoc.
Qed.

(** Two entries of a directory with different names have no path in
    common. *)
Lemma under_Join_disjoint (p c1 c2 q : string) :
  validName c1 = true -> validName c2 = true -> c1 <> c2 ->
  under (Join p c1) q -> under (Join p c2) q -> False.
Proof.
  intros H1 H2 Hne Hq1 Hq2. apply validName_no_slash in H1, H2.
  assert (Hrel : forall a b, under a q -> under b q ->
            a = b \/ (exists r, a = b +:+ "/" +:+ r) \/ (exists r, b = a +:+ "/" +:+ r) \/
            exists r1 r2, a +:+ "/" +:+ r1 = b +:+ "/" +:+ r2).
  { intros a b [->|[r1 ->]] [E|[r2 E]]; eauto. right. right. right. eauto. }
  unfold Join in Hq1, Hq2. destruct (String.eqb p ".").
  - destruct (Hrel _ _ Hq1 Hq2) as [E|[[r E]|[[r E]|(r1 & r2 & E)]]].
    + congruence.
    + revert E. now apply no_slash_not_under.
    + revert E. now apply no_slash_not_under.
    + apply Hne. exact (first_segment c1 c2 r1 r2 H1 H2 E).
  - destruct (Hrel _ _ Hq1 Hq2) as [E|[[r E]|[[r E]|(r1 & r2 & E)]]].
    + apply String.app_inj in E. rewrite !append_cons, !append_empty_l in E. congruence.
    + rewrite append_assoc in E. apply String.app_inj in E.
      rewrite !append_cons, !append_empty_l in E. injection E as E.
      revert E. now apply no_slash_not_under.
    + rewrite append_assoc in E. apply String.app_inj in E.
      rewrite !append_cons, !append_empty_l in E. injection E as E.
      revert E. now apply no_slash_not_under.
    + rewrite !append_assoc in E. apply String.app_inj in E.
      rewrite !append_cons, !append_empty_l in E. injection E as E.
      apply Hne. exact (first_segment c1 c2 r1 r2 H1 H2 E).
Qed.

Lemma walk_distinct (n : Node) :
  forall (p : string) (dirs : list string),
    wfNode n -> distinctNames n ->
    exists new r,
      walkDir (dirsCallback Match m) p n dirs = (dirs ++ new, r) /\
      NoDup new /\ (p <> "." -> Forall (under p) new).
Proof.
  induction n as [fname content|dname e children IH] using Node_induction;
    intros p dirs Hwf Hdn.
  - exists [], None. cbn. rewrite app_nil_r. split_and!; constructor.
  - assert (Hjoin : forall c, validName c = true -> Join p c <> ".").
    { intros c Hc. unfold Join. destruct (String.eqb p "."); [now apply validName_not_dot|].
      intros H. symmetry in H. revert H. now apply no_slash_not_under. }
    assert (Hcb : exists new1,
              (new1 = [] \/ new1 = [p]) /\
              (dirsCallback Match m p true None dirs = (dirs ++ new1, None) \/
               dirsCallback Match m p true None dirs = (dirs, Some SkipDir) /\ new1 = [])).
    { unfold dirsCallback. cbn [negb]. destruct (shouldSkipDir m p).
      - exists []. split; [now left | right; now split].
      - destruct (shouldSkip Match m p); cbn [negb].
        + exists []. rewrite app_nil_r. split; [now left | now left].
        + exists [p]. split; [now right | now left]. }
    destruct Hcb as (new1 & Hnew1 & [Hcb|[Hcb ->]]).
    2:{ exists [], None. rewrite app_nil_r.
        destruct e; [cbn [walkDir IsDir] | rewrite walkDir_Dir]; rewrite Hcb;
          split_and!; try reflexivity; constructor. }
    assert (Hn1 : NoDup new1 /\ Forall (under p) new1).
    { destruct Hnew1 as [->| ->]; split.
      - constructor.
      - constructor.
      - apply NoDup_singleton.
      - constructor; [now left | constructor]. }
    destruct e as [e|].
    + exists new1, (Some (Other e)). cbn [walkDir IsDir]. rewrite Hcb. cbn.
      split_and!; tauto.
    + rewrite walkDir_Dir, Hcb. apply wfNode_Dir in Hwf.
      apply distinctNames_Dir in Hdn as [Hnames Hdn].
      assert (Hloop : forall acc,
                exists new r,
                  walkList (dirsCallback Match m) p children acc = (acc ++ new, r) /\
                  NoDup new /\
                  Forall (fun q => exists c, In c children /\
                                             under (Join p (nodeName c)) q) new).
      { clear Hcb. induction children as [|c rest IHrest]; intros acc.
        - exists [], None. cbn. rewrite app_nil_r. split_and!; constructor.
        - inversion IH as [|? ? IHc IHr]; subst.
          inversion Hwf as [|? ? [Hvc Hwc] Hwr]; subst.
          inversion Hdn as [|? ? Hdc Hdr]; subst.
          cbn [map] in Hnames. apply NoDup_cons in Hnames as [Hcn Hnames].
          destruct (IHc (Join p (nodeName c)) acc Hwc Hdc) as (n1 & r1 & E1 & N1 & U1).
          specialize (U1 (Hjoin _ Hvc)).
          assert (U1' : Forall (fun q => exists c0, In c0 (c :: rest) /\
                                  under (Join p (nodeName c0)) q) n1).
          { eapply Forall_impl; [exact U1|]. intros q Hq. exists c. split; [now left | exact Hq]. }
          cbn [walkList]. rewrite E1.
          destruct r1 as [[| |e1]|]; try (exists n1; eexists; split_and!; eauto; fail).
          destruct (IHrest IHr Hwr Hnames Hdr (acc ++ n1)) as (n2 & r2 & E2 & N2 & U2).
          exists (n1 ++ n2), r2. rewrite E2, app_assoc. split; [reflexivity|]. split.
          * apply NoDup_app. split; [exact N1|]. split; [|exact N2].
            intros q Hq1 Hq2. rewrite Forall_forall in U1, U2.
            destruct (U2 q Hq2) as (c' & Hc' & Hu').
            assert (Hvc' : validName (nodeName c') = true).
            { rewrite Forall_forall in Hwr. apply list_elem_of_In in Hc'.
              now apply Hwr in Hc'. }
            apply (under_Join_disjoint p (nodeName c) (nodeName c') q Hvc Hvc');
              [|now apply U1|exact Hu'].
            intros Heq. apply Hcn. rewrite Heq. apply list_elem_of_In, in_map, Hc'.
          * apply Forall_app. split; [exact U1'|].
            eapply Forall_impl; [exact U2|]. intros q (c' & Hc' & Hu').
            exists c'. split; [now right | exact Hu']. }
      destruct (Hloop (dirs ++ new1)) as (n2 & r2 & E2 & N2 & U2).
      exists (new1 ++ n2), r2. rewrite E2, app_assoc. split; [reflexivity|].
      destruct Hn1 as [N1 U1]. rewrite Forall_forall in U2. split.
      * apply NoDup_app. split; [exact N1|]. split; [|exact N2].
        intros q Hq1 Hq2. destruct (U2 q Hq2) as (c' & Hc' & Hu').
        assert (Hvc' : validName (nodeName c') = true).
        { rewrite Forall_forall in Hwf. apply list_elem_of_In in Hc'. now apply Hwf in Hc'. }
        apply (under_Join_parent p (nodeName c') q Hvc' Hu').
        destruct Hnew1 as [->| ->]; [inversion Hq1|].
        now apply list_elem_of_singleton in Hq1.
      * intros Hp. apply Forall_app. split; [exact U1|]. apply Forall_forall. intros q Hq.
        destruct (U2 q Hq) as (c' & Hc' & Hu').
        now apply (under_Join_under p (nodeName c')).
Qed.

(** The directories [getMigrationDirs] returns are pairwise different. *)
Lemma getMigrationDirs_NoDup (root : Node) (dirs : list string) :
  wfNode root -> distinctNames root ->
  getMigrationDirs Match m (Mounted root) = Ok dirs -> NoDup dirs.
Proof.
  intros Hwf Hdn. unfold getMigrationDirs, WalkDir.
  destruct (walk_distinct root "." [] Hwf Hdn) as (new & r & E & N & _).
  rewrite E. cbn [app]. destruct r as [[| |e]|]; intros [= <-]; exact N.
Qed.
End DistinctDirs.

(** Discovery as a whole: over a tree whose sibling entries have different
    names, the sets are yielded for the names of [Order] first, then for
    the other directories in lexical order. *)
Lemma discovery_order (Match : string -> string -> bool) (m : Migrate)
    (root : Node) (dirs : list string) :
  wfNode root -> distinctNames root -> Order m <> [] ->
  getMigrationDirs Match m (Mounted root) = Ok dirs ->
  iterMigrationInfo Match m (Mounted root) =
  map (fun dir =>
         match getMigrationFiles Match m (Mounted root) dir with
         | Err e => Fail e
         | Ok files => Yield (mkMuzo dir files (Mounted root))
         end)
      (filter (fun o => o ∈ dirs) (dedupLast (orderKeys m)) ++
       SortFunc Compare (filter (fun x => x ∉ orderKeys m) dirs)).
Proof.
  intros Hwf Hdn Hne Hget. unfold iterMigrationInfo. rewrite Hget.
  rewrite (sortDirs_priority_eq m dirs Hne
             (getMigrationDirs_NoDup Match m root dirs Hwf Hdn Hget)).
  reflexivity.
Qed.

Example discovery_order_gamma_alpha :
  summary (iterMigrationInfo globMatch (mkMigrate EmptyString ["gamma"; "alpha"] [] EmptyString)
             (Mounted (Dir EmptyString None
                [Dir "alpha" None [File "001_migration.sql" (Ok "a")];
                 Dir "beta" None [File "001_migration.sql" (Ok "b")];
                 Dir "gamma" None [File "001_migration.sql" (Ok "g")]])))
  = [("gamma", ["001_migration.sql"]); ("alpha", ["001_migration.sql"]);
     (".", []); ("beta", ["001_migration.sql"])].
Proof. vm_compute. reflexivity. Qed.
(** * Further properties of the code

    Paths are joined with ["/"], as [filepath.Join] does where that is the
    separator; trees are well-formed where a statement follows a path back
    to its entry (entry names are base names, sibling entries have
    different names). *)

(** ** What the directory walk collects *)

Section ReachedFacts.
Variable Match : string -> string -> bool.
Variable m : Migrate.

(** A reached entry is an entry of the tree. *)
Lemma reached_located (root x : Node) (p q : string) :
  reached m root p q x -> located root p q x.
Proof.
  induction 1 as [|q name children c _ IH _ Hin]; [constructor|].
  now apply (located_child root p q name None children c).
Qed.

(** A reached entry is the start, or is reached from one of the start's
    entries. *)
Lemma reached_top (n x : Node) (p q : string) :
  reached m n p q x ->
  (q = p /\ x = n) \/
  exists name children c,
    n = Dir name None children /\ shouldSkipDir m p = false /\ In c children /\
    reached m c (Join p (nodeName c)) q x.
Proof.
  induction 1 as [|q name children c Hr IH Hskip Hin]; [now left|]. right.
  destruct IH as [[-> <-]|(name0 & children0 & c0 & -> & Hs0 & Hin0 & Hr0)].
  - exists name, children, c. repeat split; try assumption. constructor.
  - exists name0, children0, c0. repeat split; try assumption.
    now apply (reached_child m c0 _ q name children c).
Qed.

Lemma reached_down (name : string) (children : list Node) (c x : Node) (p q : string) :
  shouldSkipDir m p = false -> In c children ->
  reached m c (Join p (nodeName c)) q x ->
  reached m (Dir name None children) p q x.
Proof.
  intros Hs Hin. induction 1 as [|q name' children' c' _ IH Hs' Hin'].
  - apply (reached_child m _ p p name children c); [constructor | assumption..].
  - now apply (reached_child m _ p q name' children' c').
Qed.

Lemma dirsCallback_dir (p : string) (dirs : list string) :
  dirsCallback Match m p true None dirs =
  if shouldSkipDir m p then (dirs, Some SkipDir)
  else if negb (shouldSkip Match m p) then (dirs ++ [p], None)
       else (dirs, None).
Proof. reflexivity. Qed.

(** The walk of [getMigrationDirs] ends with [nil] or with an error of its
    own: the callback's [SkipDir] never leaves the directory it prunes. *)
Lemma walkDir_dirs_result (n : Node) :
  forall (p : string) (dirs : list string),
    snd (walkDir (dirsCallback Match m) p n dirs) = None \/
    exists e, snd (walkDir (dirsCallback Match m) p n dirs) = Some (Other e).
Proof.
  induction n as [fname content|dname e children IH] using Node_induction; intros p dirs.
  - left. reflexivity.
  - destruct e as [e|].
    + cbn [walkDir IsDir]. rewrite dirsCallback_dir.
      destruct (shouldSkipDir m p); [now left|].
      destruct (negb (shouldSkip Match m p)); right; exists e; reflexivity.
    + rewrite walkDir_Dir, dirsCallback_dir.
      destruct (shouldSkipDir m p); [now left|].
      assert (Hloop : forall acc,
                snd (walkList (dirsCallback Match m) p children acc) = None \/
                exists e, snd (walkList (dirsCallback Match m) p children acc) = Some (Other e)).
      { induction IH as [|c rest Hc _ IHrest]; intros acc; [now left|].
        cbn [walkList]. specialize (Hc (Join p (nodeName c)) acc).
        destruct (walkDir (dirsCallback Match m) (Join p (nodeName c)) c acc) as [acc' r'].
        cbn [snd] in Hc. destruct Hc as [->|[e ->]]; [apply IHrest|].
        right. now exists e. }
      destruct (negb (shouldSkip Match m p)); apply Hloop.
Qed.

(** A walk that ends without error collected exactly the reached
    directories that no skip applies to, and could list every directory
    it went into. *)
Lemma walk_exact (n : Node) :
  forall (p : string) (dirs dirs' : list string),
    walkDir (dirsCallback Match m) p n dirs = (dirs', None) ->
    exists new, dirs' = dirs ++ new /\
      (forall q, In q new <-> collectable Match m n p q) /\
      (forall q name e children,
         reached m n p q (Dir name e children) -> shouldSkipDir m q = false -> e = None).
Proof.
  induction n as [fname content|dname e children IH] using Node_induction;
    intros p dirs dirs' Hw.
  - cbn in Hw. injection Hw as <-. exists []. rewrite app_nil_r. split; [reflexivity|]. split.
    + intros q. split; [contradiction|]. intros (x & Hr & Hd & _).
      apply reached_top in Hr as [[_ ->]|(? & ? & ? & ? & _)]; discriminate.
    + intros q name e children Hr _.
      apply reached_top in Hr as [[_ ?]|(? & ? & ? & ? & _)]; discriminate.
  - destruct (shouldSkipDir m p) eqn:Hskip.
    { assert (dirs' = dirs) as ->.
      { destruct e; [cbn [walkDir IsDir] in Hw | rewrite walkDir_Dir in Hw];
          rewrite dirsCallback_dir, Hskip in Hw; now injection Hw. }
      exists []. rewrite app_nil_r. split; [reflexivity|]. split.
      - intros q. split; [contradiction|]. intros (x & Hr & _ & Hs & _).
        apply reached_top in Hr as [[-> _]|(? & ? & ? & _ & ? & _)]; congruence.
      - intros q name e' children' Hr Hs.
        apply reached_top in Hr as [[-> _]|(? & ? & ? & _ & ? & _)]; congruence. }
    destruct e as [e|].
    { cbn [walkDir IsDir] in Hw. rewrite dirsCallback_dir, Hskip in Hw.
      destruct (negb (shouldSkip Match m p)); discriminate. }
    rewrite walkDir_Dir, dirsCallback_dir, Hskip in Hw.
    set (new1 := if negb (shouldSkip Match m p) then [p] else []).
    assert (Hw' : walkList (dirsCallback Match m) p children (dirs ++ new1) = (dirs', None)).
    { subst new1. destruct (negb (shouldSkip Match m p)); [exact Hw|].
      now rewrite app_nil_r. }
    clear Hw.
    assert (Hloop : forall acc acc',
              walkList (dirsCallback Match m) p children acc = (acc', None) ->
              exists new, acc' = acc ++ new /\
                (forall q, In q new <->
                   exists c, In c children /\ collectable Match m c (Join p (nodeName c)) q) /\
                (forall c q name e ch, In c children ->
                   reached m c (Join p (nodeName c)) q (Dir name e ch) ->
                   shouldSkipDir m q = false -> e = None)).
    { clear Hw'. induction IH as [|c rest Hc _ IHrest]; intros acc acc' Hl.
      - cbn in Hl. injection Hl as <-. exists []. rewrite app_nil_r.
        split; [reflexivity|]. split.
        + intros q. split; [contradiction|]. now intros (c & [] & _).
        + now intros c q name e ch [].
      - cbn [walkList] in Hl.
        pose proof (walkDir_dirs_result c (Join p (nodeName c)) acc) as Hres.
        destruct (walkDir (dirsCallback Match m) (Join p (nodeName c)) c acc)
          as [acc1 r1] eqn:Hwc.
        cbn [snd] in Hres. destruct Hres as [->|[e1 ->]]; [|discriminate].
        destruct (Hc _ _ _ Hwc) as (n1 & -> & Hn1 & He1).
        destruct (IHrest _ _ Hl) as (n2 & -> & Hn2 & He2).
        exists (n1 ++ n2). rewrite app_assoc. split; [reflexivity|]. split.
        + intros q. rewrite in_app_iff, Hn1, Hn2. split.
          * intros [H|(c' & Hin & H)]; [exists c; split; [now left | exact H]|].
            exists c'. split; [now right | exact H].
          * intros (c' & [<-|Hin] & H); [now left|]. right. now exists c'.
        + intros c' q name e ch [<-|Hin]; [apply He1 | now apply He2]. }
    destruct (Hloop _ _ Hw') as (n2 & -> & Hn2 & He2).
    exists (new1 ++ n2). rewrite app_assoc. split; [reflexivity|]. split.
    + intros q. rewrite in_app_iff, Hn2. split.
      * intros [H|(c & Hin & x & Hr & Hx)].
        -- subst new1. destruct (shouldSkip Match m p) eqn:Hsoft; cbn in H; [contradiction|].
           destruct H as [<-|[]]. exists (Dir dname None children).
           repeat split; try assumption. constructor.
        -- exists x. split; [|exact Hx]. now apply (reached_down dname children c).
      * intros (x & Hr & Hd & Hs & Hsoft).
        apply reached_top in Hr as [[-> ->]|(name & ch & c & Heq & _ & Hin & Hr)].
        -- left. subst new1. rewrite Hsoft. now left.
        -- right. injection Heq as <- <-. exists c. split; [assumption|]. now exists x.
    + intros q name e ch Hr Hs.
      apply reached_top in Hr as [[-> Heq]|(name' & ch' & c & Heq & _ & Hin & Hr)].
      * now injection Heq.
      * injection Heq as <- <-. now apply (He2 c q name e ch).
Qed.

End ReachedFacts.

Section DiscoveredDirs.
Variable Match : string -> string -> bool.
Variable m : Migrate.

(** What a successful walk collected, and that it could list every
    directory it went into. *)
Lemma getMigrationDirs_reached (root : Node) (dirs : list string) :
  getMigrationDirs Match m (Mounted root) = Ok dirs ->
  (forall q, In q dirs <-> collectable Match m root "." q) /\
  (forall q name e children,
     reached m root "." q (Dir name e children) -> shouldSkipDir m q = false -> e = None).
Proof.
  unfold getMigrationDirs, WalkDir. intros H.
  pose proof (walkDir_dirs_result Match m root "." []) as Hres.
  destruct (walkDir (dirsCallback Match m) "." root []) as [acc r] eqn:Hw.
  cbn [snd] in Hres. destruct Hres as [->|[e ->]]; [|discriminate].
  injection H as ->.
  destruct (walk_exact Match m root _ _ _ Hw) as (new & -> & Hnew & He).
  now split.
Qed.

Lemma shouldSkipDir_no_skip (path : string) : Skip m = [] -> shouldSkipDir m path = false.
Proof. intros H. rewrite shouldSkipDir_existsb, H. reflexivity. Qed.

Lemma shouldSkip_no_skip (path : string) : Skip m = [] -> shouldSkip Match m path = false.
Proof. intros H. rewrite shouldSkip_existsb, H. reflexivity. Qed.

(** X1.  When [getMigrationDirs] returns without error, the directories it
    returns are exactly these: the directories of the tree that the walk
    reaches (the root, and every entry of a reached directory that is not
    pruned by [shouldSkipDir]), that [shouldSkipDir] does not prune
    themselves and that no skip pattern matches ([shouldSkip]). *)
Theorem discovered_dirs_exact (root : Node) (dirs : list string) :
  getMigrationDirs Match m (Mounted root) = Ok dirs ->
  forall q, In q dirs <->
    exists x, reached m root "." q x /\ IsDir x = true /\
              shouldSkipDir m q = false /\ shouldSkip Match m q = false.
Proof. intros H q. now apply (getMigrationDirs_reached root dirs H). Qed.

(** X2.  With an empty [Skip] list a walk that ends without error returns
    every directory of the tree, the root included and at every depth, and
    nothing else: no file, and no path that is not in the tree. *)
Theorem all_directories_discovered (root : Node) (dirs : list string) :
  Skip m = [] ->
  getMigrationDirs Match m (Mounted root) = Ok dirs ->
  forall q, In q dirs <-> exists x, located root "." q x /\ IsDir x = true.
Proof.
  intros Hskip Hget q.
  destruct (getMigrationDirs_reached root dirs Hget) as [Hdirs Hnone].
  rewrite Hdirs. unfold collectable. split.
  - intros (x & Hr & Hx & _). exists x. split; [now apply (reached_located m) | exact Hx].
  - intros (x & Hloc & Hx). exists x.
    split_and!; [| exact Hx | now apply shouldSkipDir_no_skip | now apply shouldSkip_no_skip].
    clear Hx. induction Hloc as [|q name e children c _ IH Hin]; [constructor|].
    pose proof (Hnone _ _ _ _ IH (shouldSkipDir_no_skip q Hskip)) as ->.
    apply (reached_child m root "." q name children c);
      [exact IH | now apply shouldSkipDir_no_skip | exact Hin].
Qed.
End DiscoveredDirs.

(** ** Paths and the entries they lead to *)

Section Resolve.

(** The entries of a well-formed tree are well-formed, and carry base
    names. *)
Lemma located_wfNode (root x : Node) (p q : string) :
  wfNode root -> located root p q x -> wfNode x.
Proof.
  intros Hwf. induction 1 as [|q name e children c _ IH Hin]; [assumption|].
  apply wfNode_Dir in IH. rewrite List.Forall_forall in IH. now apply IH.
Qed.

Lemma located_validName (root : Node) (p q name : string) (e : option error)
    (children : list Node) (c : Node) :
  wfNode root -> located root p q (Dir name e children) -> In c children ->
  validName (nodeName c) = true.
Proof.
  intros Hwf Hloc Hin. apply (located_wfNode _ _ _ _ Hwf) in Hloc.
  apply wfNode_Dir in Hloc. rewrite List.Forall_forall in Hloc. now apply Hloc.
Qed.

Lemma located_distinctNames (root x : Node) (p q : string) :
  distinctNames root -> located root p q x -> distinctNames x.
Proof.
  intros Hd. induction 1 as [|q name e children c _ IH Hin]; [assumption|].
  apply distinctNames_Dir in IH as [_ IH]. rewrite List.Forall_forall in IH. now apply IH.
Qed.

(** Among entries with different names a name finds its entry. *)
Lemma findEntry_distinct (children : list Node) (c : Node) :
  NoDup (map nodeName children) -> In c children ->
  findEntry (nodeName c) children = Some c.
Proof.
  induction children as [|c' rest IH]; intros Hnd Hin; [contradiction|].
  cbn [map] in Hnd. apply NoDup_cons in Hnd as [Hnotin Hnd]. cbn [findEntry].
  destruct Hin as [->|Hin]; [now rewrite String.eqb_refl|].
  destruct (String.eqb (nodeName c') (nodeName c)) eqn:E; [|now apply IH].
  apply String.eqb_eq in E. exfalso. apply Hnotin. rewrite E.
  apply list_elem_of_In, in_map, Hin.
Qed.

Lemma resolve_snoc (segs : list string) (s : string) :
  forall n, resolve (segs ++ [s]) n =
            match resolve segs n with
            | Some (Dir _ _ children) => findEntry s children
            | _ => None
            end.
Proof.
  induction segs as [|seg rest IH]; intros n.
  - cbn. destruct n as [|? ? children]; [reflexivity|]. now destruct (findEntry s children).
  - cbn [app resolve]. destruct n as [|? ? children]; [reflexivity|].
    destruct (findEntry seg children); [apply IH | reflexivity].
Qed.

(** The segments [open] follows for a path. *)
Lemma open_segments_Join (q c : string) :
  validName c = true ->
  (if String.eqb (Join q c) "." then [] else segments (Join q c)) =
  (if String.eqb q "." then [] else segments q) ++ [c].
Proof.
  intros Hc. pose proof (validName_no_slash _ Hc) as Hs. unfold Join.
  destruct (String.eqb q ".") eqn:Eq.
  - assert (String.eqb c "." = false) as ->
      by (apply String.eqb_neq; now apply validName_not_dot).
    now rewrite segments_plain.
  - assert (String.eqb (q +:+ "/" +:+ c) "." = false) as ->.
    { apply String.eqb_neq. intros H.
      assert (Hc' : contains_byte slash (q +:+ "/" +:+ c) = true).
      { rewrite contains_byte_app. apply orb_true_iff. right. reflexivity. }
      rewrite H in Hc'. discriminate. }
    now rewrite segments_app, (segments_plain c Hs).
Qed.

(** In a tree whose sibling entries have different names, a path leads to
    the entry located at it. *)
Lemma located_open (root x : Node) (q : string) :
  wfNode root -> distinctNames root ->
  located root "." q x -> open (Mounted root) q = Ok x.
Proof.
  intros Hwf Hd. unfold open.
  induction 1 as [|q name e children c Hloc IH Hin]; [reflexivity|].
  pose proof (located_validName _ _ _ _ _ _ _ Hwf Hloc Hin) as Hvc.
  pose proof (located_distinctNames _ _ _ _ Hd Hloc) as Hdd.
  apply distinctNames_Dir in Hdd as [Hnd _].
  rewrite (open_segments_Join q _ Hvc), resolve_snoc.
  destruct (resolve (if String.eqb q "." then [] else segments q) root) as [n|];
    [|discriminate].
  injection IH as ->. now rewrite (findEntry_distinct children c Hnd Hin).
Qed.

Lemma located_ReadDir (root : Node) (q name : string) (children : list Node) :
  wfNode root -> distinctNames root ->
  located root "." q (Dir name None children) ->
  ReadDir (Mounted root) q = Ok children.
Proof.
  intros Hwf Hd Hloc. unfold ReadDir. now rewrite (located_open _ _ _ Hwf Hd Hloc).
Qed.

End Resolve.

(** ** The file list of a directory *)

Section FileLists.
Variable Match : string -> string -> bool.
Variable m : Migrate.

Lemma fullPath_Join (dir name : string) :
  (if negb (String.eqb dir ".") then Join dir name else name) = Join dir name.
Proof. unfold Join. now destruct (String.eqb dir "."). Qed.

Lemma collectFiles_keeps (dir : string) (entries : list Node) :
  forall (files : list FileInfo) (f : FileInfo),
    In f files -> In f (collectFiles Match m dir entries files).
Proof.
  induction entries as [|entry rest IH]; intros files f Hin; [assumption|].
  cbn [collectFiles]. destruct (IsDir entry); [now apply IH|].
  destruct (shouldSkip Match m _); [now apply IH|].
  destruct (_ && _); [now apply IH|].
  destruct (extractLeadingNumber (nodeName entry)) as [n s].
  destruct (0 <? n); apply IH; [apply in_or_app; now left | assumption].
Qed.

(** Every file the loop appends stands for an entry that is not a
    directory, that no skip pattern matches and whose name starts with a
    positive number. *)
Lemma collectFiles_sound (dir : string) (entries : list Node) :
  forall (files : list FileInfo) (f : FileInfo),
    In f (collectFiles Match m dir entries files) ->
    In f files \/
    exists entry, In entry entries /\ IsDir entry = false /\
      f = mkFileInfo (nodeName entry) (fst (extractLeadingNumber (nodeName entry))) /\
      0 < Version f /\
      shouldSkip Match m (Join dir (nodeName entry)) = false.
Proof.
  induction entries as [|entry rest IH]; intros files f Hin; [now left|].
  cbn [collectFiles] in Hin. rewrite fullPath_Join in Hin.
  assert (Hrest : In f (collectFiles Match m dir rest files) ->
                  In f files \/
                  exists entry0, In entry0 (entry :: rest) /\ IsDir entry0 = false /\
                    f = mkFileInfo (nodeName entry0)
                          (fst (extractLeadingNumber (nodeName entry0))) /\
                    0 < Version f /\
                    shouldSkip Match m (Join dir (nodeName entry0)) = false).
  { intros H. apply IH in H as [H|(e0 & H0 & H)]; [now left|].
    right. exists e0. split; [now right | exact H]. }
  destruct (IsDir entry) eqn:Hd; [now apply Hrest|].
  destruct (shouldSkip Match m (Join dir (nodeName entry))) eqn:Hs; [now apply Hrest|].
  destruct (_ && _); [now apply Hrest|].
  destruct (extractLeadingNumber (nodeName entry)) as [n s] eqn:Hn.
  destruct (0 <? n) eqn:Hpos; [|now apply Hrest].
  apply IH in Hin as [Hin|(e0 & H0 & H)].
  - apply in_app_or in Hin as [Hin|[<-|[]]]; [now left|].
    right. exists entry. rewrite Hn. cbn. repeat split; auto. now apply Z.ltb_lt.
  - right. exists e0. split; [now right | exact H].
Qed.

(** Without an extension filter every such entry is appended. *)
Lemma collectFiles_complete (dir : string) (entries : list Node) (entry : Node) :
  Extension m = EmptyString ->
  In entry entries -> IsDir entry = false ->
  0 < fst (extractLeadingNumber (nodeName entry)) ->
  shouldSkip Match m (Join dir (nodeName entry)) = false ->
  forall files,
    In (mkFileInfo (nodeName entry) (fst (extractLeadingNumber (nodeName entry))))
       (collectFiles Match m dir entries files).
Proof.
  intros Hext Hin Hd Hpos Hs.
  induction entries as [|e0 rest IH]; intros files; [contradiction|].
  cbn [collectFiles]. rewrite fullPath_Join.
  destruct Hin as [->|Hin].
  - rewrite Hd, Hs, Hext. cbn [String.eqb negb andb].
    destruct (extractLeadingNumber (nodeName entry)) as [n s]. cbn [fst] in *.
    apply Z.ltb_lt in Hpos. rewrite Hpos.
    apply collectFiles_keeps, in_or_app. right. now left.
  - destruct (IsDir e0); [now apply IH|].
    destruct (shouldSkip Match m (Join dir (nodeName e0))); [now apply IH|].
    destruct (_ && _); [now apply IH|].
    destruct (extractLeadingNumber (nodeName e0)) as [n s].
    destruct (0 <? n); now apply IH.
Qed.

(** X3.  Where [fs.ReadDir] lists the directory, [getMigrationFiles]
    succeeds, and each file it returns stands for an entry of the listing
    that is not a directory, whose path [dir/name] (the bare name under the
    root) no skip pattern matches, and whose name starts with a positive
    number, which is the file's version; the file's path is the entry's
    name.  When no [Extension] is configured the converse holds: every such
    entry is returned. *)
Theorem migration_files_exact (fileSystem : FS) (dir : string) (entries : list Node) :
  ReadDir fileSystem dir = Ok entries ->
  exists files,
    getMigrationFiles Match m fileSystem dir = Ok files /\
    (forall f, In f files ->
       exists entry, In entry entries /\ IsDir entry = false /\
         f = mkFileInfo (nodeName entry) (fst (extractLeadingNumber (nodeName entry))) /\
         0 < Version f /\
         shouldSkip Match m (Join dir (nodeName entry)) = false) /\
    (Extension m = EmptyString ->
     forall entry, In entry entries -> IsDir entry = false ->
       0 < fst (extractLeadingNumber (nodeName entry)) ->
       shouldSkip Match m (Join dir (nodeName entry)) = false ->
       In (mkFileInfo (nodeName entry) (fst (extractLeadingNumber (nodeName entry)))) files).
Proof.
  intros Hrd. unfold getMigrationFiles. rewrite Hrd.
  exists (sortMigrationFiles (collectFiles Match m dir entries [])).
  split; [reflexivity|]. unfold sortMigrationFiles. split.
  - intros f Hin. apply SortFunc_In in Hin.
    apply collectFiles_sound in Hin as [[]|H]. exact H.
  - intros Hext entry Hin Hd Hpos Hs. apply SortFunc_In.
    now apply collectFiles_complete.
Qed.

(** X4.  The name of every file [getMigrationFiles] returns starts with a
    digit, and its leading digit run denotes a number between 1 and the
    largest [int], which is the file's version.  A name whose digit run
    denotes 0 (as in [0_init.sql] or [000.sql]) or a number beyond the
    [int] range is never returned. *)
Theorem migration_file_names (fileSystem : FS) (dir : string) (files : list FileInfo)
    (f : FileInfo) :
  getMigrationFiles Match m fileSystem dir = Ok files ->
  In f files ->
  startsWithDigit (FPath f) = true /\
  1 <= run_value (leadingDigits (FPath f)) <= maxInt /\
  Version f = run_value (leadingDigits (FPath f)).
Proof.
  unfold getMigrationFiles. destruct (ReadDir fileSystem dir) as [entries|e]; [|discriminate].
  intros [= <-] Hin. apply SortFunc_In in Hin.
  apply collectFiles_sound in Hin as [[]|(entry & _ & _ & -> & Hpos & _)].
  cbn [FPath Version] in *. rewrite extractLeadingNumber_fst in *.
  destruct (Z.leb_spec (run_value (leadingDigits (nodeName entry))) maxInt); [|lia].
  split; [|lia].
  destruct (nodeName entry) as [|ch r]; cbn in *; [lia|].
  destruct (isDigit ch); [reflexivity | cbn in Hpos; lia].
Qed.
End FileLists.

(** ** The yielded sequence as a whole *)

Section YieldedSets.
Variable Match : string -> string -> bool.
Variable m : Migrate.

(** A collected directory can be listed again. *)
Lemma getMigrationDirs_ReadDir (root : Node) (dirs : list string) (q : string) :
  wfNode root -> distinctNames root ->
  getMigrationDirs Match m (Mounted root) = Ok dirs -> In q dirs ->
  exists name children,
    located root "." q (Dir name None children) /\
    ReadDir (Mounted root) q = Ok children.
Proof.
  intros Hwf Hd Hget Hin.
  destruct (getMigrationDirs_reached Match m root dirs Hget) as [Hdirs Hnone].
  apply Hdirs in Hin as (x & Hr & Hx & Hs & _).
  destruct x as [|name e children]; [discriminate|].
  pose proof (Hnone _ _ _ _ Hr Hs) as ->.
  apply reached_located in Hr. exists name, children.
  split; [assumption | now apply (located_ReadDir root q name)].
Qed.

(** Every item stands for a collected directory. *)
Lemma iterMigrationInfo_In (fileSystem : FS) (i : Item) (dirs : list string) :
  getMigrationDirs Match m fileSystem = Ok dirs ->
  In i (iterMigrationInfo Match m fileSystem) ->
  exists dir, In dir dirs /\
    i = match getMigrationFiles Match m fileSystem dir with
        | Err e => Fail e
        | Ok files => Yield (mkMuzo dir files fileSystem)
        end.
Proof.
  unfold iterMigrationInfo. intros ->. intros H. apply in_map_iff in H as (dir & <- & Hin).
  exists dir. split; [|reflexivity]. apply (proj1 (sortDirs_In m dirs dir)), Hin.
Qed.

Lemma yieldedDirs_map_NoDup (f : string -> Item) (l : list string) :
  (forall dir info, f dir = Yield info -> MDir info = dir) ->
  NoDup l -> NoDup (yieldedDirs (map f l)).
Proof.
  intros Hf. induction 1 as [|dir l Hnotin Hnd IH]; [constructor|].
  unfold yieldedDirs in *. cbn [map omap].
  destruct (f dir) as [info|e] eqn:E; [|exact IH].
  cbn. rewrite (Hf _ _ E). constructor; [|exact IH].
  intros Hin. apply Hnotin. apply list_elem_of_omap in Hin as (i & Hi & Hm).
  apply list_elem_of_In, in_map_iff in Hi as (dir' & <- & Hin').
  destruct (f dir') as [info'|] eqn:E'; [|discriminate].
  injection Hm as <-. rewrite (Hf _ _ E'). now apply list_elem_of_In.
Qed.

(** X5.  Over a tree that does not change while it is read (entry names
    are base names, sibling entries have different names), the iteration
    is all or nothing: either the directory walk fails and the only item
    is that error, or every item is a MigrationSet.  A directory the walk
    collected was listed by the walk, so listing it again for its files
    cannot fail. *)
Theorem discovery_all_or_nothing (fileSystem : FS) :
  (forall root, fileSystem = Mounted root -> wfNode root /\ distinctNames root) ->
  (exists e, iterMigrationInfo Match m fileSystem = [Fail e]) \/
  (forall e, ~ In (Fail e) (iterMigrationInfo Match m fileSystem)).
Proof.
  intros Hfs. destruct (getMigrationDirs Match m fileSystem) as [dirs|e] eqn:Hget.
  2:{ left. exists e. unfold iterMigrationInfo. now rewrite Hget. }
  right. intros e Hin.
  destruct (iterMigrationInfo_In _ _ _ Hget Hin) as (dir & Hdir & Heq).
  destruct fileSystem as [e0|root]; [discriminate|].
  destruct (Hfs root eq_refl) as [Hwf Hd].
  destruct (getMigrationDirs_ReadDir root dirs dir Hwf Hd Hget Hdir)
    as (name & children & _ & Hrd).
  unfold getMigrationFiles in Heq. rewrite Hrd in Heq. discriminate.
Qed.

(** X6.  No directory is yielded twice: the sets of one iteration have
    pairwise different directories. *)
Theorem yielded_dirs_distinct (root : Node) :
  wfNode root -> distinctNames root ->
  NoDup (yieldedDirs (iterMigrationInfo Match m (Mounted root))).
Proof.
  intros Hwf Hd. unfold iterMigrationInfo.
  destruct (getMigrationDirs Match m (Mounted root)) as [dirs|e] eqn:Hget; [|constructor].
  apply yieldedDirs_map_NoDup.
  - intros dir info. destruct (getMigrationFiles Match m (Mounted root) dir); [|discriminate].
    now intros [= <-].
  - rewrite (sortDirs_Permutation m dirs).
    now apply (getMigrationDirs_NoDup Match m root).
Qed.

(** X7.  Every file of every yielded set is there to be read: the tree
    holds a file entry at the set's directory joined with the file's path
    (the bare path for the root set), [Open] returns that entry and
    [ReadFile] returns its content (or the entry's own read error). *)
Theorem discovered_file_readable (root : Node) (info : Muzo) (f : FileInfo) :
  wfNode root -> distinctNames root ->
  In (Yield info) (iterMigrationInfo Match m (Mounted root)) ->
  In f (Files info) ->
  exists content,
    located root "." (Join (MDir info) (FPath f)) (File (FPath f) content) /\
    Open info (FPath f) = Ok (File (FPath f) content) /\
    ReadFile info (FPath f) = content.
Proof.
  intros Hwf Hd Hin Hf.
  destruct (getMigrationDirs Match m (Mounted root)) as [dirs|e] eqn:Hget.
  2:{ unfold iterMigrationInfo in Hin. rewrite Hget in Hin. now destruct Hin as [|[]]. }
  destruct (iterMigrationInfo_In _ _ _ Hget Hin) as (dir & Hdir & Heq).
  destruct (getMigrationDirs_ReadDir root dirs dir Hwf Hd Hget Hdir)
    as (name & children & Hloc & Hrd).
  unfold getMigrationFiles in Heq. rewrite Hrd in Heq. injection Heq as ->.
  cbn [Files MDir] in *. apply SortFunc_In in Hf.
  apply collectFiles_sound in Hf as [[]|(entry & Hentry & Hfile & -> & _)].
  destruct entry as [fname content|]; [|discriminate]. cbn [nodeName FPath].
  exists content.
  pose proof (located_child root "." dir name None children _ Hloc Hentry) as Hlc.
  cbn [nodeName] in Hlc. split; [exact Hlc|].
  unfold Open, ReadFile, ReadFile_fs. cbn [mfs MDir].
  now rewrite (located_open root _ _ Hwf Hd Hlc).
Qed.
End YieldedSets.

(** ** The leading separator of [Skip] and [Order] entries *)

Section WalkExt.
Context {A : Type}.
Variables fn1 fn2 : string -> bool -> option error -> A -> A * option WalkErr.
Hypothesis fn_ext : forall p d e acc, fn1 p d e acc = fn2 p d e acc.

(** The walk depends on its callback only through the callback's results. *)
Lemma walkDir_ext (n : Node) :
  forall (name : string) (acc : A), walkDir fn1 name n acc = walkDir fn2 name n acc.
Proof.
  induction n as [fname content|dname e children IH] using Node_induction; intros name acc.
  - cbn [walkDir IsDir]. now rewrite fn_ext.
  - destruct e as [e|].
    + cbn [walkDir IsDir]. rewrite fn_ext.
      destruct (fn2 name true None acc) as [acc1 [err|]]; [reflexivity|]. now rewrite fn_ext.
    + rewrite !walkDir_Dir, fn_ext.
      destruct (fn2 name true None acc) as [acc1 [[| |e]|]]; try reflexivity.
      revert acc1. induction IH as [|c rest Hc _ IHrest]; intros acc1; [reflexivity|].
      cbn [walkList]. rewrite Hc.
      destruct (walkDir fn2 (Join name (nodeName c)) c acc1) as [acc' [[| |e]|]];
        try reflexivity.
      apply IHrest.
Qed.

Lemma WalkDir_ext (fsys : FS) (acc : A) : WalkDir fn1 fsys acc = WalkDir fn2 fsys acc.
Proof. unfold WalkDir. destruct fsys; [now rewrite fn_ext | now rewrite walkDir_ext]. Qed.
End WalkExt.

Section SlashFacts.
Variable Match : string -> string -> bool.
Variables m1 m2 : Migrate.
Hypothesis skip_eq :
  map (fun s => TrimPrefix s "/") (Skip m1) = map (fun s => TrimPrefix s "/") (Skip m2).
Hypothesis order_eq : orderKeys m1 = orderKeys m2.
Hypothesis ext_eq : Extension m1 = Extension m2.

Lemma shouldSkip_slash (path : string) : shouldSkip Match m1 path = shouldSkip Match m2 path.
Proof.
  rewrite !shouldSkip_existsb. revert skip_eq.
  generalize (Skip m1) (Skip m2). induction l as [|s l IH]; intros [|s' l'] H;
    try discriminate; [reflexivity|].
  cbn [map] in H. injection H as Hs Hl. cbn [existsb]. now rewrite Hs, (IH l' Hl).
Qed.

Lemma shouldSkipDir_slash (path : string) : shouldSkipDir m1 path = shouldSkipDir m2 path.
Proof.
  rewrite !shouldSkipDir_existsb. revert skip_eq.
  generalize (Skip m1) (Skip m2). induction l as [|s l IH]; intros [|s' l'] H;
    try discriminate; [reflexivity|].
  cbn [map] in H. injection H as Hs Hl. cbn [existsb]. unfold hardSkip at 1 3.
  cbv zeta. now rewrite Hs, (IH l' Hl).
Qed.

Lemma buildOrderMap_slash (o1 : list string) :
  forall (o2 : list string) (i : Z) (om : gmap string Z),
    map (fun o => TrimPrefix o "/") o1 = map (fun o => TrimPrefix o "/") o2 ->
    buildOrderMap i o1 om = buildOrderMap i o2 om.
Proof.
  induction o1 as [|a o1 IH]; intros [|b o2] i om H; try discriminate; [reflexivity|].
  cbn [map] in H. injection H as Ha Ho. cbn [buildOrderMap]. rewrite Ha. now apply IH.
Qed.

Lemma sortDirs_slash (dirs : list string) : sortDirs m1 dirs = sortDirs m2 dirs.
Proof.
  unfold sortDirs. rewrite (buildOrderMap_slash (Order m1) (Order m2) 0 ∅ order_eq).
  unfold orderKeys in order_eq.
  destruct (Order m1), (Order m2); try discriminate; reflexivity.
Qed.

Lemma collectFiles_slash (dir : string) (entries : list Node) :
  forall files, collectFiles Match m1 dir entries files = collectFiles Match m2 dir entries files.
Proof.
  induction entries as [|entry rest IH]; intros files; [reflexivity|].
  cbn [collectFiles]. rewrite shouldSkip_slash, ext_eq.
  destruct (IsDir entry); [apply IH|].
  destruct (shouldSkip Match m2 _); [apply IH|].
  destruct (_ && _); [apply IH|].
  destruct (extractLeadingNumber (nodeName entry)) as [n s].
  destruct (0 <? n); apply IH.
Qed.

Lemma iterMigrationInfo_slash (fileSystem : FS) :
  iterMigrationInfo Match m1 fileSystem = iterMigrationInfo Match m2 fileSystem.
Proof.
  unfold iterMigrationInfo, getMigrationDirs.
  rewrite (WalkDir_ext (dirsCallback Match m1) (dirsCallback Match m2)).
  2:{ intros p d e acc. unfold dirsCallback.
      now rewrite shouldSkipDir_slash, shouldSkip_slash. }
  destruct (WalkDir (dirsCallback Match m2) fileSystem []) as [dirs [e|]]; [reflexivity|].
  rewrite sortDirs_slash. apply map_ext. intros dir.
  unfold getMigrationFiles. destruct (ReadDir fileSystem dir); [|reflexivity].
  now rewrite collectFiles_slash.
Qed.
End SlashFacts.

(** X8.  [Skip] and [Order] are read through [strings.TrimPrefix(entry, "/")]
    only: two configurations whose entries agree once one leading ["/"] is
    stripped, and that have the same [Extension], yield the same sequence
    over the same tree.  Writing ["/test"] or ["test"] makes no difference. *)
Theorem leading_slash_irrelevant (Match : string -> string -> bool) (m1 m2 : Migrate)
    (fileSystem : FS) :
  map (fun s => TrimPrefix s "/") (Skip m1) = map (fun s => TrimPrefix s "/") (Skip m2) ->
  map (fun o => TrimPrefix o "/") (Order m1) = map (fun o => TrimPrefix o "/") (Order m2) ->
  Extension m1 = Extension m2 ->
  iterMigrationInfo Match m1 fileSystem = iterMigrationInfo Match m2 fileSystem.
Proof. intros Hs Ho He. now apply iterMigrationInfo_slash. Qed.

(** ** The order of directories without [Order], and the order of files *)

Lemma Compare_prefix (p s : string) : Compare p (p +:+ s) <= 0.
Proof.
  unfold Compare. induction p as [|c p IH].
  - rewrite append_empty_l. destruct s; cbn; lia.
  - rewrite append_cons. cbn [String.compare].
    unfold Ascii.compare. rewrite N.compare_refl. exact IH.
Qed.

Section Before.
Context {A : Type}.
Variable R : relation A.

(** In a sorted list an element that cannot come second comes first. *)
Lemma StronglySorted_before (l : list A) (a b : A) :
  StronglySorted R l -> In a l -> In b l -> a <> b -> ~ R b a ->
  exists l1 l2 l3, l = l1 ++ a :: l2 ++ b :: l3.
Proof.
  intros Hs Ha Hb Hne Hnr.
  apply in_split in Hb as (l1' & l3 & ->).
  apply StronglySorted_app in Hs as (_ & _ & Hs).
  apply StronglySorted_cons in Hs as [Hb _]. rewrite Forall_forall in Hb.
  apply in_app_or in Ha as [Ha|[Ha|Ha]].
  - apply in_split in Ha as (l1 & l2 & ->). exists l1, l2, l3.
    now rewrite <- app_assoc.
  - congruence.
  - exfalso. apply Hnr, Hb. now apply list_elem_of_In.
Qed.
End Before.

(** X9.  With an empty [Order], [sortDirs] returns its input in ascending
    bytewise order: the result is a permutation of the input, no element
    compares above a later one, and it is the only list with these two
    properties, so it does not depend on the sorting algorithm. *)
Theorem sortDirs_lexical (m : Migrate) (dirs : list string) :
  Order m = [] ->
  sortDirs m dirs ≡ₚ dirs /\
  StronglySorted (fun a b => Compare a b <= 0) (sortDirs m dirs) /\
  (forall l', l' ≡ₚ dirs -> StronglySorted (fun a b => Compare a b <= 0) l' ->
              l' = sortDirs m dirs).
Proof.
  intros Ho. unfold sortDirs. rewrite Ho. split_and!.
  - apply SortFunc_Permutation.
  - apply (SortFunc_sorted Compare Compare_flip Compare_trans).
  - intros l' Hp Hs.
    apply (SortFunc_unique Compare Compare_flip Compare_trans); try assumption.
    intros a b _ _. apply Compare_antisym.
Qed.

(** X10.  With an empty [Order] a directory comes before the directories
    below it: if [p] and [p/r] are both among the directories, [p] stands
    earlier in the result of [sortDirs].  (The root is ["."], not a prefix
    of the other paths, and is not covered by this.) *)
Theorem parent_before_descendant (m : Migrate) (dirs : list string) (p r : string) :
  Order m = [] ->
  In p dirs -> In (p +:+ "/" +:+ r) dirs ->
  exists l1 l2 l3, sortDirs m dirs = l1 ++ p :: l2 ++ (p +:+ "/" +:+ r) :: l3.
Proof.
  intros Ho Hp Hq.
  apply (StronglySorted_before (fun a b => Compare a b <= 0)).
  - unfold sortDirs. rewrite Ho. apply (SortFunc_sorted Compare Compare_flip Compare_trans).
  - now apply sortDirs_In.
  - now apply sortDirs_In.
  - intros H. symmetry in H. now apply append_neq_self in H.
  - intros H. pose proof (Compare_prefix p ("/" +:+ r)) as H'.
    pose proof (Compare_antisym _ _ H' H) as E. symmetry in E.
    now apply append_neq_self in E.
Qed.

(** X11.  The comparison of [sortMigrationFiles] never wraps around: both
    leading numbers lie between 0 and the largest [int], so [aNum - bNum]
    on machine integers is the exact difference.  The comparison is
    negative exactly when the first file has the smaller number, or the
    same number and the bytewise smaller base name. *)
Theorem fileCmp_no_wraparound (a b : FileInfo) :
  fileCmpInt a b = fileCmp a b /\
  (fileCmp a b < 0 <->
   fst (extractLeadingNumber (Base (FPath a))) < fst (extractLeadingNumber (Base (FPath b))) \/
   (fst (extractLeadingNumber (Base (FPath a))) = fst (extractLeadingNumber (Base (FPath b))) /\
    Compare (Base (FPath a)) (Base (FPath b)) < 0)).
Proof.
  unfold fileCmpInt. rewrite fileCmp_eq.
  pose proof (extractLeadingNumber_nonneg (Base (FPath a))) as Ha.
  pose proof (extractLeadingNumber_nonneg (Base (FPath b))) as Hb.
  pose proof (extractLeadingNumber_snd (Base (FPath a))) as Sa.
  pose proof (extractLeadingNumber_snd (Base (FPath b))) as Sb.
  destruct (extractLeadingNumber (Base (FPath a))) as [aNum aName].
  destruct (extractLeadingNumber (Base (FPath b))) as [bNum bName].
  cbn [fst snd] in *. subst aName bName. unfold maxInt in *.
  destruct (Z.eqb_spec aNum bNum) as [E|E]; cbn [negb].
  - split; [reflexivity|]. lia.
  - split; [|lia]. unfold wrapInt. rewrite Z.mod_small; lia.
Qed.

(** ** The earlier revision of discovery *)

Section LegacyFacts.
Variable Match : string -> string -> bool.
Variable m : Migrate.
Hypothesis literal : forall skip, In skip (Skip m) -> literalSkip Match skip.

Lemma Legacy_dirsCallback_dir (path : string) (dirs : list string) :
  Legacy.dirsCallback m path true None dirs =
  if String.eqb path "." then (dirs, None)
  else if legacySkipped m path then (dirs, Some SkipDir)
       else (dirs ++ [path], None).
Proof.
  unfold Legacy.dirsCallback, legacySkipped. cbn [negb].
  destruct (String.eqb path "."); [reflexivity|].
  assert (E : (fix loop (skips : list string) : bool :=
                 match skips with
                 | [] => false
                 | skip :: rest =>
                     let skipPath := TrimPrefix skip "/" in
                     if String.eqb path skipPath || HasPrefix path (skipPath +:+ "/")
                     then true
                     else loop rest
                 end) (Skip m) =
              existsb (fun skip => String.eqb path (TrimPrefix skip "/") ||
                                   HasPrefix path (TrimPrefix skip "/" +:+ "/")) (Skip m)).
  { clear literal. induction (Skip m) as [|s l IH]; [reflexivity|]. cbn [existsb]. cbv zeta.
    destruct (String.eqb path (TrimPrefix s "/") || HasPrefix path (TrimPrefix s "/" +:+ "/"));
      [reflexivity | exact IH]. }
  cbv zeta in E. now rewrite E.
Qed.

(** Outside the subtrees of the skip entries both revisions decide alike:
    a directory is pruned when it is one of the entries, and collected
    otherwise. *)
Lemma literal_decisions (path : string) :
  (forall skip, In skip (Skip m) -> notStrict (TrimPrefix skip "/") path) ->
  legacySkipped m path = shouldSkipDir m path /\
  (shouldSkipDir m path = false -> shouldSkip Match m path = false).
Proof.
  intros Hout. rewrite shouldSkipDir_existsb, shouldSkip_existsb. unfold legacySkipped.
  revert literal Hout. generalize (Skip m) as l.
  induction l as [|s l IH]; intros Hlit Hout; [now split|].
  destruct (IH (fun s' H => Hlit s' (or_intror H)) (fun s' H => Hout s' (or_intror H)))
    as [IH1 IH2].
  destruct (Hlit s (or_introl eq_refl)) as (_ & Hsuf & Hm).
  specialize (Hout s (or_introl eq_refl)).
  cbn [existsb]. unfold hardSkip at 1 3. cbv zeta. rewrite Hsuf. cbn [andb].
  assert (Hpre : HasPrefix path (TrimPrefix s "/" +:+ "/") = false).
  { destruct (HasPrefix path (TrimPrefix s "/" +:+ "/")) eqn:E; [|reflexivity].
    apply HasPrefix_true in E as [r E]. rewrite append_assoc in E.
    now apply Hout in E. }
  rewrite Hpre, !orb_false_r, (String.eqb_sym path). rewrite IH1. split; [reflexivity|].
  intros H. apply orb_false_iff in H as [H1 H2].
  rewrite (IH2 H2), orb_false_r.
  destruct (Match (TrimPrefix s "/") path) eqn:E; [|reflexivity].
  apply Hm in E. subst path. now rewrite String.eqb_refl in H1.
Qed.

Lemma Join_not_dot (p c : string) : validName c = true -> Join p c <> ".".
Proof.
  intros Hc. unfold Join. destruct (String.eqb p ".").
  - now apply validName_not_dot.
  - intros H.
    assert (Hs : contains_byte slash (p +:+ "/" +:+ c) = true).
    { rewrite contains_byte_app. apply orb_true_iff. right. reflexivity. }
    rewrite H in Hs. discriminate.
Qed.

Lemma walk_legacy (n : Node) :
  forall (p : string) (dirs dirs' : list string),
    wfNode n -> p <> "." ->
    (forall skip, In skip (Skip m) -> notStrict (TrimPrefix skip "/") p) ->
    exists new r,
      walkDir (dirsCallback Match m) p n dirs = (dirs ++ new, r) /\
      walkDir (Legacy.dirsCallback m) p n dirs' = (dirs' ++ new, r).
Proof.
  induction n as [fname content|dname e children IH] using Node_induction;
    intros p dirs dirs' Hwf Hp Hout.
  - exists [], None. cbn. now rewrite !app_nil_r.
  - destruct (literal_decisions p Hout) as [Hdec Hsoft].
    assert (Hdot : String.eqb p "." = false) by now apply String.eqb_neq.
    destruct (shouldSkipDir m p) eqn:Hskip.
    { exists [], None. rewrite !app_nil_r.
      destruct e; [cbn [walkDir IsDir] | rewrite !walkDir_Dir];
        rewrite Legacy_dirsCallback_dir, Hdot, Hdec; unfold dirsCallback; cbn [negb];
        rewrite Hskip; now split. }
    specialize (Hsoft eq_refl).
    assert (Hnew : dirsCallback Match m p true None dirs = (dirs ++ [p], None)).
    { unfold dirsCallback. cbn [negb]. now rewrite Hskip, Hsoft. }
    assert (Hold : Legacy.dirsCallback m p true None dirs' = (dirs' ++ [p], None)).
    { now rewrite Legacy_dirsCallback_dir, Hdot, Hdec. }
    destruct e as [e|].
    { exists [p], (Some (Other e)). cbn [walkDir IsDir]. rewrite Hnew, Hold. now split. }
    rewrite !walkDir_Dir, Hnew, Hold.
    assert (Hne : forall skip, In skip (Skip m) -> p <> TrimPrefix skip "/").
    { intros skip Hin E. rewrite shouldSkipDir_existsb in Hskip.
      assert (Hx : existsb (hardSkip p) (Skip m) = true).
      { apply existsb_exists. exists skip. split; [assumption|].
        unfold hardSkip. cbv zeta. now rewrite <- E, String.eqb_refl. }
      congruence. }
    apply wfNode_Dir in Hwf.
    assert (Hloop : forall acc acc',
              exists new r,
                walkList (dirsCallback Match m) p children acc = (acc ++ new, r) /\
                walkList (Legacy.dirsCallback m) p children acc' = (acc' ++ new, r)).
    { clear Hnew Hold. induction children as [|c rest IHrest]; intros acc acc'.
      - exists [], None. cbn. now rewrite !app_nil_r.
      - inversion IH as [|? ? IHc IHr]; subst.
        inversion Hwf as [|? ? [Hvc Hwc] Hwr]; subst.
        specialize (IHrest IHr Hwr).
        destruct (IHc (Join p (nodeName c)) acc acc' Hwc (Join_not_dot p _ Hvc)) as
          (n1 & r1 & E1 & E1').
        { intros skip Hin. apply Join_notStrict; auto. }
        cbn [walkList]. rewrite E1, E1'.
        destruct r1 as [[| |e1]|]; try (exists n1; eexists; split; reflexivity).
        destruct (IHrest (acc ++ n1) (acc' ++ n1)) as (n2 & r2 & E2 & E2').
        exists (n1 ++ n2), r2. rewrite E2, E2', !app_assoc. now split. }
    destruct (Hloop (dirs ++ [p]) (dirs' ++ [p])) as (n2 & r2 & E2 & E2').
    exists ([p] ++ n2), r2. rewrite E2, E2', !app_assoc. now split.
Qed.

Lemma getMigrationDirs_legacy (dname : string) (e : option error) (children : list Node) :
  wfNode (Dir dname e children) ->
  getMigrationDirs Match m (Mounted (Dir dname e children)) =
  match Legacy.getMigrationDirs m (Mounted (Dir dname e children)) with
  | Ok dirs => Ok ("." :: dirs)
  | Err err => Err err
  end.
Proof.
  intros Hwf.
  assert (Hout : forall skip, In skip (Skip m) -> notStrict (TrimPrefix skip "/") ".")
    by (intros; apply dot_notStrict).
  destruct (literal_decisions "." Hout) as [_ Hsoft].
  assert (Hskip : shouldSkipDir m "." = false).
  { rewrite shouldSkipDir_existsb. apply not_true_is_false. intros H.
    apply existsb_exists in H as (skip & Hin & H).
    destruct (literal skip Hin) as (Hdot & Hsuf & _).
    unfold hardSkip in H. cbv zeta in H. rewrite Hsuf in H. cbn [andb] in H.
    rewrite orb_false_r in H. now apply String.eqb_eq in H. }
  specialize (Hsoft Hskip).
  assert (Hnew : dirsCallback Match m "." true None [] = (["."], None)).
  { unfold dirsCallback. cbn [negb]. now rewrite Hskip, Hsoft. }
  assert (Hold : Legacy.dirsCallback m "." true None [] = ([], None)).
  { now rewrite Legacy_dirsCallback_dir. }
  unfold getMigrationDirs, Legacy.getMigrationDirs, WalkDir.
  destruct e as [e|].
  { cbn [walkDir IsDir]. now rewrite Hnew, Hold. }
  rewrite !walkDir_Dir, Hnew, Hold.
  assert (Hne : forall skip, In skip (Skip m) -> "." <> TrimPrefix skip "/").
  { intros skip Hin E. destruct (literal skip Hin) as (Hdot & _). congruence. }
  apply wfNode_Dir in Hwf.
  assert (Hloop : forall acc acc',
            exists new r,
              walkList (dirsCallback Match m) "." children acc = (acc ++ new, r) /\
              walkList (Legacy.dirsCallback m) "." children acc' = (acc' ++ new, r)).
  { induction children as [|c rest IHrest]; intros acc acc'.
    - exists [], None. cbn. now rewrite !app_nil_r.
    - inversion Hwf as [|? ? [Hvc Hwc] Hwr]; subst.
      specialize (IHrest Hwr).
      destruct (walk_legacy c (Join "." (nodeName c)) acc acc' Hwc (Join_not_dot "." _ Hvc))
        as (n1 & r1 & E1 & E1').
      { intros skip Hin. apply Join_notStrict; auto. }
      cbn [walkList]. rewrite E1, E1'.
      destruct r1 as [[| |e1]|]; try (exists n1; eexists; split; reflexivity).
      destruct (IHrest (acc ++ n1) (acc' ++ n1)) as (n2 & r2 & E2 & E2').
      exists (n1 ++ n2), r2. rewrite E2, E2', !app_assoc. now split. }
  destruct (Hloop ["."] []) as (n2 & r2 & E2 & E2'). rewrite E2, E2'.
  destruct r2 as [[| |e2]|]; reflexivity.
Qed.

End LegacyFacts.

(** X12.  The two revisions of [getMigrationDirs] agree on skip entries
    that are plain directory paths.  Let every entry of [Skip], once its
    leading ["/"] is stripped, be different from ["."], not end in ["/**"],
    and be matched by the matcher against itself only.  Then over a
    directory tree the later revision returns the root ["."] followed by
    exactly what the earlier revision returns, in the same order, and fails
    with the same error when the earlier one fails.  The prefix test of the
    earlier revision adds nothing: a path under a skip entry is never
    visited, because the entry itself was pruned. *)
Theorem legacy_dirs_agree (Match : string -> string -> bool) (m : Migrate)
    (dname : string) (e : option error) (children : list Node) :
  wfNode (Dir dname e children) ->
  (forall skip, In skip (Skip m) -> literalSkip Match skip) ->
  getMigrationDirs Match m (Mounted (Dir dname e children)) =
  match Legacy.getMigrationDirs m (Mounted (Dir dname e children)) with
  | Ok dirs => Ok ("." :: dirs)
  | Err err => Err err
  end.
Proof. intros Hwf Hlit. now apply getMigrationDirs_legacy. Qed.

Section LegacyFiles.
Variable Match : string -> string -> bool.
Variable m : Migrate.

Lemma collectFiles_legacy (dir : string) (entries : list Node) :
  Forall (fun entry => IsDir entry = false ->
                       shouldSkip Match m (Join dir (nodeName entry)) = false) entries ->
  forall files, collectFiles Match m dir entries files = Legacy.collectFiles m entries files.
Proof.
  induction 1 as [|entry rest Hentry _ IH]; intros files; [reflexivity|].
  cbn [collectFiles Legacy.collectFiles]. rewrite fullPath_Join.
  destruct (IsDir entry); [apply IH|]. rewrite (Hentry eq_refl).
  destruct (_ && _); [apply IH|].
  destruct (extractLeadingNumber (nodeName entry)) as [n s].
  destruct (0 <? n); apply IH.
Qed.
End LegacyFiles.

(** X13.  The two revisions of [getMigrationFiles] differ by the skip
    check alone: for a directory in which no skip pattern matches the path
    of a file entry, both return the same list (the same error when the
    directory cannot be listed). *)
Theorem legacy_files_agree (Match : string -> string -> bool) (m : Migrate)
    (fileSystem : FS) (dir : string) :
  (forall entries entry, ReadDir fileSystem dir = Ok entries -> In entry entries ->
     IsDir entry = false -> shouldSkip Match m (Join dir (nodeName entry)) = false) ->
  getMigrationFiles Match m fileSystem dir = Legacy.getMigrationFiles m fileSystem dir.
Proof.
  intros H. unfold getMigrationFiles, Legacy.getMigrationFiles.
  destruct (ReadDir fileSystem dir) as [entries|e]; [|reflexivity].
  rewrite (collectFiles_legacy Match m dir entries); [reflexivity|].
  apply List.Forall_forall. intros entry Hin. now apply (H entries).
Qed.

(** ** The calls of a run *)

Section CallSequence.
Context {S : Type}.
Variable driver : Driver S.
Variable ctx : Context.

(** The loop calls [Process] on a prefix of the yielded sets, in order, and
    on all of them when it runs to its end. *)
Lemma migrateLoop_calls (items : list Item) :
  forall (t : nat) (s : S),
    exists infos,
      snd (Orchestrator.migrateLoop driver ctx t items s) = map CallProcess infos /\
      infos `prefix_of` setsBeforeError items /\
      (snd (fst (Orchestrator.migrateLoop driver ctx t items s)) = None ->
       infos = setsBeforeError items /\ forall e, ~ In (Fail e) items).
Proof.
  induction items as [|[info|e] rest IH]; intros t s.
  - exists []. cbn. split_and!; auto.
  - cbn [Orchestrator.migrateLoop setsBeforeError].
    destruct (Process driver (ctx t) info s) as [s' [err|]].
    + exists [info]. cbn. split_and!; [reflexivity | | discriminate].
      now exists (setsBeforeError rest).
    + destruct (IH (Datatypes.S t) s') as (infos & Hc & Hp & Hr).
      destruct (Orchestrator.migrateLoop driver ctx (Datatypes.S t) rest s')
        as [[s'' ret] calls].
      cbn [fst snd] in *. exists (info :: infos). split_and!.
      * cbn. now rewrite Hc.
      * now apply prefix_cons.
      * intros Hret. destruct (Hr Hret) as [-> Hnf]. split; [reflexivity|].
        intros e [H|H]; [discriminate | exact (Hnf e H)].
  - exists []. cbn. split_and!; [reflexivity | apply prefix_nil | discriminate].
Qed.

End CallSequence.

(** X14.  The calls [Migrate] makes on the driver.  If [Start] fails,
    [Start] is the only call (neither [Process] nor [End] follows) and its
    error is returned.  Otherwise the calls are [Start], then [Process] on
    the yielded sets in the order of the iteration, stopping at the first
    error of the iteration or of [Process], then [End] once.  [Migrate]
    returns [nil] only if the iteration yielded no error and [Process] was
    called on every set. *)
Theorem Migrate_call_sequence {S : Type} (driver : Driver S) (ctx : Context)
    (items : list Item) (s : S) :
  let '(_, ret, calls) := Orchestrator.Migrate driver ctx items s in
  (snd (Start driver (ctx 0%nat) s) <> None /\
   ret = snd (Start driver (ctx 0%nat) s) /\ calls = [CallStart]) \/
  (snd (Start driver (ctx 0%nat) s) = None /\
   exists infos,
     calls = CallStart :: map CallProcess infos ++ [CallEnd None] /\
     infos `prefix_of` setsBeforeError items /\
     (ret = None -> infos = setsBeforeError items /\ forall e, ~ In (Fail e) items)).
Proof.
  unfold Orchestrator.Migrate.
  destruct (Start driver (ctx 0%nat) s) as [s1 [e|]].
  - cbn. left. split_and!; [discriminate | reflexivity..].
  - destruct (migrateLoop_calls driver ctx items 1 s1) as (infos & Hc & Hp & Hr).
    destruct (Orchestrator.migrateLoop driver ctx 1 items s1) as [[s2 ret] calls].
    cbn [fst snd] in *.
    destruct (End driver _ None s2) as [s3 r3].
    right. split; [reflexivity|].
    exists infos. rewrite Hc. split_and!; [reflexivity | assumption..].
Qed.

Section CallbackFacts.
Context {S : Type}.
Variable apply : option error -> Callback.status -> option string -> S -> S * option error.
Variable ctx : Context.

Lemma Callback_applyFiles_ok (files : list string) :
  forall (t : nat) (s s' : S) (done : list string),
    Callback.applyFiles apply ctx t files s = (s', None, done) -> done = files.
Proof.
  induction files as [|file rest IH]; intros t s s' done H.
  - now injection H as <- <-.
  - cbn [Callback.applyFiles] in H.
    destruct (apply (ctx t) Callback.StatusProcess (Some file) s) as [s1 [e|]]; [discriminate|].
    destruct (Callback.applyFiles apply ctx (Datatypes.S t) rest s1) as [[s2 r] d] eqn:E.
    injection H as <- -> <-. now rewrite (IH _ _ _ _ E).
Qed.

Lemma Callback_migrateLoop_ok (items : list Callback.Item) :
  forall (t : nat) (s s' : S) (done : list string),
    Callback.migrateLoop apply ctx t items s = (s', None, done) ->
    done = allFiles items /\ (forall e, ~ In (Err e) items).
Proof.
  induction items as [|[files|e] rest IH]; intros t s s' done H.
  - injection H as <- <-. now split.
  - cbn [Callback.migrateLoop] in H. destruct (ctx t); [discriminate|].
    destruct (Callback.applyFiles apply ctx t files s) as [[s1 [e|]] d1] eqn:E1; [discriminate|].
    destruct (Callback.migrateLoop apply ctx (t + length d1) rest s1) as [[s2 r] d2] eqn:E2.
    injection H as <- -> <-.
    destruct (IH _ _ _ _ E2) as [-> Hnf]. rewrite (Callback_applyFiles_ok _ _ _ _ _ E1).
    split; [reflexivity|]. intros e [H|H]; [discriminate | exact (Hnf e H)].
  - discriminate.
Qed.
End CallbackFacts.

(** X15.  The callback-shaped [Migrate] of the earlier revision returns
    [nil] only after a complete run: [apply] accepted the start, the
    iteration yielded no error, every file of every set was handed to
    [apply] in order, and [apply] accepted the end, whose state is the
    final one. *)
Theorem Callback_Migrate_nil {S : Type}
    (apply : option error -> Callback.status -> option string -> S -> S * option error)
    (ctx : Context) (items : list Callback.Item) (s s' : S) (done : list string) :
  Callback.Migrate apply ctx items s = (s', None, done) ->
  done = allFiles items /\
  (forall e, ~ In (Err e) items) /\
  snd (apply (ctx 0%nat) Callback.StatusStart None s) = None /\
  exists s2, apply (ctx (Datatypes.S (length done))) Callback.StatusEnd None s2 = (s', None).
Proof.
  unfold Callback.Migrate.
  destruct (apply (ctx 0%nat) Callback.StatusStart None s) as [s1 [e|]]; [discriminate|].
  destruct (Callback.migrateLoop apply ctx 1 items s1) as [[s2 [e|]] d] eqn:El; [discriminate|].
  destruct (apply (ctx (Datatypes.S (length d))) Callback.StatusEnd None s2) as [s3 [e|]] eqn:Ee;
    [discriminate|].
  intros [= <- <-]. destruct (Callback_migrateLoop_ok apply ctx items _ _ _ _ El) as [Hd Hnf].
  split_and!; [assumption.. | reflexivity |].
  now exists s2.
Qed.

(** ** The PostgreSQL driver: what a transaction writes and keeps *)

Lemma maxVersion_In (rows : list Row) (r : Row) (dir : string) :
  In r rows -> directory r = dir ->
  exists v, maxVersion rows dir = Some v /\ version r <= v.
Proof.
  induction rows as [|x rows IH]; intros Hin Hdir; [contradiction|].
  cbn [maxVersion]. destruct Hin as [->|Hin].
  - rewrite Hdir, String.eqb_refl.
    destruct (maxVersion rows dir) as [v|]; eexists; split; try reflexivity; lia.
  - destruct (IH Hin Hdir) as (v & -> & Hv).
    destruct (String.eqb (directory x) dir); eexists; split; try reflexivity; lia.
Qed.

(** Rows of other directories do not move the mark of a directory. *)
Lemma maxVersion_app_others (rows added : list Row) (d' : string) :
  Forall (fun row => directory row <> d') added ->
  maxVersion (rows ++ added) d' = maxVersion rows d'.
Proof.
  intros Hadd. induction rows as [|x rows IH]; cbn [app maxVersion].
  - induction Hadd as [|y added Hy _ IHa]; [reflexivity|]. cbn [maxVersion].
    destruct (String.eqb_spec (directory y) d'); [congruence | exact IHa].
  - now rewrite IH.
Qed.

(** A version above the mark of its directory, within the range of the
    column, is inserted: the [UNIQUE(version, directory)] constraint
    cannot be hit. *)
Lemma insertRow_above (rows : list Row) (v : Z) (dir name : string) :
  highWater rows dir < v -> - 2 ^ 31 <= v <= maxInt32 ->
  insertRow (mkRow v dir name) rows = Ok (rows ++ [mkRow v dir name]).
Proof.
  intros Hhw Hrange. unfold insertRow. cbn [version directory].
  assert ((- 2 ^ 31 <=? v) && (v <=? maxInt32) = true) as ->
    by (apply andb_true_iff; split; apply Z.leb_le; lia).
  cbn [negb].
  destruct (existsb _ rows) eqn:E; [|reflexivity].
  apply existsb_exists in E as (r & Hin & Hr).
  apply andb_true_iff in Hr as [Hv Hd].
  apply Z.eqb_eq in Hv. apply String.eqb_eq in Hd.
  destruct (maxVersion_In rows r dir Hin Hd) as (mv & Hmv & Hle).
  unfold highWater in Hhw. rewrite Hmv in Hhw. lia.
Qed.

Lemma selected_sublist (mark : Z) (files : list FileInfo) :
  selected mark files `sublist_of` files.
Proof.
  revert mark. induction files as [|f rest IH]; intros mark; cbn [selected]; [constructor|].
  destruct (Version f <=? mark); [apply sublist_cons | apply sublist_skip]; apply IH.
Qed.

Section Transaction.
Variable Store : Type.
Variable exec : string -> Store -> res Store.

Lemma pgProcess_db (cerr : option error) (info : Muzo) (p : Pg Store) :
  dbRows (fst (pgProcess exec cerr info p)) = dbRows p /\
  dbData (fst (pgProcess exec cerr info p)) = dbData p /\
  (tx p <> None -> tx (fst (pgProcess exec cerr info p)) <> None).
Proof.
  unfold pgProcess. destruct (tx p) as [t|] eqn:Ht.
  2:{ cbn. rewrite Ht. split_and!; congruence. }
  destruct cerr as [e|]; [cbn; split_and!; congruence|].
  destruct (failed t); [cbn; rewrite Ht; split_and!; congruence|].
  destruct (pgApply exec info (Files info) _ t (applied p)) as [[t' log] err].
  cbn. split_and!; congruence.
Qed.

(** No [Process] call changes what is committed. *)
Lemma migrateLoop_db (ctx : Context) (items : list Item) :
  forall (n : nat) (p : Pg Store),
    let p' := fst (fst (Orchestrator.migrateLoop (PostgresDriver exec) ctx n items p)) in
    dbRows p' = dbRows p /\ dbData p' = dbData p /\ (tx p <> None -> tx p' <> None).
Proof.
  induction items as [|[info|e] rest IH]; intros n p; cbv zeta.
  - now cbn.
  - cbn [Orchestrator.migrateLoop].
    change (Process (PostgresDriver exec)) with (@pgProcess Store exec).
    destruct (pgProcess_db (ctx n) info p) as (Hr & Hd & Ht).
    destruct (pgProcess exec (ctx n) info p) as [p1 [e|]]; cbn [fst] in *; [now cbn|].
    specialize (IH (Datatypes.S n) p1). cbv zeta in IH.
    destruct (Orchestrator.migrateLoop (PostgresDriver exec) ctx (Datatypes.S n) rest p1)
      as [[p2 r2] calls2]. cbn [fst] in *.
    destruct IH as (Hr2 & Hd2 & Ht2). split_and!; [congruence.. | auto].
  - now cbn.
Qed.

(** Whatever the loop of [Process] does, it only appends rows, and they
    are rows of the set's directory. *)
Lemma pgApply_rows (info : Muzo) (files : list FileInfo) :
  forall (mark : Z) (t t' : Tx Store) (log log' : list (string * string))
         (r : option error),
    pgApply exec info files mark t log = (t', log', r) ->
    exists added, rows t' = rows t ++ added /\
                  Forall (fun row => directory row = MDir info) added.
Proof.
  induction files as [|file rest IH]; intros mark t t' log log' r H.
  - injection H as <- <- <-. exists []. now rewrite app_nil_r.
  - cbn [pgApply] in H. destruct (Version file <=? mark); [now apply IH in H|].
    destruct (ReadFile info (FPath file)) as [content|e].
    2:{ injection H as <- <- <-. exists []. now rewrite app_nil_r. }
    destruct (exec content (data t)) as [data'|e].
    2:{ injection H as <- <- <-. exists []. cbn. now rewrite app_nil_r. }
    destruct (insertRow _ (rows t)) as [rows'|e] eqn:Ei.
    2:{ injection H as <- <- <-. exists []. cbn. now rewrite app_nil_r. }
    apply IH in H as (added & Hr & Hall). cbn [rows] in Hr.
    unfold insertRow in Ei. destruct (negb _); [discriminate|].
    destruct (existsb _ _); [discriminate|]. injection Ei as <-.
    exists (mkRow (Version file) (MDir info) (FPath file) :: added).
    split; [now rewrite Hr, <- app_assoc|]. now constructor.
Qed.

(** With readable files, SQL that runs and versions that fit the column,
    the loop of [Process] fails nowhere. *)
Lemma pgApply_succeeds (info : Muzo) (files : list FileInfo) :
  (forall f c st, In f files -> ReadFile info (FPath f) = Ok c ->
                  exists st', exec c st = Ok st') ->
  Forall (fun f => - 2 ^ 31 <= Version f <= maxInt32 /\
                   exists c, ReadFile info (FPath f) = Ok c) files ->
  forall (mark : Z) (t : Tx Store) (log : list (string * string)),
    mark = highWater (rows t) (MDir info) ->
    exists t' log', pgApply exec info files mark t log = (t', log', None).
Proof.
  intros Hexec Hall. induction Hall as [|file rest [Hrange [c Hc]] _ IH];
    intros mark t log Hmark.
  - now exists t, log.
  - assert (Hexec' : forall f c st, In f rest -> ReadFile info (FPath f) = Ok c ->
                       exists st', exec c st = Ok st').
    { intros f c0 st Hin. apply Hexec. now right. }
    specialize (IH Hexec').
    cbn [pgApply]. destruct (Z.leb_spec (Version file) mark) as [Hle|Hgt]; [now apply IH|].
    rewrite Hc. destruct (Hexec file c (data t) (or_introl eq_refl) Hc) as [data' ->].
    rewrite insertRow_above by (cbn [rows]; lia).
    apply IH. cbn [rows]. rewrite highWater_snoc by lia. now rewrite String.eqb_refl.
Qed.

Lemma pgApply_skip_prefix (info : Muzo) (skipped rest : list FileInfo) (mark : Z)
    (t : Tx Store) (log : list (string * string)) :
  Forall (fun g => Version g <= mark) skipped ->
  pgApply exec info (skipped ++ rest) mark t log = pgApply exec info rest mark t log.
Proof.
  induction 1 as [|g l Hg _ IH]; [reflexivity|]. cbn [app pgApply].
  destruct (Z.leb_spec (Version g) mark); [exact IH | lia].
Qed.

(** X16.  [End] with a non-nil error undoes the run: whatever [Start] and
    the [Process] calls of the loop did, after [End(ctx, err)] with
    [err != nil] the committed table and the committed data are what they
    were before [Start].  No [Process] call writes outside the
    transaction. *)
Theorem End_error_rolls_back (ctx : Context) (items : list Item) (p : Pg Store)
    (cerr : option error) (e : error) :
  let p1 := fst (pgStart (ctx 0%nat) p) in
  let p2 := fst (fst (Orchestrator.migrateLoop (PostgresDriver exec) ctx 1 items p1)) in
  let p3 := fst (pgEnd cerr (Some e) p2) in
  dbRows p3 = dbRows p /\ dbData p3 = dbData p.
Proof.
  cbv zeta.
  assert (H1 : dbRows (fst (pgStart (ctx 0%nat) p)) = dbRows p /\
               dbData (fst (pgStart (ctx 0%nat) p)) = dbData p).
  { unfold pgStart. now destruct (ctx 0%nat). }
  destruct H1 as [Hr1 Hd1].
  destruct (migrateLoop_db ctx items 1 (fst (pgStart (ctx 0%nat) p)))
    as (Hr2 & Hd2 & _). cbv zeta in Hr2, Hd2.
  set (p2 := fst (fst (Orchestrator.migrateLoop _ ctx 1 items _))) in *.
  unfold pgEnd. destruct (tx p2); cbn; split_and!; congruence.
Qed.

(** X17.  [Process] does not fail for reasons of its own.  In an open
    transaction, under a live context, if every file of the set has a
    version that fits the 32-bit [version] column, can be read, and holds
    SQL that the database accepts, [Process] returns [nil]: the files it
    inserts lie above every version recorded for the directory, so the
    [UNIQUE(version, directory)] constraint is never violated. *)
Theorem Process_succeeds (info : Muzo) (p : Pg Store) (t : Tx Store) :
  tx p = Some t -> failed t = false ->
  (forall f, In f (Files info) ->
     - 2 ^ 31 <= Version f <= maxInt32 /\
     exists c, ReadFile info (FPath f) = Ok c /\
               forall st, exists st', exec c st = Ok st') ->
  snd (pgProcess exec None info p) = None.
Proof.
  intros Ht Hf Hfiles. unfold pgProcess. rewrite Ht, Hf.
  destruct (pgApply_succeeds info (Files info)) with
    (mark := highWater (rows t) (MDir info)) (t := t) (log := applied p)
    as (t' & log' & ->); [| |reflexivity|reflexivity].
  - intros f c st Hin Hc. destruct (Hfiles f Hin) as (_ & c' & Hc' & Hex).
    rewrite Hc in Hc'. injection Hc' as <-. apply Hex.
  - apply List.Forall_forall. intros f Hin.
    destruct (Hfiles f Hin) as (Hr & c & Hc & _). split; [exact Hr|]. now exists c.
Qed.

(** X18.  A version beyond the 32-bit [version] column cannot be recorded.
    Let [f] be the first file of the set above the mark of its directory,
    with a version greater than 2^31-1 (a timestamp such as
    20240101120000, say), readable, its SQL accepted.  Then [Process] runs
    the SQL of [f] inside the transaction and fails at the [INSERT] that
    should record it: it returns an error, no row is added, and nothing is
    committed. *)
Theorem version_beyond_column_fails (info : Muzo) (p : Pg Store) (t : Tx Store)
    (skipped rest : list FileInfo) (f : FileInfo) (c : string) (data' : Store) :
  tx p = Some t -> failed t = false ->
  Files info = skipped ++ f :: rest ->
  Forall (fun g => Version g <= highWater (rows t) (MDir info)) skipped ->
  highWater (rows t) (MDir info) <= maxInt32 ->
  maxInt32 < Version f ->
  ReadFile info (FPath f) = Ok c ->
  exec c (data t) = Ok data' ->
  exists p' e t',
    pgProcess exec None info p = (p', Some e) /\
    dbRows p' = dbRows p /\
    applied p' = applied p ++ [logOf info f] /\
    tx p' = Some t' /\ rows t' = rows t /\ data t' = data'.
Proof.
  intros Ht Hf Hfiles Hsk Hmark Hv Hc He. unfold pgProcess.
  rewrite Ht, Hf, Hfiles, (pgApply_skip_prefix info skipped _ _ t _ Hsk).
  cbn [pgApply]. destruct (Z.leb_spec (Version f) (highWater (rows t) (MDir info))); [lia|].
  rewrite Hc, He. unfold insertRow. cbn [version directory].
  assert ((- 2 ^ 31 <=? Version f) && (Version f <=? maxInt32) = false) as ->.
  { apply andb_false_iff. right. apply Z.leb_gt. lia. }
  cbn [negb]. eexists _, _, _. split_and!; reflexivity.
Qed.

(** X19.  [Process] touches the records of its own directory only.
    Whether it succeeds or fails, the rows of the transaction afterwards
    are the rows before followed by new rows, each of the set's directory;
    no row is changed or removed, and the high-water mark of every other
    directory is what it was. *)
Theorem Process_touches_only_its_directory (cerr : option error)
    (info : Muzo) (p p' : Pg Store) (t : Tx Store) (r : option error) :
  tx p = Some t ->
  pgProcess exec cerr info p = (p', r) ->
  exists t' added,
    tx p' = Some t' /\
    rows t' = rows t ++ added /\
    Forall (fun row => directory row = MDir info) added /\
    forall d', d' <> MDir info -> highWater (rows t') d' = highWater (rows t) d'.
Proof.
  intros Ht. unfold pgProcess. rewrite Ht.
  assert (Hnone : forall t' : Tx Store, rows t' = rows t ->
            exists t'' added, Some t' = Some t'' /\ rows t'' = rows t ++ added /\
              Forall (fun row => directory row = MDir info) added /\
              forall d', d' <> MDir info -> highWater (rows t'') d' = highWater (rows t) d').
  { intros t' Hr. exists t', []. rewrite app_nil_r, Hr. split_and!; auto. }
  destruct cerr as [e|].
  { intros [= <- <-]. cbn [tx]. now apply Hnone. }
  destruct (failed t).
  { intros [= <- <-]. rewrite Ht. now apply Hnone. }
  destruct (pgApply exec info (Files info) _ t (applied p)) as [[t' log] err] eqn:E.
  intros [= <- <-]. cbn [tx].
  destruct (pgApply_rows info _ _ _ _ _ _ _ E) as (added & Hr & Hall).
  exists t', added. split_and!; try assumption; try reflexivity.
  intros d' Hne. unfold highWater. rewrite Hr.
  rewrite (maxVersion_app_others (rows t) added d'); [reflexivity|].
  eapply Forall_impl; [exact Hall|]. cbn. intros row Hrow. congruence.
Qed.

(** X20.  [Process] never goes back below the mark.  After a successful
    call the files that were run and recorded are a subsequence of the
    set's files, all with a version above the high-water mark the
    directory had at the start of the call.  A file at or below that mark
    is neither run nor recorded, whether or not it was ever applied: a
    migration added later with a lower number is passed over. *)
Theorem Process_never_backfills (info : Muzo) (p p' : Pg Store) (t : Tx Store) :
  tx p = Some t ->
  pgProcess exec None info p = (p', None) ->
  exists t' ran,
    tx p' = Some t' /\
    rows t' = rows t ++ map (rowOf info) ran /\
    applied p' = applied p ++ map (logOf info) ran /\
    ran `sublist_of` Files info /\
    Forall (fun g => highWater (rows t) (MDir info) < Version g) ran /\
    forall f, Version f <= highWater (rows t) (MDir info) -> ~ In f ran.
Proof.
  intros Ht Hp.
  destruct (pgProcess_ok Store exec None info p p' t Ht Hp) as (_ & _ & _ & _ & t' & Ht' & Happ).
  destruct (pgApply_ok Store exec info (Files info) _ t t' _ _ Happ eq_refl)
    as (Hrows & Hlog & _).
  exists t', (selected (highWater (rows t) (MDir info)) (Files info)).
  pose proof (selected_above (highWater (rows t) (MDir info)) (Files info)) as Habove.
  split_and!; try assumption; [apply selected_sublist|].
  intros f Hle Hin. rewrite List.Forall_forall in Habove. specialize (Habove f Hin). lia.
Qed.

(** The loop of a run that goes through: set by set, the rows and log
    entries of the files above the mark the directory had in [base]. *)
Lemma migrateLoop_records (ctx : Context) (base : list Row) (items : list Item) :
  forall (n : nat) (p p' : Pg Store) (t : Tx Store) (calls : list Call) (added : list Row),
    Orchestrator.migrateLoop (PostgresDriver exec) ctx n items p = (p', None, calls) ->
    tx p = Some t ->
    rows t = base ++ added ->
    Forall (fun row => directory row ∉ yieldedDirs items) added ->
    NoDup (yieldedDirs items) ->
    exists t',
      tx p' = Some t' /\
      (failed t = false -> failed t' = false) /\
      rows t' = rows t ++
        concat (map (fun info => recorded (highWater base (MDir info)) info)
                    (setsBeforeError items)) /\
      applied p' = applied p ++
        concat (map (fun info => logged (highWater base (MDir info)) info)
                    (setsBeforeError items)).
Proof.
  induction items as [|[info|e] rest IH]; intros n p p' t calls added H Ht Hrows Hadd Hnd.
  - injection H as <- <-. exists t. cbn. now rewrite !app_nil_r.
  - cbn [Orchestrator.migrateLoop] in H.
    change (Process (PostgresDriver exec)) with (@pgProcess Store exec) in H.
    destruct (pgProcess exec (ctx n) info p) as [p1 [e|]] eqn:Ep; [discriminate|].
    destruct (pgProcess_ok Store exec _ info p p1 t Ht Ep)
      as (_ & _ & _ & _ & t1 & Ht1 & Happ).
    destruct (pgApply_ok Store exec info (Files info) _ t t1 _ _ Happ eq_refl)
      as (Hr1 & Hl1 & Hf1 & _ & _).
    destruct (Orchestrator.migrateLoop (PostgresDriver exec) ctx (Datatypes.S n) rest p1)
      as [[p2 r2] calls2] eqn:El.
    injection H as -> -> <-.
    unfold yieldedDirs in Hnd, Hadd. cbn [omap] in Hnd, Hadd.
    change (omap _ rest) with (yieldedDirs rest) in Hnd, Hadd.
    apply NoDup_cons in Hnd as [Hnotin Hnd].
    assert (Hmark : highWater (rows t) (MDir info) = highWater base (MDir info)).
    { unfold highWater. rewrite Hrows. rewrite maxVersion_app_others; [reflexivity|].
      eapply Forall_impl; [exact Hadd|]. cbn. intros row Hrow E. apply Hrow.
      rewrite E. now left. }
    rewrite Hmark in Hr1, Hl1.
    destruct (IH _ _ _ t1 _
                (added ++ map (rowOf info) (selected (highWater base (MDir info)) (Files info)))
                El Ht1) as (t2 & Ht2 & Hf2 & Hr2 & Hl2).
    { now rewrite Hr1, Hrows, app_assoc. }
    { apply Forall_app. split.
      - eapply Forall_impl; [exact Hadd|]. cbn. intros row Hrow Hin. apply Hrow. now right.
      - apply Forall_forall. intros row Hin.
        apply list_elem_of_fmap in Hin as (f & -> & _). exact Hnotin. }
    { exact Hnd. }
    exists t2. split_and!; [exact Ht2 | auto | |].
    + rewrite Hr2, Hr1. cbn [setsBeforeError map concat]. unfold recorded at 2.
      now rewrite <- app_assoc.
    + rewrite Hl2, Hl1. cbn [setsBeforeError map concat]. unfold logged at 2.
      now rewrite <- app_assoc.
  - discriminate.
Qed.

(** X21.  What a successful run leaves behind.  Let [Migrate] with the
    PostgreSQL driver return [nil] under a context that is never
    cancelled, over sets with pairwise different directories.  Then the
    iteration yielded no error, and the table afterwards is the table
    before followed, set by set in the order of the iteration, by one row
    for each file the loop of [Process] selects against the mark the
    directory had before the run; the SQL of exactly these files ran, in
    that order. *)
Theorem successful_run_records (ctx : Context) (items : list Item) (p p' : Pg Store)
    (calls : list Call) :
  (forall k, ctx k = None) ->
  NoDup (yieldedDirs items) ->
  Orchestrator.Migrate (PostgresDriver exec) ctx items p = (p', None, calls) ->
  dbRows p' = dbRows p ++
    concat (map (fun info => recorded (highWater (dbRows p) (MDir info)) info)
                (setsBeforeError items)) /\
  applied p' = applied p ++
    concat (map (fun info => logged (highWater (dbRows p) (MDir info)) info)
                (setsBeforeError items)) /\
  (forall e, ~ In (Fail e) items).
Proof.
  intros Hlive Hnd H.
  unfold Orchestrator.Migrate in H.
  change (Start (PostgresDriver exec)) with (@pgStart Store) in H.
  change (End (PostgresDriver exec)) with (@pgEnd Store) in H.
  unfold pgStart in H. rewrite !Hlive in H.
  set (t0 := mkTx (dbRows p) (dbData p) false) in H.
  set (ps := mkPg (dbRows p) (dbData p) (Some t0) (applied p)) in H.
  destruct (Orchestrator.migrateLoop (PostgresDriver exec) ctx 1 items ps)
    as [[pl r1] cl] eqn:El.
  rewrite Hlive in H.
  destruct (pgEnd None None pl) as [pe re] eqn:Ee.
  injection H as -> -> <-.
  destruct (migrateLoop_records ctx (dbRows p) items 1 ps pl t0 cl [] El eq_refl)
    as (t1 & Ht1 & Hf1 & Hr1 & Hl1); [now rewrite app_nil_r | constructor | exact Hnd |].
  specialize (Hf1 eq_refl).
  unfold pgEnd in Ee. rewrite Ht1, Hf1 in Ee. injection Ee as <- <-.
  cbn [dbRows applied]. split_and!; [exact Hr1 | exact Hl1 |].
  destruct (migrateLoop_calls (PostgresDriver exec) ctx items 1 ps) as (infos & _ & _ & Hr).
  rewrite El in Hr. cbn [fst snd] in Hr. now destruct (Hr eq_refl).
Qed.
End Transaction.

(** ** A directory that only [shouldSkip] matches *)

Section SoftSkip.
Variable Match : string -> string -> bool.
Variable m : Migrate.

(** X22.  A skip pattern that matches a directory without pruning it
    ([shouldSkip] holds, [shouldSkipDir] does not, as for a pattern such
    as ["test*"]) removes that directory alone: the walk still goes into
    it, and a directory directly below it that no skip applies to is
    returned all the same. *)
Theorem soft_skip_keeps_descending (root : Node) (dirs : list string)
    (q name : string) (children : list Node) (c : Node) :
  getMigrationDirs Match m (Mounted root) = Ok dirs ->
  reached m root "." q (Dir name None children) ->
  shouldSkipDir m q = false -> shouldSkip Match m q = true ->
  In c children -> IsDir c = true ->
  shouldSkipDir m (Join q (nodeName c)) = false ->
  shouldSkip Match m (Join q (nodeName c)) = false ->
  ~ In q dirs /\ In (Join q (nodeName c)) dirs.
Proof.
  intros Hget Hr Hhard Hsoft Hin Hdir Hchard Hcsoft.
  destruct (getMigrationDirs_reached Match m root dirs Hget) as [Hdirs _]. split.
  - intros H. apply Hdirs in H as (x & _ & _ & _ & H). congruence.
  - apply Hdirs. exists c. split_and!; try assumption.
    now apply (reached_child m root "." q name children c).
Qed.
End SoftSkip.

(** ** The sorted results do not depend on the sorting algorithm *)

Lemma fileCmp_antisym (a b : FileInfo) :
  fileOk a -> fileOk b -> fileCmp a b <= 0 -> fileCmp b a <= 0 -> a = b.
Proof.
  intros (Hva & Hna & _) (Hvb & Hnb & _). rewrite !fileCmp_eq.
  rewrite (Base_valid _ Hva), (Base_valid _ Hvb).
  destruct (Z.eqb_spec (fst (extractLeadingNumber (FPath a)))
                       (fst (extractLeadingNumber (FPath b)))) as [E|E].
  - rewrite E, Z.eqb_refl. cbn [negb]. intros H1 H2.
    pose proof (Compare_antisym _ _ H1 H2) as Hp.
    destruct a as [pa va], b as [pb vb]. cbn [FPath Version] in *. congruence.
  - assert (E' : (fst (extractLeadingNumber (FPath b)) =?
                  fst (extractLeadingNumber (FPath a))) = false)
      by (apply Z.eqb_neq; congruence).
    rewrite E'. cbn [negb]. lia.
Qed.

(** X23.  On the files [getMigrationFiles] collects (base names, each with
    the positive number of its name as version), the result of
    [sortMigrationFiles] is a permutation of its input in which no file
    compares above a later one, and it is the only such list: whatever
    algorithm [slices.SortFunc] runs, and although it is not stable, the
    order of the files is determined. *)
Theorem sortMigrationFiles_determined (files : list FileInfo) :
  Forall fileOk files ->
  sortMigrationFiles files ≡ₚ files /\
  StronglySorted (fun a b => fileCmp a b <= 0) (sortMigrationFiles files) /\
  (forall l', l' ≡ₚ files -> StronglySorted (fun a b => fileCmp a b <= 0) l' ->
              l' = sortMigrationFiles files).
Proof.
  intros Hok. unfold sortMigrationFiles. split_and!.
  - apply SortFunc_Permutation.
  - apply (SortFunc_sorted fileCmp fileCmp_flip fileCmp_trans).
  - intros l' Hp Hs.
    apply (SortFunc_unique fileCmp fileCmp_flip fileCmp_trans); try assumption.
    rewrite List.Forall_forall in Hok.
    intros a b Ha Hb. apply fileCmp_antisym; now apply Hok.
Qed.

(** X24.  With a non-empty [Order], the result of [sortDirs] is a
    permutation of its input in which no directory compares above a later
    one under the comparison built from [Order], and it is the only such
    list: the comparison tells any two different directories apart, so the
    order does not depend on the sorting algorithm. *)
Theorem sortDirs_determined (m : Migrate) (dirs : list string) :
  Order m <> [] ->
  let cmp := dirCmp (buildOrderMap 0 (Order m) ∅) in
  sortDirs m dirs ≡ₚ dirs /\
  StronglySorted (fun a b => cmp a b <= 0) (sortDirs m dirs) /\
  (forall l', l' ≡ₚ dirs -> StronglySorted (fun a b => cmp a b <= 0) l' ->
              l' = sortDirs m dirs).
Proof.
  intros Ho. cbv zeta. unfold sortDirs.
  destruct (Order m) as [|o rest] eqn:E; [congruence|]. rewrite <- E. split_and!.
  - apply SortFunc_Permutation.
  - apply (SortFunc_sorted _ (dirCmp_flip _) (dirCmp_trans _)).
  - intros l' Hp Hs.
    apply (SortFunc_unique _ (dirCmp_flip _) (dirCmp_trans _)); try assumption.
    intros a b _ _. apply dirCmp_antisym.
Qed.

(** ** Where a failed walk failed *)

Section WalkErrors.
Variable Match : string -> string -> bool.
Variable m : Migrate.

(** A walk that fails fails with the listing error of a directory it
    reached and did not prune. *)
Lemma walk_error (n : Node) :
  forall (p : string) (dirs dirs' : list string) (e : error),
    walkDir (dirsCallback Match m) p n dirs = (dirs', Some (Other e)) ->
    exists q name children,
      reached m n p q (Dir name (Some e) children) /\ shouldSkipDir m q = false.
Proof.
  induction n as [fname content|dname e0 children IH] using Node_induction;
    intros p dirs dirs' e Hw.
  - discriminate.
  - destruct (shouldSkipDir m p) eqn:Hskip.
    { destruct e0; [cbn [walkDir IsDir] in Hw | rewrite walkDir_Dir in Hw];
        rewrite dirsCallback_dir, Hskip in Hw; discriminate. }
    destruct e0 as [e0|].
    { cbn [walkDir IsDir] in Hw. rewrite dirsCallback_dir, Hskip in Hw.
      exists p, dname, children. split; [|exact Hskip].
      destruct (negb (shouldSkip Match m p)); cbn in Hw; injection Hw as _ <-; constructor. }
    rewrite walkDir_Dir, dirsCallback_dir, Hskip in Hw.
    assert (Hloop : forall acc acc',
              walkList (dirsCallback Match m) p children acc = (acc', Some (Other e)) ->
              exists c q name ch, In c children /\
                reached m c (Join p (nodeName c)) q (Dir name (Some e) ch) /\
                shouldSkipDir m q = false).
    { clear Hw. induction IH as [|c rest Hc _ IHrest]; intros acc acc' Hl; [discriminate|].
      cbn [walkList] in Hl.
      destruct (walkDir (dirsCallback Match m) (Join p (nodeName c)) c acc)
        as [acc1 [[| |e1]|]] eqn:Hwc; try discriminate.
      - injection Hl as _ <-. destruct (Hc _ _ _ _ Hwc) as (q & name & ch & Hr & Hs).
        exists c, q, name, ch. split_and!; [now left | assumption..].
      - destruct (IHrest _ _ Hl) as (c' & q & name & ch & Hin & Hr & Hs).
        exists c', q, name, ch. split_and!; [now right | assumption..]. }
    assert (Hl : exists acc, walkList (dirsCallback Match m) p children acc
                             = (dirs', Some (Other e))).
    { destruct (negb (shouldSkip Match m p)); eexists; exact Hw. }
    destruct Hl as [acc Hl].
    destruct (Hloop _ _ Hl) as (c & q & name & ch & Hin & Hr & Hs).
    exists q, name, ch. split; [|exact Hs]. now apply (reached_down m dname children c).
Qed.

(** X25.  [getMigrationDirs] fails only where the walk could not list a
    directory: if it returns an error, the walk reached a directory that
    [shouldSkipDir] does not prune and whose listing fails with that
    error.  Conversely, when the walk reaches such a directory,
    [getMigrationDirs] returns an error.  A directory that cannot be
    listed does no harm inside a pruned subtree, or when it is pruned
    itself: it is never read. *)
Theorem discovery_error_source (root : Node) :
  (forall e, getMigrationDirs Match m (Mounted root) = Err e ->
     exists q name children,
       reached m root "." q (Dir name (Some e) children) /\ shouldSkipDir m q = false) /\
  (forall q name e0 children,
     reached m root "." q (Dir name (Some e0) children) -> shouldSkipDir m q = false ->
     exists e, getMigrationDirs Match m (Mounted root) = Err e).
Proof.
  split.
  - intros e H. unfold getMigrationDirs, WalkDir in H.
    destruct (walkDir (dirsCallback Match m) "." root []) as [acc [[| |e1]|]] eqn:Hw;
      try discriminate.
    injection H as ->. now apply (walk_error root "." [] acc).
  - intros q name e0 children Hr Hs.
    destruct (getMigrationDirs Match m (Mounted root)) as [dirs|e] eqn:Hget; [|now exists e].
    destruct (getMigrationDirs_reached Match m root dirs Hget) as [_ Hnone].
    now pose proof (Hnone _ _ _ _ Hr Hs).
Qed.
End WalkErrors.

(** ** A cancelled context and the commit *)

(** X26.  With the PostgreSQL driver a run whose context is cancelled by
    the time of its last driver call commits nothing: the committed table
    and data after [Migrate] are what they were before.  [Migrate] itself
    never looks at the context; it is [BeginTx], the statements and
    [Commit] that refuse to work under a cancelled one. *)
Theorem cancelled_run_commits_nothing {Store : Type} (exec : string -> Store -> res Store)
    (ctx : Context) (items : list Item) (p p' : Pg Store) (ret : option error)
    (calls : list Call) :
  Orchestrator.Migrate (PostgresDriver exec) ctx items p = (p', ret, calls) ->
  ctx (length calls - 1)%nat <> None ->
  dbRows p' = dbRows p /\ dbData p' = dbData p.
Proof.
  unfold Orchestrator.Migrate.
  change (Start (PostgresDriver exec)) with (@pgStart Store).
  change (End (PostgresDriver exec)) with (@pgEnd Store).
  unfold pgStart. destruct (ctx 0%nat) as [e0|] eqn:E0.
  { intros [= <- <- <-] _. now cbn. }
  set (ps := mkPg (dbRows p) (dbData p) _ (applied p)).
  destruct (migrateLoop_db Store exec ctx items 1 ps) as (Hr & Hd & _). cbv zeta in Hr, Hd.
  destruct (Orchestrator.migrateLoop (PostgresDriver exec) ctx 1 items ps)
    as [[pl r1] cl]. cbn [fst] in Hr, Hd. subst ps. cbn [dbRows dbData] in Hr, Hd.
  destruct (pgEnd (ctx (Datatypes.S (length cl))) None pl) as [pe re] eqn:Ee.
  intros [= <- <- <-] Hc.
  assert (Hlen : (length (CallStart :: cl ++ [CallEnd None]) - 1)%nat
                 = Datatypes.S (length cl)).
  { cbn [length]. rewrite length_app. cbn [length]. lia. }
  rewrite Hlen in Hc. unfold pgEnd in Ee. destruct (tx pl) as [t|].
  - destruct (ctx (Datatypes.S (length cl))) as [e|]; [|congruence].
    injection Ee as <- _. now cbn.
  - injection Ee as <- _. now split.
Qed.

(** ** The further properties at concrete inputs *)

(** The matcher of the examples on a pattern without metacharacters. *)
Lemma pathMatch_plain (pats : list string) :
  Forall plain pats -> forall segs, pathMatch pats segs = true -> segs = pats.
Proof.
  induction 1 as [|p ps Hp _ IH]; intros segs H.
  - destruct segs; [reflexivity | discriminate].
  - cbn [pathMatch] in H. rewrite (plain_not_doublestar p Hp) in H.
    destruct segs as [|s r]; [discriminate|].
    apply andb_true_iff in H as [H1 H2]. rewrite (segMatch_plain p s Hp) in H1.
    apply String.eqb_eq in H1 as <-. now rewrite (IH r H2).
Qed.

(** A pattern without metacharacters matches itself only. *)
Lemma globMatch_plain (pattern path : string) :
  plain pattern -> globMatch pattern path = true -> path = pattern.
Proof.
  intros [Hstar Hq] H. unfold globMatch in H.
  apply pathMatch_plain in H.
  - now rewrite <- (joinSegs_segments path), H, joinSegs_segments.
  - pose proof (segments_without "*" pattern Hstar) as H1.
    pose proof (segments_without "?" pattern Hq) as H2.
    rewrite List.Forall_forall in H1, H2. apply List.Forall_forall.
    intros seg Hin. split; [now apply H1 | now apply H2].
Qed.

Ltac solve_NoDup :=
  match goal with
  | |- NoDup ?l => apply (bool_decide_unpack (NoDup l)); vm_compute; exact I
  end.

Ltac solve_distinct := cbn; repeat split; try solve_NoDup.

(** X1 at [Skip = ["/test/**"]]: [keep] is returned, and is a reached directory
    no skip applies to. *)
Lemma discovered_dirs_exact_witness :
  let m := mkMigrate EmptyString [] ["/test/**"] EmptyString in
  In "keep" ["."; "keep"] <->
  exists x, reached m testRoot "." "keep" x /\ IsDir x = true /\
            shouldSkipDir m "keep" = false /\ shouldSkip globMatch m "keep" = false.
Proof.
  cbv zeta.
  apply (discovered_dirs_exact globMatch (mkMigrate EmptyString [] ["/test/**"] EmptyString)
           testRoot ["."; "keep"]).
  vm_compute. reflexivity.
Defined.

(** X2 at the tree of the skip tests, without skip patterns. *)
Lemma all_directories_discovered_witness :
  In "test/child/grandchild" ["."; "keep"; "test"; "test/child"; "test/child/grandchild"] <->
  exists x, located testRoot "." "test/child/grandchild" x /\ IsDir x = true.
Proof.
  apply (all_directories_discovered globMatch plainMigrate testRoot
           ["."; "keep"; "test"; "test/child"; "test/child/grandchild"]).
  - reflexivity.
  - vm_compute. reflexivity.
Defined.

(** X3 at the directory [test]. *)
Lemma migration_files_exact_witness :
  exists files,
    getMigrationFiles globMatch plainMigrate (Mounted testRoot) "test" = Ok files /\
    (forall f, In f files ->
       exists entry, In entry [File "001_test.sql" (Ok "t"); childDir] /\
         IsDir entry = false /\
         f = mkFileInfo (nodeName entry) (fst (extractLeadingNumber (nodeName entry))) /\
         0 < Version f /\
         shouldSkip globMatch plainMigrate (Join "test" (nodeName entry)) = false) /\
    (Extension plainMigrate = EmptyString ->
     forall entry, In entry [File "001_test.sql" (Ok "t"); childDir] -> IsDir entry = false ->
       0 < fst (extractLeadingNumber (nodeName entry)) ->
       shouldSkip globMatch plainMigrate (Join "test" (nodeName entry)) = false ->
       In (mkFileInfo (nodeName entry) (fst (extractLeadingNumber (nodeName entry)))) files).
Proof.
  apply (migration_files_exact globMatch plainMigrate (Mounted testRoot) "test"
           [File "001_test.sql" (Ok "t"); childDir]).
  reflexivity.
Defined.

(** X4 at [keep/001_keep.sql]. *)
Lemma migration_file_names_witness :
  let f := mkFileInfo "001_keep.sql" 1 in
  startsWithDigit (FPath f) = true /\
  1 <= run_value (leadingDigits (FPath f)) <= maxInt /\
  Version f = run_value (leadingDigits (FPath f)).
Proof.
  cbv zeta.
  apply (migration_file_names globMatch plainMigrate (Mounted testRoot) "keep"
           [mkFileInfo "001_keep.sql" 1] (mkFileInfo "001_keep.sql" 1)).
  - vm_compute. reflexivity.
  - now left.
Defined.

(** X5 at the tree [usersPosts]. *)
Lemma discovery_all_or_nothing_witness :
  (exists e, iterMigrationInfo globMatch plainMigrate usersPosts = [Fail e]) \/
  (forall e, ~ In (Fail e) (iterMigrationInfo globMatch plainMigrate usersPosts)).
Proof.
  apply (discovery_all_or_nothing globMatch plainMigrate usersPosts).
  intros root [= <-]. split; [solve_wf | solve_distinct].
Defined.

(** X6 at the tree of the skip tests. *)
Lemma yielded_dirs_distinct_witness :
  NoDup (yieldedDirs (iterMigrationInfo globMatch plainMigrate (Mounted testRoot))).
Proof.
  apply (yielded_dirs_distinct globMatch plainMigrate testRoot); [solve_wf | solve_distinct].
Defined.

(** X7 at [keep/001_keep.sql]. *)
Lemma discovered_file_readable_witness :
  let info := mkMuzo "keep" [mkFileInfo "001_keep.sql" 1] (Mounted testRoot) in
  let f := mkFileInfo "001_keep.sql" 1 in
  exists content,
    located testRoot "." (Join (MDir info) (FPath f)) (File (FPath f) content) /\
    Open info (FPath f) = Ok (File (FPath f) content) /\
    ReadFile info (FPath f) = content.
Proof.
  cbv zeta.
  apply (discovered_file_readable globMatch plainMigrate testRoot
           (mkMuzo "keep" [mkFileInfo "001_keep.sql" 1] (Mounted testRoot))
           (mkFileInfo "001_keep.sql" 1)).
  - solve_wf.
  - solve_distinct.
  - vm_compute. right. left. reflexivity.
  - now left.
Defined.

(** X8: ["/keep"] and ["/test"] against ["keep"] and ["test"]. *)
Lemma leading_slash_irrelevant_witness :
  iterMigrationInfo globMatch (mkMigrate EmptyString ["/keep"] ["/test"] ".sql") (Mounted testRoot)
  = iterMigrationInfo globMatch (mkMigrate EmptyString ["keep"] ["test"] ".sql") (Mounted testRoot).
Proof. apply leading_slash_irrelevant; reflexivity. Defined.

(** X9 at three directories. *)
Lemma sortDirs_lexical_witness :
  let dirs := ["schema"; "."; "data"] in
  sortDirs plainMigrate dirs ≡ₚ dirs /\
  StronglySorted (fun a b => Compare a b <= 0) (sortDirs plainMigrate dirs) /\
  (forall l', l' ≡ₚ dirs -> StronglySorted (fun a b => Compare a b <= 0) l' ->
              l' = sortDirs plainMigrate dirs).
Proof. cbv zeta. apply (sortDirs_lexical plainMigrate ["schema"; "."; "data"]). reflexivity. Defined.

(** X10: [schema] before [schema/v2], with [schema-old] between them. *)
Lemma parent_before_descendant_witness :
  exists l1 l2 l3,
    sortDirs plainMigrate ["schema/v2"; "schema-old"; "schema"; "."]
    = l1 ++ "schema" :: l2 ++ ("schema" +:+ "/" +:+ "v2") :: l3.
Proof.
  apply (parent_before_descendant plainMigrate ["schema/v2"; "schema-old"; "schema"; "."]
           "schema" "v2").
  - reflexivity.
  - right. right. now left.
  - now left.
Defined.

(** X12 at [Skip = ["/test"]]. *)
Lemma legacy_dirs_agree_witness :
  let m := mkMigrate EmptyString [] ["/test"] EmptyString in
  getMigrationDirs globMatch m (Mounted testRoot) =
  match Legacy.getMigrationDirs m (Mounted testRoot) with
  | Ok dirs => Ok ("." :: dirs)
  | Err err => Err err
  end.
Proof.
  cbv zeta.
  apply (legacy_dirs_agree globMatch (mkMigrate EmptyString [] ["/test"] EmptyString)
           EmptyString None [Dir "keep" None [File "001_keep.sql" (Ok "k")]; testDir]).
  - solve_wf.
  - intros skip [<-|[]]. split_and!; [discriminate | reflexivity |].
    intros path. apply globMatch_plain. split; reflexivity.
Defined.

(** X13 at the directory [keep], without skip patterns. *)
Lemma legacy_files_agree_witness :
  getMigrationFiles globMatch plainMigrate (Mounted testRoot) "keep"
  = Legacy.getMigrationFiles plainMigrate (Mounted testRoot) "keep".
Proof.
  apply (legacy_files_agree globMatch plainMigrate (Mounted testRoot) "keep").
  intros entries entry _ _ _. reflexivity.
Defined.

(** X15 at two sets of files. *)
Lemma Callback_Migrate_nil_witness :
  let items : list Callback.Item := [Ok ["1_a.sql"; "2_b.sql"]; Ok ["schema/1_c.sql"]] in
  let done := ["1_a.sql"; "2_b.sql"; "schema/1_c.sql"] in
  done = allFiles items /\
  (forall e, ~ In (Err e) items) /\
  snd (logApply (liveCtx 0%nat) Callback.StatusStart None []) = None /\
  exists s2, logApply (liveCtx (Datatypes.S (length done))) Callback.StatusEnd None s2
             = ([EmptyString; "1_a.sql"; "2_b.sql"; "schema/1_c.sql"; EmptyString], None).
Proof.
  cbv zeta.
  apply (Callback_Migrate_nil logApply liveCtx
           [Ok ["1_a.sql"; "2_b.sql"]; Ok ["schema/1_c.sql"]] []
           [EmptyString; "1_a.sql"; "2_b.sql"; "schema/1_c.sql"; EmptyString]
           ["1_a.sql"; "2_b.sql"; "schema/1_c.sql"]).
  reflexivity.
Defined.

(** X17 at the root set of [usersPosts]. *)
Lemma Process_succeeds_witness :
  snd (pgProcess sqlExec None rootSet startedPg) = None.
Proof.
  apply (Process_succeeds (list string) sqlExec rootSet startedPg emptyTx); [reflexivity..|].
  intros f [<-|[<-|[]]]; (split; [vm_compute; split; discriminate|]).
  - exists "create users". split; [reflexivity|]. intros st. now exists (st ++ ["create users"]).
  - exists "create posts". split; [reflexivity|]. intros st. now exists (st ++ ["create posts"]).
Defined.

(** X18 at a file numbered 20240101120000. *)
Lemma version_beyond_column_fails_witness :
  exists p' e t',
    pgProcess sqlExec None timestampSet startedPg = (p', Some e) /\
    dbRows p' = dbRows startedPg /\
    applied p' = applied startedPg ++ [logOf timestampSet (mkFileInfo "20240101120000_init.sql" 20240101120000)] /\
    tx p' = Some t' /\ rows t' = rows emptyTx /\ data t' = ["create t"].
Proof.
  apply (version_beyond_column_fails (list string) sqlExec timestampSet startedPg emptyTx [] []
           (mkFileInfo "20240101120000_init.sql" 20240101120000) "create t" ["create t"]).
  - reflexivity.
  - reflexivity.
  - reflexivity.
  - constructor.
  - vm_compute. discriminate.
  - vm_compute. reflexivity.
  - reflexivity.
  - reflexivity.
Defined.

(** X19 at the directory with three files of version 1. *)
Lemma Process_touches_only_its_directory_witness :
  exists t' added,
    tx (fst (pgProcess sqlExec None sameVersionSet startedPg)) = Some t' /\
    rows t' = rows emptyTx ++ added /\
    Forall (fun row => directory row = MDir sameVersionSet) added /\
    forall d', d' <> MDir sameVersionSet -> highWater (rows t') d' = highWater (rows emptyTx) d'.
Proof.
  apply (Process_touches_only_its_directory (list string) sqlExec None sameVersionSet startedPg
           (fst (pgProcess sqlExec None sameVersionSet startedPg)) emptyTx
           (snd (pgProcess sqlExec None sameVersionSet startedPg))).
  - reflexivity.
  - vm_compute. reflexivity.
Defined.

(** X20 at the same directory. *)
Lemma Process_never_backfills_witness :
  exists t' ran,
    tx (fst (pgProcess sqlExec None sameVersionSet startedPg)) = Some t' /\
    rows t' = rows emptyTx ++ map (rowOf sameVersionSet) ran /\
    applied (fst (pgProcess sqlExec None sameVersionSet startedPg))
      = applied startedPg ++ map (logOf sameVersionSet) ran /\
    ran `sublist_of` Files sameVersionSet /\
    Forall (fun g => highWater (rows emptyTx) (MDir sameVersionSet) < Version g) ran /\
    forall f, Version f <= highWater (rows emptyTx) (MDir sameVersionSet) -> ~ In f ran.
Proof.
  apply (Process_never_backfills (list string) sqlExec sameVersionSet startedPg
           (fst (pgProcess sqlExec None sameVersionSet startedPg)) emptyTx).
  - reflexivity.
  - vm_compute. reflexivity.
Defined.

(** X21 at the tree [usersPosts] and an empty database. *)
Lemma successful_run_records_witness :
  let items := iterMigrationInfo globMatch plainMigrate usersPosts in
  let run := Orchestrator.Migrate (PostgresDriver sqlExec) liveCtx items emptyPg in
  let p' := fst (fst run) in
  dbRows p' = dbRows emptyPg ++
    concat (map (fun info => recorded (highWater (dbRows emptyPg) (MDir info)) info)
                (setsBeforeError items)) /\
  applied p' = applied emptyPg ++
    concat (map (fun info => logged (highWater (dbRows emptyPg) (MDir info)) info)
                (setsBeforeError items)) /\
  (forall e, ~ In (Fail e) items).
Proof.
  cbv zeta.
  apply (successful_run_records (list string) sqlExec liveCtx
           (iterMigrationInfo globMatch plainMigrate usersPosts) emptyPg _
           (snd (Orchestrator.Migrate (PostgresDriver sqlExec) liveCtx
                   (iterMigrationInfo globMatch plainMigrate usersPosts) emptyPg))).
  - intros k. reflexivity.
  - vm_compute. solve_NoDup.
  - vm_compute. reflexivity.
Defined.

(** X22 at [Skip = ["test*"]]: [test1] is matched and left out, [test1/sub]
    is returned. *)
Lemma soft_skip_keeps_descending_witness :
  let m := mkMigrate EmptyString [] ["test*"] EmptyString in
  ~ In "test1" ["."; "keep"; "test1/sub"] /\
  In (Join "test1" (nodeName (Dir "sub" None []))) ["."; "keep"; "test1/sub"].
Proof.
  cbv zeta.
  apply (soft_skip_keeps_descending globMatch (mkMigrate EmptyString [] ["test*"] EmptyString)
           (Dir EmptyString None [Dir "keep" None []; Dir "test1" None [Dir "sub" None []]])
           ["."; "keep"; "test1/sub"] "test1" "test1" [Dir "sub" None []] (Dir "sub" None [])).
  - vm_compute. reflexivity.
  - refine (reached_child _ _ "." "." EmptyString _ (Dir "test1" None [Dir "sub" None []])
              (reached_here _ _ _) _ _); [reflexivity | right; now left].
  - reflexivity.
  - reflexivity.
  - now left.
  - reflexivity.
  - reflexivity.
  - reflexivity.
Defined.

(** X23 at the directory with three files of version 1. *)
Lemma sortMigrationFiles_determined_witness :
  let files := [mkFileInfo "2_next.sql" 2; mkFileInfo "001_beta.sql" 1;
                mkFileInfo "001_alpha.sql" 1] in
  sortMigrationFiles files ≡ₚ files /\
  StronglySorted (fun a b => fileCmp a b <= 0) (sortMigrationFiles files) /\
  (forall l', l' ≡ₚ files -> StronglySorted (fun a b => fileCmp a b <= 0) l' ->
              l' = sortMigrationFiles files).
Proof.
  cbv zeta.
  apply (sortMigrationFiles_determined
           [mkFileInfo "2_next.sql" 2; mkFileInfo "001_beta.sql" 1;
            mkFileInfo "001_alpha.sql" 1]).
  repeat apply List.Forall_cons; try apply List.Forall_nil;
    (split_and!; [reflexivity | reflexivity | vm_compute; reflexivity]).
Defined.

(** X24 at [Order = ["schema"; "data"]]. *)
Lemma sortDirs_determined_witness :
  let m := mkMigrate EmptyString ["schema"; "data"] [] EmptyString in
  let dirs := ["."; "data"; "other"; "schema"] in
  let cmp := dirCmp (buildOrderMap 0 (Order m) ∅) in
  sortDirs m dirs ≡ₚ dirs /\
  StronglySorted (fun a b => cmp a b <= 0) (sortDirs m dirs) /\
  (forall l', l' ≡ₚ dirs -> StronglySorted (fun a b => cmp a b <= 0) l' ->
              l' = sortDirs m dirs).
Proof.
  cbv zeta.
  apply (sortDirs_determined (mkMigrate EmptyString ["schema"; "data"] [] EmptyString)
           ["."; "data"; "other"; "schema"]).
  discriminate.
Defined.

(** X25 at a directory that cannot be listed: the walk fails with its
    error, unless the directory is pruned. *)
Example discovery_error_pruned :
  let root := Dir EmptyString None [Dir "locked" (Some "permission denied") []] in
  getMigrationDirs globMatch plainMigrate (Mounted root) = Err "permission denied" /\
  getMigrationDirs globMatch (mkMigrate EmptyString [] ["/locked"] EmptyString) (Mounted root)
    = Ok ["."].
Proof. vm_compute. split; reflexivity. Qed.

(** X26 at the tree [usersPosts], the context cancelled before [End]. *)
Lemma cancelled_run_commits_nothing_witness :
  let run := Orchestrator.Migrate (PostgresDriver sqlExec) (cancelledFrom 3)
               (iterMigrationInfo globMatch plainMigrate usersPosts) emptyPg in
  dbRows (fst (fst run)) = dbRows emptyPg /\ dbData (fst (fst run)) = dbData emptyPg.
Proof.
  cbv zeta.
  apply (cancelled_run_commits_nothing sqlExec (cancelledFrom 3)
           (iterMigrationInfo globMatch plainMigrate usersPosts) emptyPg _
           (snd (fst (Orchestrator.Migrate (PostgresDriver sqlExec) (cancelledFrom 3)
                        (iterMigrationInfo globMatch plainMigrate usersPosts) emptyPg)))
           (snd (Orchestrator.Migrate (PostgresDriver sqlExec) (cancelledFrom 3)
                   (iterMigrationInfo globMatch plainMigrate usersPosts) emptyPg))).
  - vm_compute. reflexivity.
  - vm_compute. discriminate.
Defined.

